(** * GOD (Grounded Object Data): a shallow embedding of the codec

    The Go package [god] encodes Go values into the GOD notation
    ([Marshal], [MarshalBeautify]) and decodes GOD text into a typed
    destination ([Unmarshal]).  This development embeds the scanner, the
    decoder and the encoder as Rocq functions and proves properties of
    them.

    Conventions of the embedding.
    - A Go [string] or [[]byte] is a [list ascii]; a byte is an [ascii].
    - The receiver [p *parser] is mutated in place by the Go methods; here
      every method returns the parser it leaves behind.
    - A Go loop becomes a [Fixpoint] on a fuel argument.  The scanner loops
      advance the cursor at every turn, so they are run with the number of
      remaining bytes as fuel; the decoder loops can spin without
      consuming input, so the decoder keeps an explicit fuel argument and
      has an [OutOfFuel] outcome. *)

From Stdlib Require Import Ascii String ZArith NArith Lia Bool Arith List.
Import ListNotations.

Local Open Scope char_scope.
Local Open Scope list_scope.
Local Open Scope nat_scope.

(** ** Bytes and byte strings *)

Abbreviation byte := ascii (only parsing).
Abbreviation bytes := (list ascii) (only parsing).

Definition bs (s : string) : bytes := list_ascii_of_string s.

Definition NUL : byte := "000".
Definition TAB : byte := "009".
Definition LF : byte := "010".
Definition VT : byte := "011".
Definition FF : byte := "012".
Definition CR : byte := "013".
Definition SP : byte := " ".
Definition DQ : byte := "034".
Definition BSL : byte := "\".

Definition beq (a b : byte) : bool := Ascii.eqb a b.

Fixpoint bytes_eqb (a b : bytes) : bool :=
  match a, b with
  | [], [] => true
  | x :: a', y :: b' => beq x y && bytes_eqb a' b'
  | _, _ => false
  end.

Fixpoint isPrefix (pre s : bytes) : bool :=
  match pre, s with
  | [], _ => true
  | x :: pre', y :: s' => beq x y && isPrefix pre' s'
  | _ :: _, [] => false
  end.

(** [strings.ContainsRune(seps, rune(c))] for a separator string [seps]
    made of ASCII bytes, as at both call sites. *)
Definition containsByte (seps : bytes) (c : byte) : bool :=
  existsb (beq c) seps.

(** *** [strings.TrimSpace]

    Leading and trailing white space is removed, as defined by Unicode:
    the ASCII bytes tab, line feed, vertical tab, form feed, carriage
    return and space, and the UTF-8 encodings of the other code points of
    the White_Space property. *)

Definition isAsciiSpace (c : byte) : bool :=
  beq c TAB || beq c LF || beq c VT || beq c FF || beq c CR || beq c SP.

Definition ofCodes (l : list nat) : bytes := map ascii_of_nat l.

Definition unicodeSpaces : list bytes :=
  map ofCodes
    [ [194; 133]; [194; 160]; [225; 154; 128];
      [226; 128; 128]; [226; 128; 129]; [226; 128; 130]; [226; 128; 131];
      [226; 128; 132]; [226; 128; 133]; [226; 128; 134]; [226; 128; 135];
      [226; 128; 136]; [226; 128; 137]; [226; 128; 138];
      [226; 128; 168]; [226; 128; 169]; [226; 128; 175];
      [226; 129; 159]; [227; 128; 128] ].

(** The length of the white-space rune [s] starts with, if any. *)
Definition leadingSpace (encs : list bytes) (s : bytes) : option nat :=
  match s with
  | [] => None
  | c :: _ =>
      if isAsciiSpace c then Some 1
      else option_map (@length ascii) (find (fun e => isPrefix e s) encs)
  end.

Fixpoint trimLeft_loop (fuel : nat) (encs : list bytes) (s : bytes) : bytes :=
  match fuel with
  | O => s
  | S f =>
      match leadingSpace encs s with
      | Some n => trimLeft_loop f encs (skipn n s)
      | None => s
      end
  end.

Definition trimLeft (encs : list bytes) (s : bytes) : bytes :=
  trimLeft_loop (length s) encs s.

Definition TrimSpace (s : bytes) : bytes :=
  rev (trimLeft (map (@rev ascii) unicodeSpaces) (rev (trimLeft unicodeSpaces s))).

(** ** Errors and results *)

Inductive Error : Type :=
| ErrTargetNotPointer      (* unmarshal target must be a non-nil pointer *)
| ErrUnsupportedTarget     (* unsupported target type *)
| ErrStructOpen            (* expected '{' for struct *)
| ErrStructEq              (* expected '=' after key *)
| ErrStructClose           (* expected '}' at end of struct *)
| ErrMapOpen               (* expected '{' for map *)
| ErrMapEq                 (* expected '=' after key (map) *)
| ErrMapClose              (* expected '}' at end of map *)
| ErrListOpen              (* expected '[' or '(' for slice *)
| ErrListClose             (* expected ']' at end of list *)
| ErrTableOpen             (* expected '(' for table *)
| ErrTableNotStruct        (* table format only supported for struct slices *)
| ErrUnsupportedField      (* unsupported field type *)
| ErrStringStart           (* expected a quote at start of string *)
| ErrUnterminatedEscape    (* unterminated escape in string *)
| ErrUnterminatedString    (* unterminated string *)
| ErrTripleStart           (* expected triple quote *)
| ErrUnterminatedTriple    (* unterminated triple-quoted string *)
| ErrExpectedNumber        (* expected number *)
| ErrInvalidBool           (* invalid boolean *)
| ErrGenericTable          (* generic table decoding not implemented yet *)
| ErrSyntax                (* strconv.ErrSyntax *)
| ErrRange                 (* strconv.ErrRange *)
| ErrUnsupportedType.      (* unsupported type (encoder) *)

(** A Go result pair [(value, error)]. *)
Inductive res (A : Type) : Type :=
| Ok (a : A)
| Err (e : Error).
Arguments Ok {A} a.
Arguments Err {A} e.

(** ** The scanner *)

Record parser : Type := mkParser { src : bytes; pos : nat }.

Definition setPos (p : parser) (n : nat) : parser := mkParser (src p) n.

Definition eof (p : parser) : bool := length (src p) <=? pos p.

Definition peek (p : parser) : byte :=
  if eof p then NUL else nth (pos p) (src p) NUL.

Definition next (p : parser) : byte * parser :=
  if eof p then (NUL, p)
  else (nth (pos p) (src p) NUL, setPos p (S (pos p))).

Definition isBlank (c : byte) : bool :=
  beq c SP || beq c LF || beq c CR || beq c TAB.

Fixpoint skipSpaces_loop (fuel : nat) (p : parser) : parser :=
  match fuel with
  | O => p
  | S f =>
      if negb (eof p) && isBlank (peek p)
      then skipSpaces_loop f (setPos p (S (pos p)))
      else p
  end.

Definition remaining (p : parser) : nat := length (src p) - pos p.

Definition skipSpaces (p : parser) : parser :=
  skipSpaces_loop (remaining p) p.

(** The bytes at which [readBareToken] stops. *)
Definition isDelim (c : byte) : bool :=
  beq c SP || beq c LF || beq c CR || beq c TAB || beq c "=" || beq c ";"
  || beq c "{" || beq c "}" || beq c "[" || beq c "]" || beq c "("
  || beq c ")" || beq c "," || beq c ":".

Fixpoint readBareToken_loop (fuel : nat) (p : parser) (buf : bytes)
  : bytes * parser :=
  match fuel with
  | O => (buf, p)
  | S f =>
      if eof p then (buf, p)
      else if isDelim (peek p) then (buf, p)
      else let (c, p') := next p in readBareToken_loop f p' (buf ++ [c])
  end.

Definition readBareToken (p : parser) : bytes * parser :=
  let p1 := skipSpaces p in
  let (buf, p2) := readBareToken_loop (remaining p1) p1 [] in
  (TrimSpace buf, p2).

Fixpoint readUntilAny_loop (fuel : nat) (seps : bytes) (p : parser) : parser :=
  match fuel with
  | O => p
  | S f =>
      if eof p then p
      else if containsByte seps (peek p) then p
      else readUntilAny_loop f seps (setPos p (S (pos p)))
  end.

(** [p.src[a:b]] *)
Definition slice (s : bytes) (a b : nat) : bytes := firstn (b - a) (skipn a s).

Definition readUntilAny (seps : bytes) (p : parser) : bytes * parser :=
  let start := pos p in
  let p' := readUntilAny_loop (remaining p) seps p in
  (slice (src p) start (pos p'), p').

(** [peekAhead] is only ever called with the literal 3; its argument is a
    byte count. *)
Definition peekAhead (n : nat) (p : parser) : bytes :=
  if length (src p) <? pos p + n then skipn (pos p) (src p)
  else slice (src p) (pos p) (pos p + n).

(** ** Strings *)

Definition tripleQuote : bytes := [DQ; DQ; DQ].

Definition unescape (nc : byte) : byte :=
  if beq nc "n" then LF
  else if beq nc "r" then CR
  else if beq nc "t" then TAB
  else if beq nc BSL then BSL
  else if beq nc DQ then DQ
  else nc.

Fixpoint parseString_loop (fuel : nat) (p : parser) (buf : bytes)
  : res bytes * parser :=
  match fuel with
  | O => (Err ErrUnterminatedString, p)
  | S f =>
      if eof p then (Err ErrUnterminatedString, p)
      else
        let (c, p1) := next p in
        if beq c BSL then
          if eof p1 then (Err ErrUnterminatedEscape, p1)
          else
            let (nc, p2) := next p1 in
            parseString_loop f p2 (buf ++ [unescape nc])
        else if beq c DQ then (Ok buf, p1)
        else parseString_loop f p1 (buf ++ [c])
  end.

Definition parseString (p : parser) : res bytes * parser :=
  let (c, p1) := next p in
  if negb (beq c DQ) then (Err ErrStringStart, p1)
  else parseString_loop (remaining p1) p1 [].

Fixpoint parseTripleString_loop (fuel : nat) (start : nat) (p : parser)
  : res bytes * parser :=
  match fuel with
  | O => (Err ErrUnterminatedTriple, p)
  | S f =>
      if eof p then (Err ErrUnterminatedTriple, p)
      else if bytes_eqb (peekAhead 3 p) tripleQuote
      then (Ok (slice (src p) start (pos p)), setPos p (pos p + 3))
      else parseTripleString_loop f start (setPos p (S (pos p)))
  end.

Definition parseTripleString (p : parser) : res bytes * parser :=
  if negb (bytes_eqb (peekAhead 3 p) tripleQuote) then (Err ErrTripleStart, p)
  else
    let p1 := setPos p (pos p + 3) in
    parseTripleString_loop (remaining p1) (pos p1) p1.

Definition parseStringValue (p : parser) : res bytes * parser :=
  if beq (peek p) DQ then
    if bytes_eqb (peekAhead 3 p) tripleQuote then parseTripleString p
    else parseString p
  else
    let (tok, p') := readBareToken p in (Ok tok, p').

Definition parseBool (p : parser) : res bool * parser :=
  let (token, p') := readBareToken p in
  if bytes_eqb token (bs "true") then (Ok true, p')
  else if bytes_eqb token (bs "false") then (Ok false, p')
  else (Err ErrInvalidBool, p').

(** ** Numbers

    *** 64-bit floating point

    A [float64] is NaN, an infinity, or the finite value
    [(-1)^neg * m * 2^e].  Values produced by [roundF64] have
    [2^52 <= m < 2^53] (normal), or [e = -1074] (subnormal), or are zero. *)

Inductive F64 : Type :=
| FNaN
| FInf (neg : bool)
| FFin (neg : bool) (m : N) (e : Z).

Definition F64zero : F64 := FFin false 0 0.

(** [floor (num / (den * 2^e))] with the remainder and the divisor. *)
Definition scaleDiv (num den : N) (e : Z) : N * N * N :=
  let n' := if (0 <=? e)%Z then num else (num * 2 ^ Z.to_N (- e))%N in
  let d' := if (0 <=? e)%Z then (den * 2 ^ Z.to_N e)%N else den in
  ((n' / d')%N, (n' mod d')%N, d').

(** Round to nearest, ties to even. *)
Definition roundHalfEven (q r d : N) : N :=
  if (2 * r <? d)%N then q
  else if (d <? 2 * r)%N then (q + 1)%N
  else if N.even q then q else (q + 1)%N.

(** The exponent [e] with [2^52 <= num / den / 2^e < 2^53], not below the
    subnormal exponent -1074. *)
Definition binExp (num den : N) : Z :=
  let e0 := (Z.of_N (N.log2 num) - Z.of_N (N.log2 den) - 52)%Z in
  let '(q, _, _) := scaleDiv num den e0 in
  let e1 := if (q <? 2 ^ 52)%N then (e0 - 1)%Z else e0 in
  Z.max e1 (-1074).

(** The float64 nearest to [(-1)^neg * num / den], and whether it
    overflowed. *)
Definition roundF64 (neg : bool) (num den : N) : F64 * bool :=
  if (num =? 0)%N then (FFin neg 0 0, false)
  else
    let e := binExp num den in
    let '(q, r, d) := scaleDiv num den e in
    let m := roundHalfEven q r d in
    let '(m, e) := if (m =? 2 ^ 53)%N then ((2 ^ 52)%N, (e + 1)%Z) else (m, e) in
    if (971 <? e)%Z then (FInf neg, true)
    else if (m =? 0)%N then (FFin neg 0 0, false)
    else (FFin neg m e, false).

(** [float64(x)] for an integer [x]. *)
Definition F64ofZ (z : Z) : F64 :=
  fst (roundF64 (z <? 0)%Z (Z.abs_N z) 1).

(** The integer part of a finite float, rounded toward zero. *)
Definition truncF64 (f : F64) : option Z :=
  match f with
  | FFin neg m e =>
      let a := if (0 <=? e)%Z then (Z.of_N m * 2 ^ e)%Z
               else (Z.of_N m / 2 ^ (- e))%Z in
      Some (if neg then (- a)%Z else a)
  | _ => None
  end.

(** [int64(f)].  The Go specification leaves the result unspecified when
    the value does not fit; the embedding returns the bit pattern
    0x8000000000000000 there, as the amd64 conversion instruction does. *)
Definition F64toInt64 (f : F64) : Z :=
  match truncF64 f with
  | Some t => if ((- 2 ^ 63 <=? t) && (t <? 2 ^ 63))%Z then t else (- 2 ^ 63)%Z
  | None => (- 2 ^ 63)%Z
  end.

(** [uint64(f)], with the same convention outside the range. *)
Definition F64toUint64 (f : F64) : Z :=
  match truncF64 f with
  | Some t => if ((0 <=? t) && (t <? 2 ^ 64))%Z then t else (2 ^ 63)%Z
  | None => (2 ^ 63)%Z
  end.

(** [a == b] on floats. *)
Definition F64eqb (a b : F64) : bool :=
  match a, b with
  | FInf s, FInf s' => Bool.eqb s s'
  | FFin s m e, FFin s' m' e' =>
      if ((m =? 0) && (m' =? 0))%N then true
      else Bool.eqb s s'
           && (let k := Z.min e e' in
               (m * 2 ^ Z.to_N (e - k) =? m' * 2 ^ Z.to_N (e' - k))%N)
  | _, _ => false
  end.

Definition F64isZero (f : F64) : bool :=
  match f with FFin _ m _ => (m =? 0)%N | _ => false end.

(** [float32(f)] read back as a float64: round to 24 bits. *)
Definition roundF32 (f : F64) : F64 :=
  match f with
  | FFin neg m e =>
      if (m =? 0)%N then f
      else
        let e0 := (Z.of_N (N.log2 m) + e - 23)%Z in
        let e1 := Z.max e0 (-149) in
        let '(q, r, d) :=
          if (0 <=? e)%Z then scaleDiv (m * 2 ^ Z.to_N e) 1 e1
          else scaleDiv m (2 ^ Z.to_N (- e)) e1 in
        let m1 := roundHalfEven q r d in
        let '(m1, e1) := if (m1 =? 2 ^ 24)%N then ((2 ^ 23)%N, (e1 + 1)%Z) else (m1, e1) in
        if (104 <? e1)%Z then FInf neg
        else if (m1 =? 0)%N then FFin neg 0 0
        else FFin neg m1 e1
  | _ => f
  end.

(** *** [strconv.ParseFloat(s, 64)] *)

Definition lower (c : byte) : byte :=
  let n := nat_of_ascii c in
  if (65 <=? n) && (n <=? 90) then ascii_of_nat (n + 32) else c.

Definition isDigit (c : byte) : bool :=
  let n := nat_of_ascii c in (48 <=? n) && (n <=? 57).

Definition isHexLetter (c : byte) : bool :=
  let n := nat_of_ascii (lower c) in (97 <=? n) && (n <=? 102).

Definition digitVal (c : byte) : N := N.of_nat (nat_of_ascii c - 48).

Definition hexLetterVal (c : byte) : N := N.of_nat (nat_of_ascii (lower c) - 97 + 10).

(** The strings Inf, Infinity (with an optional sign) and NaN, in any
    letter case. *)
Definition special (s : bytes) : option F64 :=
  let named (neg : bool) (r : bytes) :=
    let l := map lower r in
    if bytes_eqb l (bs "inf") || bytes_eqb l (bs "infinity")
    then Some (FInf neg) else None in
  match s with
  | "+" :: r => named false r
  | "-" :: r => named true r
  | _ =>
      if bytes_eqb (map lower s) (bs "nan") then Some FNaN
      else named false s
  end.

(** The state of the mantissa loop of [readFloat]. *)
Record mant : Type := mkMant {
  sawdot : bool; sawdigits : bool; underscores : bool;
  nd : Z; dp : Z; mantissa : N }.

(** The mantissa loop: consumes digits, one dot and underscores, and
    returns the state with the unread rest. *)
Fixpoint readMant (hex : bool) (s : bytes) (st : mant) : mant * bytes :=
  match s with
  | [] => (st, [])
  | c :: r =>
      if beq c "_" then
        readMant hex r (mkMant (sawdot st) (sawdigits st) true (nd st) (dp st) (mantissa st))
      else if beq c "." then
        if sawdot st then (st, s)
        else readMant hex r (mkMant true (sawdigits st) (underscores st) (nd st) (nd st) (mantissa st))
      else if isDigit c then
        if beq c "0" && (nd st =? 0)%Z then
          readMant hex r (mkMant (sawdot st) true (underscores st) (nd st) (dp st - 1)%Z (mantissa st))
        else
          readMant hex r
            (mkMant (sawdot st) true (underscores st) (nd st + 1)%Z (dp st)
               (mantissa st * (if hex then 16 else 10) + digitVal c)%N)
      else if hex && isHexLetter c then
        readMant hex r
          (mkMant (sawdot st) true (underscores st) (nd st + 1)%Z (dp st)
             (mantissa st * 16 + hexLetterVal c)%N)
      else (st, s)
  end.

(** The digits of the exponent; the accumulated value stops growing at
    10000, as in the source. *)
Fixpoint readExpDigits (s : bytes) (e : Z) (us : bool) : Z * bool * bytes :=
  match s with
  | c :: r =>
      if beq c "_" then readExpDigits r e true
      else if isDigit c then
        readExpDigits r (if (e <? 10000)%Z then (e * 10 + Z.of_N (digitVal c))%Z else e) us
      else (e, us, s)
  | [] => (e, us, [])
  end.

(** [underscoreOK]: underscores only between digits, or after a base
    prefix. *)
Fixpoint underscoreScan (hex : bool) (s : bytes) (saw : byte) : bool :=
  match s with
  | [] => negb (beq saw "_")
  | c :: r =>
      if isDigit c || (hex && isHexLetter c) then underscoreScan hex r "0"
      else if beq c "_" then
        if negb (beq saw "0") then false else underscoreScan hex r "_"
      else if beq saw "_" then false
      else underscoreScan hex r "!"
  end.

Definition underscoreOK (s : bytes) : bool :=
  let s := match s with
           | "+" :: r => r
           | "-" :: r => r
           | _ => s
           end in
  match s with
  | "0" :: x :: r =>
      if beq (lower x) "b" || beq (lower x) "o" || beq (lower x) "x"
      then underscoreScan (beq (lower x) "x") r "0"
      else underscoreScan false s "^"
  | _ => underscoreScan false s "^"
  end.

(** The optional sign and the optional base prefix of [readFloat]. *)
Definition splitSign (s : bytes) : bool * bytes :=
  match s with
  | "+" :: r => (false, r)
  | "-" :: r => (true, r)
  | _ => (false, s)
  end.

Definition splitHex (s1 : bytes) : bool * bytes :=
  match s1 with
  | "0" :: x :: c :: r =>
      if beq (lower x) "x" then (true, c :: r) else (false, s1)
  | _ => (false, s1)
  end.

Definition mant0 : mant := mkMant false false false 0 0 0.

(** The end of [readFloat] and the conversion: [s] is the whole string,
    [rest] what was not read, [dp2] the position of the point after the
    exponent is applied, [nd1] the number of digits of the mantissa (in
    bits for a hexadecimal one).  The value read is
    [mantissa * base^(dp2 - nd1)], rounded once to the nearest float64. *)
Definition finishFloat (s : bytes) (neg hex : bool) (st : mant) (nd1 dp2 : Z)
  (us : bool) (rest : bytes) : res F64 :=
  if us && negb (underscoreOK (firstn (length s - length rest) s))
  then Err ErrSyntax
  else
    match rest with
    | _ :: _ => Err ErrSyntax
    | [] =>
        let ex := if (mantissa st =? 0)%N then 0%Z else (dp2 - nd1)%Z in
        let b := if hex then 2%N else 10%N in
        let '(f, over) :=
          if (0 <=? ex)%Z
          then roundF64 neg (mantissa st * b ^ Z.to_N ex) 1
          else roundF64 neg (mantissa st) (b ^ Z.to_N (- ex)) in
        if over then Err ErrRange else Ok f
    end.

(** [readFloat] followed by the exact conversion. *)
Definition ParseFloat (s : bytes) : res F64 :=
  match special s with
  | Some f => Ok f
  | None =>
      match s with
      | [] => Err ErrSyntax
      | _ =>
          let '(neg, s1) := splitSign s in
          let '(hex, s2) := splitHex s1 in
          let '(st, s3) := readMant hex s2 mant0 in
          if negb (sawdigits st) then Err ErrSyntax
          else
            let dp0 := if sawdot st then dp st else nd st in
            let dp1 := if hex then (dp0 * 4)%Z else dp0 in
            let nd1 := if hex then (nd st * 4)%Z else nd st in
            let expChar := if hex then "p" else "e" in
            match s3 with
            | c :: r =>
                if beq (lower c) expChar then
                  match r with
                  | [] => Err ErrSyntax
                  | c1 :: r1 =>
                      let '(esign, r2) :=
                        if beq c1 "+" then (1%Z, r1)
                        else if beq c1 "-" then ((-1)%Z, r1)
                        else (1%Z, r) in
                      match r2 with
                      | d :: _ =>
                          if isDigit d then
                            let '(e, us, r3) := readExpDigits r2 0 (underscores st) in
                            finishFloat s neg hex st nd1 (dp1 + e * esign)%Z us r3
                          else Err ErrSyntax
                      | [] => Err ErrSyntax
                      end
                  end
                else if hex then Err ErrSyntax
                else finishFloat s neg hex st nd1 dp1 (underscores st) s3
            | [] =>
                if hex then Err ErrSyntax
                else finishFloat s neg hex st nd1 dp1 (underscores st) s3
            end
      end
  end.

Definition parseNumber (p : parser) : res F64 * parser :=
  let (token, p') := readBareToken p in
  match token with
  | [] => (Err ErrExpectedNumber, p')
  | _ => (ParseFloat token, p')
  end.

(** *** [strconv.ParseInt(s, 10, 64)], [strconv.ParseUint(s, 10, 64)],
    [strconv.ParseBool] *)

Fixpoint parseUint_loop (s : bytes) (n : Z) : res Z :=
  match s with
  | [] => Ok n
  | c :: r =>
      if negb (isDigit c) then Err ErrSyntax
      else if (1844674407370955162 <=? n)%Z then Err ErrRange
      else
        let n1 := (n * 10 + Z.of_N (digitVal c))%Z in
        if (2 ^ 64 <=? n1)%Z then Err ErrRange
        else parseUint_loop r n1
  end.

Definition ParseUint (s : bytes) : res Z :=
  match s with
  | [] => Err ErrSyntax
  | _ => parseUint_loop s 0
  end.

Definition ParseInt (s : bytes) : res Z :=
  match s with
  | [] => Err ErrSyntax
  | _ =>
      let '(neg, s1) := match s with
                        | "+" :: r => (false, r)
                        | "-" :: r => (true, r)
                        | _ => (false, s)
                        end in
      match ParseUint s1 with
      | Err e => Err e
      | Ok un =>
          if negb neg && (2 ^ 63 <=? un)%Z then Err ErrRange
          else if neg && (2 ^ 63 <? un)%Z then Err ErrRange
          else Ok (if neg then (- un)%Z else un)
      end
  end.

Definition ParseBool (s : bytes) : res bool :=
  if existsb (bytes_eqb s) (map bs ["1"; "t"; "T"; "TRUE"; "true"; "True"]%string)
  then Ok true
  else if existsb (bytes_eqb s) (map bs ["0"; "f"; "F"; "FALSE"; "false"; "False"]%string)
  then Ok false
  else Err ErrSyntax.

(** *** The verb [%d] *)

Definition digitChar (d : N) : byte := ascii_of_nat (48 + N.to_nat d).

Fixpoint formatUint_loop (fuel : nat) (n : N) (acc : bytes) : bytes :=
  match fuel with
  | O => acc
  | S f =>
      let acc' := digitChar (n mod 10) :: acc in
      if (n <? 10)%N then acc' else formatUint_loop f (n / 10)%N acc'
  end.

Definition formatUint (n : N) : bytes :=
  formatUint_loop (S (N.to_nat (N.log2 n))) n [].

Definition formatInt (z : Z) : bytes :=
  if (z <? 0)%Z then "-" :: formatUint (Z.abs_N z) else formatUint (Z.abs_N z).

(** ** Types and values

    [Ty] stands for a [reflect.Type] and [Val] for a [reflect.Value]; a
    value carries what is needed to recover its type ([typeOf]).  Maps
    are the string-keyed maps the decoder supports; a map value lists its
    entries in the order in which [MapRange] visits them.  A value is a
    finite tree: pointers are followed, sharing and cycles are not
    represented. *)

Inductive IntKind : Type := Int | Int8 | Int16 | Int32 | Int64.
Inductive UintKind : Type := Uint | Uint8 | Uint16 | Uint32 | Uint64.
Inductive FloatKind : Type := Float32 | Float64.

Inductive Ty : Type :=
| TBool
| TInt (k : IntKind)
| TUint (k : UintKind)
| TFloat (k : FloatKind)
| TString
| TPtr (elem : Ty)
| TSlice (elem : Ty)
| TArray (len : nat) (elem : Ty)
| TMap (elem : Ty)
| TStruct (fields : list Field)
| TInterface
| TOther    (* a kind for which neither direction has a case: chan, func, complex, uintptr *)
with Field : Type :=
| mkField (Name : bytes) (Tag : bytes) (Type_ : Ty).

Definition Name (f : Field) : bytes := let '(mkField n _ _) := f in n.
(** The value of the [god] key of the struct tag, empty when absent. *)
Definition Tag (f : Field) : bytes := let '(mkField _ t _) := f in t.
Definition Type_ (f : Field) : Ty := let '(mkField _ _ t) := f in t.

Inductive Val : Type :=
| VBool (b : bool)
| VInt (k : IntKind) (n : Z)
| VUint (k : UintKind) (n : Z)
| VFloat (k : FloatKind) (f : F64)
| VString (s : bytes)
| VPtrNil (elem : Ty)
| VPtrTo (v : Val)
| VSliceNil (elem : Ty)
| VSlice (elem : Ty) (l : list Val)
| VArray (elem : Ty) (l : list Val)
| VMapNil (elem : Ty)
| VMap (elem : Ty) (keys : list bytes) (vals : list Val)
| VStruct (fields : list Field) (vals : list Val)
| VIfaceNil
| VIface (v : Val)
| VOther.

Fixpoint typeOf (v : Val) : Ty :=
  match v with
  | VBool _ => TBool
  | VInt k _ => TInt k
  | VUint k _ => TUint k
  | VFloat k _ => TFloat k
  | VString _ => TString
  | VPtrNil t => TPtr t
  | VPtrTo v => TPtr (typeOf v)
  | VSliceNil t => TSlice t
  | VSlice t _ => TSlice t
  | VArray t l => TArray (length l) t
  | VMapNil t => TMap t
  | VMap t _ _ => TMap t
  | VStruct fs _ => TStruct fs
  | VIfaceNil => TInterface
  | VIface _ => TInterface
  | VOther => TOther
  end.

(** [reflect.Zero(t)] *)
Fixpoint zero (t : Ty) : Val :=
  match t with
  | TBool => VBool false
  | TInt k => VInt k 0
  | TUint k => VUint k 0
  | TFloat k => VFloat k F64zero
  | TString => VString []
  | TPtr e => VPtrNil e
  | TSlice e => VSliceNil e
  | TArray n e => VArray e (repeat (zero e) n)
  | TMap e => VMapNil e
  | TStruct fs =>
      VStruct fs
        ((fix zeros (l : list Field) : list Val :=
            match l with
            | [] => []
            | mkField _ _ t :: r => zero t :: zeros r
            end) fs)
  | TInterface => VIfaceNil
  | TOther => VOther
  end.

Definition intBits (k : IntKind) : Z :=
  match k with Int => 64 | Int8 => 8 | Int16 => 16 | Int32 => 32 | Int64 => 64 end.

Definition uintBits (k : UintKind) : Z :=
  match k with Uint => 64 | Uint8 => 8 | Uint16 => 16 | Uint32 => 32 | Uint64 => 64 end.

(** [SetInt] and [SetUint] store the low bits that fit the kind. *)
Definition wrapInt (k : IntKind) (z : Z) : Z :=
  ((z + 2 ^ (intBits k - 1)) mod 2 ^ intBits k - 2 ^ (intBits k - 1))%Z.

Definition wrapUint (k : UintKind) (z : Z) : Z := (z mod 2 ^ uintBits k)%Z.

Definition SetInt (k : IntKind) (z : Z) : Val := VInt k (wrapInt k z).
Definition SetUint (k : UintKind) (z : Z) : Val := VUint k (wrapUint k z).
Definition SetFloat (k : FloatKind) (f : F64) : Val :=
  VFloat k (match k with Float32 => roundF32 f | Float64 => f end).

(** *** Field names *)

Definition isUpper (c : byte) : bool :=
  let n := nat_of_ascii c in (65 <=? n) && (n <=? 90).

(** [strings.ToLower] on an identifier of ASCII letters, digits and
    underscores. *)
Definition ToLower (s : bytes) : bytes := map lower s.

(** [field.IsExported()]: the identifier starts with an upper-case
    letter. *)
Definition IsExported (f : Field) : bool :=
  match Name f with
  | c :: _ => isUpper c
  | [] => false
  end.

(** The key of a field: its [god] tag, or else its lower-cased name. *)
Definition fieldName (f : Field) : bytes :=
  match Tag f with
  | [] => ToLower (Name f)
  | t => t
  end.

(** A Go [map[string]int] that is only written and looked up. *)
Definition FieldMap := bytes -> option nat.

Definition emptyFieldMap : FieldMap := fun _ => None.

Definition setField (m : FieldMap) (k : bytes) (i : nat) : FieldMap :=
  fun k' => if bytes_eqb k' k then Some i else m k'.

(** The loop that fills [fieldMap] in [decodeStruct] and [decodeTable]. *)
Fixpoint buildFieldMap (fs : list Field) (i : nat) (m : FieldMap) : FieldMap :=
  match fs with
  | [] => m
  | f :: r =>
      if negb (IsExported f) then buildFieldMap r (S i) m
      else buildFieldMap r (S i) (setField m (fieldName f) i)
  end.

Fixpoint setNth {A : Type} (i : nat) (x : A) (l : list A) {struct l} : list A :=
  match l, i with
  | [], _ => []
  | _ :: r, O => x :: r
  | y :: r, S i' => y :: setNth i' x r
  end.

Definition fieldType (fs : list Field) (i : nat) : Ty :=
  match nth_error fs i with
  | Some f => Type_ f
  | None => TOther
  end.

(** [SetMapIndex]: an existing key keeps its place. *)
Fixpoint setMapIndex (key : bytes) (v : Val) (keys : list bytes) (vals : list Val)
  : list bytes * list Val :=
  match keys, vals with
  | k :: ks, x :: xs =>
      if bytes_eqb k key then (k :: ks, v :: xs)
      else let (ks', xs') := setMapIndex key v ks xs in (k :: ks', x :: xs')
  | _, _ => ([key], [v])
  end.

(** ** The decoder *)

(** What a decoding function leaves behind: the updated destination and
    the parser, an error, or exhausted fuel. *)
Inductive outcome (A : Type) : Type :=
| Done (a : A)
| Fail (e : Error)
| OutOfFuel.
Arguments Done {A} a.
Arguments Fail {A} e.
Arguments OutOfFuel {A}.

Definition advance (p : parser) : parser := snd (next p).

(** The three bracket-counting loops of [skipValue], which differ only in
    the pair of bytes they count. *)
Fixpoint skipNested_loop (fuel : nat) (open close : byte) (p : parser) (depth : Z)
  : parser :=
  match fuel with
  | O => p
  | S f =>
      if eof p then p
      else if beq (peek p) open then
        skipNested_loop f open close (advance p) (depth + 1)
      else if beq (peek p) close then
        if (depth - 1 =? 0)%Z then advance p
        else skipNested_loop f open close (advance p) (depth - 1)
      else skipNested_loop f open close (advance p) depth
  end.

Definition skipValue (p : parser) : res unit * parser :=
  let p := skipSpaces p in
  let c := peek p in
  if beq c "{" then (Ok tt, skipNested_loop (remaining p) "{" "}" p 0)
  else if beq c "[" then (Ok tt, skipNested_loop (remaining p) "[" "]" p 0)
  else if beq c "(" then (Ok tt, skipNested_loop (remaining p) "(" ")" p 0)
  else if beq c DQ then (Ok tt, snd (parseStringValue p))
  else (Ok tt, snd (readBareToken p)).

Definition setFieldFromString (field : Val) (s : bytes) : res Val :=
  match s with
  | [] => Ok field
  | _ =>
      match field with
      | VString _ => Ok (VString s)
      | VInt k _ =>
          match ParseInt s with
          | Ok i => Ok (SetInt k i)
          | Err e => Err e
          end
      | VUint k _ =>
          match ParseUint s with
          | Ok u => Ok (SetUint k u)
          | Err e => Err e
          end
      | VFloat k _ =>
          match ParseFloat s with
          | Ok f => Ok (SetFloat k f)
          | Err e => Err e
          end
      | VBool _ =>
          match ParseBool s with
          | Ok b => Ok (VBool b)
          | Err e => Err e
          end
      | _ => Err ErrUnsupportedField
      end
  end.

(** *** Tables *)

(** The header loop: [inl] is the early return at a closing parenthesis,
    [inr] the header once the colon is consumed. *)
Fixpoint tableHeader_loop (fuel : nat) (p : parser) (headers : list bytes)
  : outcome ((parser + list bytes * parser)) :=
  match fuel with
  | O => OutOfFuel
  | S f =>
      let p := skipSpaces p in
      if beq (peek p) ":" then Done (inr (headers, advance p))
      else if beq (peek p) ")" then Done (inl (advance p))
      else
        let (token, p) := readUntilAny (bs ",:") p in
        let token := TrimSpace token in
        let headers := match token with [] => headers | _ => headers ++ [token] end in
        let p := skipSpaces p in
        let p := if beq (peek p) "," then advance p else p in
        tableHeader_loop f p headers
  end.

(** One cell of a row: the block that parses the cell text, and the block
    that stores it in the field its header names. *)
Definition readCell (p : parser) : res bytes * parser :=
  if beq (peek p) DQ then parseStringValue p
  else let (c, p') := readUntilAny (bs ",;)") p in (Ok (TrimSpace c), p').

Definition setCell (headers : list bytes) (fieldMap : FieldMap)
  (structVal : list Val) (cellIdx : nat) (cellStr : bytes) : res (list Val) :=
  match nth_error headers cellIdx with
  | Some headerName =>
      match fieldMap headerName with
      | Some fieldIdx =>
          match setFieldFromString (nth fieldIdx structVal VOther) cellStr with
          | Ok v => Ok (setNth fieldIdx v structVal)
          | Err e => Err e
          end
      | None => Ok structVal
      end
  | None => Ok structVal
  end.

(** The cells of one row. *)
Fixpoint tableCells_loop (fuel : nat) (p : parser) (headers : list bytes)
  (fieldMap : FieldMap) (structVal : list Val) (cellIdx : nat)
  : outcome (list Val * parser) :=
  match fuel with
  | O => OutOfFuel
  | S f =>
      let p := skipSpaces p in
      if beq (peek p) ";" then Done (structVal, advance p)
      else if beq (peek p) ")" then Done (structVal, p)
      else
        let '(cell, p) := readCell p in
        match cell with
        | Err e => Fail e
        | Ok cellStr =>
            match setCell headers fieldMap structVal cellIdx cellStr with
            | Err e => Fail e
            | Ok structVal =>
                let p := skipSpaces p in
                let p := if beq (peek p) "," then advance p else p in
                tableCells_loop f p headers fieldMap structVal (S cellIdx)
            end
        end
  end.

Definition zeroFields (fs : list Field) : list Val :=
  map (fun f => zero (Type_ f)) fs.

Fixpoint tableRows_loop (fuel : nat) (p : parser) (fs : list Field)
  (headers : list bytes) (fieldMap : FieldMap) (slice : list Val)
  : outcome (list Val * parser) :=
  match fuel with
  | O => OutOfFuel
  | S f =>
      let p := skipSpaces p in
      if beq (peek p) ")" then Done (slice, advance p)
      else
        match tableCells_loop f p headers fieldMap (zeroFields fs) 0 with
        | Done (structVal, p) =>
            tableRows_loop f p fs headers fieldMap (slice ++ [VStruct fs structVal])
        | Fail e => Fail e
        | OutOfFuel => OutOfFuel
        end
  end.

(** [decodeTable p target] for a slice [target] with elements of type
    [elem]. *)
Definition decodeTable (fuel : nat) (p : parser) (elem : Ty) (target : Val)
  : outcome (Val * parser) :=
  if negb (beq (peek p) "(") then Fail ErrTableOpen
  else
    let p := skipSpaces (advance p) in
    match elem with
    | TStruct fs =>
        match tableHeader_loop fuel p [] with
        | Done (inl p) => Done (target, p)
        | Done (inr (headers, p)) =>
            let fieldMap := buildFieldMap fs 0 emptyFieldMap in
            match tableRows_loop fuel p fs headers fieldMap [] with
            | Done (slice, p) => Done (VSlice elem slice, p)
            | Fail e => Fail e
            | OutOfFuel => OutOfFuel
            end
        | Fail e => Fail e
        | OutOfFuel => OutOfFuel
        end
    | _ => Fail ErrTableNotStruct
    end.

(** *** Values, structs, maps and lists

    [decodeValue] and the loops of [decodeStruct], [decodeMap] and
    [decodeSlice] call one another; each call and each turn of a loop
    takes one unit of fuel. *)

Definition elemOfSlice (target : Val) : Ty :=
  match target with
  | VSliceNil e => e
  | VSlice e _ => e
  | _ => TOther
  end.

Fixpoint decodeValue (fuel : nat) (p : parser) (target : Val) {struct fuel}
  : outcome (Val * parser) :=
  match fuel with
  | O => OutOfFuel
  | S f =>
      let p := skipSpaces p in
      match target with
      | VPtrNil elem =>
          match decodeValue f p (zero elem) with
          | Done (v, p) => Done (VPtrTo v, p)
          | Fail e => Fail e
          | OutOfFuel => OutOfFuel
          end
      | VPtrTo v =>
          match decodeValue f p v with
          | Done (v, p) => Done (VPtrTo v, p)
          | Fail e => Fail e
          | OutOfFuel => OutOfFuel
          end
      | VStruct fs vals => decodeStruct f p fs vals
      | VMapNil elem => decodeMap f p elem None
      | VMap elem keys vals => decodeMap f p elem (Some (keys, vals))
      | VSliceNil _ | VSlice _ _ => decodeSlice f p target
      | VString _ =>
          match parseStringValue p with
          | (Ok val, p) => Done (VString val, p)
          | (Err e, _) => Fail e
          end
      | VInt k _ =>
          match parseNumber p with
          | (Ok val, p) => Done (SetInt k (F64toInt64 val), p)
          | (Err e, _) => Fail e
          end
      | VUint k _ =>
          match parseNumber p with
          | (Ok val, p) => Done (SetUint k (F64toUint64 val), p)
          | (Err e, _) => Fail e
          end
      | VFloat k _ =>
          match parseNumber p with
          | (Ok val, p) => Done (SetFloat k val, p)
          | (Err e, _) => Fail e
          end
      | VBool _ =>
          match parseBool p with
          | (Ok val, p) => Done (VBool val, p)
          | (Err e, _) => Fail e
          end
      | VIfaceNil | VIface _ =>
          match parseGenericValue f p with
          | Done (None, p) => Done (VIfaceNil, p)
          | Done (Some val, p) => Done (VIface val, p)
          | Fail e => Fail e
          | OutOfFuel => OutOfFuel
          end
      | VArray _ _ | VOther => Fail ErrUnsupportedTarget
      end
  end

with decodeStruct (fuel : nat) (p : parser) (fs : list Field) (vals : list Val)
  {struct fuel} : outcome (Val * parser) :=
  match fuel with
  | O => OutOfFuel
  | S f =>
      if negb (beq (peek p) "{") then Fail ErrStructOpen
      else
        let p := skipSpaces (advance p) in
        let fieldMap := buildFieldMap fs 0 emptyFieldMap in
        match decodeStruct_loop f p fs fieldMap vals with
        | Done (vals, p) =>
            if negb (beq (peek p) "}") then Fail ErrStructClose
            else Done (VStruct fs vals, advance p)
        | Fail e => Fail e
        | OutOfFuel => OutOfFuel
        end
  end

with decodeStruct_loop (fuel : nat) (p : parser) (fs : list Field)
  (fieldMap : FieldMap) (vals : list Val) {struct fuel}
  : outcome (list Val * parser) :=
  match fuel with
  | O => OutOfFuel
  | S f =>
      if eof p || beq (peek p) "}" then Done (vals, p)
      else
        let (key, p) := readBareToken p in
        let p := skipSpaces p in
        if negb (beq (peek p) "=") then Fail ErrStructEq
        else
          let p := skipSpaces (advance p) in
          if beq (peek p) ";" || beq (peek p) "}" then
            let p := if beq (peek p) ";" then advance p else p in
            let p := skipSpaces p in
            match fieldMap key with
            | Some fieldIdx =>
                decodeStruct_loop f p fs fieldMap
                  (setNth fieldIdx (zero (fieldType fs fieldIdx)) vals)
            | None => decodeStruct_loop f p fs fieldMap vals
            end
          else
            let step : outcome (list Val * parser) :=
              match fieldMap key with
              | None =>
                  match skipValue p with
                  | (Err e, _) => Fail e
                  | (Ok _, p) => Done (vals, p)
                  end
              | Some fieldIdx =>
                  match decodeValue f p (nth fieldIdx vals VOther) with
                  | Done (v, p) => Done (setNth fieldIdx v vals, p)
                  | Fail e => Fail e
                  | OutOfFuel => OutOfFuel
                  end
              end in
            match step with
            | Done (vals, p) =>
                let p := skipSpaces p in
                let p := if beq (peek p) ";" then advance p else p in
                let p := skipSpaces p in
                decodeStruct_loop f p fs fieldMap vals
            | Fail e => Fail e
            | OutOfFuel => OutOfFuel
            end
  end

with decodeMap (fuel : nat) (p : parser) (elem : Ty)
  (target : option (list bytes * list Val)) {struct fuel}
  : outcome (Val * parser) :=
  match fuel with
  | O => OutOfFuel
  | S f =>
      if negb (beq (peek p) "{") then Fail ErrMapOpen
      else
        let p := skipSpaces (advance p) in
        let '(keys, vals) := match target with
                             | None => ([], [])
                             | Some kv => kv
                             end in
        match decodeMap_loop f p elem keys vals with
        | Done (keys, vals, p) =>
            if negb (beq (peek p) "}") then Fail ErrMapClose
            else Done (VMap elem keys vals, advance p)
        | Fail e => Fail e
        | OutOfFuel => OutOfFuel
        end
  end

with decodeMap_loop (fuel : nat) (p : parser) (elem : Ty)
  (keys : list bytes) (vals : list Val) {struct fuel}
  : outcome (list bytes * list Val * parser) :=
  match fuel with
  | O => OutOfFuel
  | S f =>
      if eof p || beq (peek p) "}" then Done (keys, vals, p)
      else
        let (keyStr, p) := readBareToken p in
        let p := skipSpaces p in
        match keyStr with
        | [] =>
            let p := if beq (peek p) ";" then skipSpaces (advance p) else p in
            decodeMap_loop f p elem keys vals
        | _ =>
            if negb (beq (peek p) "=") then Fail ErrMapEq
            else
              let p := skipSpaces (advance p) in
              if beq (peek p) ";" || beq (peek p) "}" then
                let p := if beq (peek p) ";" then advance p else p in
                let p := skipSpaces p in
                let (keys, vals) := setMapIndex keyStr (zero elem) keys vals in
                decodeMap_loop f p elem keys vals
              else
                match decodeValue f p (zero elem) with
                | Done (val, p) =>
                    let (keys, vals) := setMapIndex keyStr val keys vals in
                    let p := skipSpaces p in
                    let p := if beq (peek p) ";" then advance p else p in
                    let p := skipSpaces p in
                    decodeMap_loop f p elem keys vals
                | Fail e => Fail e
                | OutOfFuel => OutOfFuel
                end
        end
  end

with decodeSlice (fuel : nat) (p : parser) (target : Val) {struct fuel}
  : outcome (Val * parser) :=
  match fuel with
  | O => OutOfFuel
  | S f =>
      let p := skipSpaces p in
      if beq (peek p) "(" then decodeTable f p (elemOfSlice target) target
      else if negb (beq (peek p) "[") then Fail ErrListOpen
      else
        let p := skipSpaces (advance p) in
        match decodeSlice_loop f p (elemOfSlice target) [] with
        | Done (slice, p) =>
            if negb (beq (peek p) "]") then Fail ErrListClose
            else Done (VSlice (elemOfSlice target) slice, advance p)
        | Fail e => Fail e
        | OutOfFuel => OutOfFuel
        end
  end

with decodeSlice_loop (fuel : nat) (p : parser) (elemType : Ty) (slice : list Val)
  {struct fuel} : outcome (list Val * parser) :=
  match fuel with
  | O => OutOfFuel
  | S f =>
      if eof p || beq (peek p) "]" then Done (slice, p)
      else
        match decodeValue f p (zero elemType) with
        | Done (elem, p) =>
            let p := skipSpaces p in
            let p := if beq (peek p) "," then skipSpaces (advance p) else p in
            decodeSlice_loop f p elemType (slice ++ [elem])
        | Fail e => Fail e
        | OutOfFuel => OutOfFuel
        end
  end

with parseGenericValue (fuel : nat) (p : parser) {struct fuel}
  : outcome (option Val * parser) :=
  match fuel with
  | O => OutOfFuel
  | S f =>
      let p := skipSpaces p in
      let c := peek p in
      if beq c "{" then
        match decodeMap f p TInterface (Some ([], [])) with
        | Done (m, p) => Done (Some m, p)
        | Fail e => Fail e
        | OutOfFuel => OutOfFuel
        end
      else if beq c "[" then
        match decodeSlice f p (VSliceNil TInterface) with
        | Done (s, p) => Done (Some s, p)
        | Fail e => Fail e
        | OutOfFuel => OutOfFuel
        end
      else if beq c "(" then Fail ErrGenericTable
      else if beq c DQ then
        match parseStringValue p with
        | (Ok s, p) => Done (Some (VString s), p)
        | (Err e, _) => Fail e
        end
      else if beq c "t" || beq c "f" then
        match parseBool p with
        | (Ok b, p) => Done (Some (VBool b), p)
        | (Err e, _) => Fail e
        end
      else if (pos p + 1 <? length (src p))
              && beq (nth (pos p) (src p) NUL) BSL
              && beq (nth (pos p + 1) (src p) NUL) "0"
      then Done (None, setPos p (pos p + 2))
      else
        match parseNumber p with
        | (Ok n, p) => Done (Some (VFloat Float64 n), p)
        | (Err e, _) => Fail e
        end
  end.

Definition isSliceKind (v : Val) : bool :=
  match v with
  | VSliceNil _ | VSlice _ _ => true
  | _ => false
  end.

(** [Unmarshal(data, v)]: [v] is the value held by the interface
    argument; the result is what its pointee has become. *)
Definition Unmarshal (fuel : nat) (data : bytes) (v : Val) : outcome Val :=
  match v with
  | VPtrTo dest =>
      let p := skipSpaces (mkParser data 0) in
      let decode (p : parser) :=
        match decodeValue fuel p dest with
        | Done (d, _) => Done d
        | Fail e => Fail e
        | OutOfFuel => OutOfFuel
        end in
      if isSliceKind dest && beq (peek p) "{" then
        let savedPos := pos p in
        let p1 := skipSpaces (advance p) in
        if beq (peek p1) "(" then decode p1
        else decode (setPos p1 savedPos)
      else decode p
  | _ => Fail ErrTargetNotPointer
  end.

(** ** The encoder *)

(** *** [strconv.Quote] *)

Definition hexDigit (n : N) : byte :=
  nth (N.to_nat n) (bs "0123456789abcdef") "0".

Fixpoint hexDigits (width : nat) (n : N) : bytes :=
  match width with
  | O => []
  | S w => hexDigits w (n / 16)%N ++ [hexDigit (n mod 16)%N]
  end.

Definition byteN (c : byte) : N := N_of_ascii c.

Definition isCont (c : byte) : bool := ((128 <=? byteN c) && (byteN c <=? 191))%N.

Definition inRange (lo hi : N) (c : byte) : bool :=
  ((lo <=? byteN c) && (byteN c <=? hi))%N.

(** [utf8.DecodeRuneInString] on a string that starts with a byte above
    0x7F: the code point and its width, or [None] for an invalid or
    truncated encoding (the source's RuneError of width 1). *)
Definition decodeRune (s : bytes) : option (N * nat) :=
  match s with
  | b0 :: b1 :: r =>
      let n0 := byteN b0 in
      if inRange 194 223 b0 then
        if isCont b1 then Some (((n0 - 192) * 64 + (byteN b1 - 128))%N, 2) else None
      else if inRange 224 239 b0 then
        match r with
        | b2 :: _ =>
            let lo := if (n0 =? 224)%N then 160%N else 128%N in
            let hi := if (n0 =? 237)%N then 159%N else 191%N in
            if inRange lo hi b1 && isCont b2
            then Some ((((n0 - 224) * 64 + (byteN b1 - 128)) * 64 + (byteN b2 - 128))%N, 3)
            else None
        | [] => None
        end
      else if inRange 240 244 b0 then
        match r with
        | b2 :: b3 :: _ =>
            let lo := if (n0 =? 240)%N then 144%N else 128%N in
            let hi := if (n0 =? 244)%N then 143%N else 191%N in
            if inRange lo hi b1 && isCont b2 && isCont b3
            then Some (((((n0 - 240) * 64 + (byteN b1 - 128)) * 64
                         + (byteN b2 - 128)) * 64 + (byteN b3 - 128))%N, 4)
            else None
        | _ => None
        end
      else None
  | _ => None
  end.

Section Encoder.

(** Two functions of the Go library are taken as given: the verb [%v]
    ([fmt.Sprintf] with that verb and one operand), which the encoder
    applies to floats with a fractional part and to composite table
    cells, and [unicode.IsPrint] on code points above 0x7F. *)
Variable sprintV : Val -> bytes.
Variable IsPrint : N -> bool.

(** [appendEscapedRune] for an ASCII byte. *)
Definition quoteAscii (c : byte) : bytes :=
  if beq c DQ || beq c BSL then [BSL; c]
  else if inRange 32 126 c then [c]
  else if beq c "007" then bs "\a"
  else if beq c "008" then bs "\b"
  else if beq c FF then bs "\f"
  else if beq c LF then bs "\n"
  else if beq c CR then bs "\r"
  else if beq c TAB then bs "\t"
  else if beq c VT then bs "\v"
  else bs "\x" ++ hexDigits 2 (byteN c).

Fixpoint quote_loop (fuel : nat) (s : bytes) : bytes :=
  match fuel, s with
  | S f, c :: r =>
      if (byteN c <? 128)%N then quoteAscii c ++ quote_loop f r
      else
        match decodeRune s with
        | None => bs "\x" ++ hexDigits 2 (byteN c) ++ quote_loop f r
        | Some (rn, width) =>
            (if IsPrint rn then firstn width s
             else if (rn <? 65536)%N then bs "\u" ++ hexDigits 4 rn
             else bs "\U" ++ hexDigits 8 rn)
            ++ quote_loop f (skipn width s)
        end
  | _, _ => []
  end.

Definition Quote (s : bytes) : bytes :=
  [DQ] ++ quote_loop (length s) s ++ [DQ].

Definition containsNewline (s : bytes) : bool := existsb (beq LF) s.

Definition encodeString (b : bytes) (s : bytes) : bytes :=
  if containsNewline s then b ++ tripleQuote ++ s ++ tripleQuote
  else b ++ Quote s.

Definition indent (level : Z) : bytes :=
  if (level <=? 0)%Z then [] else concat (repeat (bs "  ") (Z.to_nat level)).

Definition isZeroValue (v : Val) : bool :=
  match v with
  | VArray _ l => length l =? 0
  | VMapNil _ => true
  | VMap _ keys _ => length keys =? 0
  | VSliceNil _ => true
  | VSlice _ l => length l =? 0
  | VString s => length s =? 0
  | VBool b => negb b
  | VInt _ n => (n =? 0)%Z
  | VUint _ n => (n =? 0)%Z
  | VFloat _ f => F64isZero f
  | VIfaceNil => true
  | VIface _ => false
  | VPtrNil _ => true
  | VPtrTo _ => false
  | VStruct _ _ => false
  | VOther => false
  end.

Definition isNilInterface (v : Val) : bool :=
  match v with VIfaceNil => true | _ => false end.

(** The float case shared by [encodeValue] and [encodeTableCell]. *)
Definition encodeFloat (k : FloatKind) (f : F64) : bytes :=
  if F64eqb (F64ofZ (F64toInt64 f)) f then formatInt (F64toInt64 f)
  else sprintV (VFloat Float64 f).

Fixpoint encodeTableCell (b : bytes) (v : Val) : bytes :=
  match v with
  | VString s =>
      match s with
      | [] => b ++ [DQ; DQ]
      | _ => b ++ Quote s
      end
  | VInt _ n => b ++ formatInt n
  | VUint _ n => b ++ formatInt n
  | VFloat k f => b ++ encodeFloat k f
  | VBool x => b ++ (if x then bs "true" else bs "false")
  | VIfaceNil | VPtrNil _ => b ++ [BSL; "0"]
  | VIface x | VPtrTo x => encodeTableCell b x
  | _ =>
      if isZeroValue v then b ++ [BSL; "0"]
      else b ++ Quote (sprintV v)
  end.

Definition isStructType (t : Ty) : bool :=
  match t with TStruct _ => true | _ => false end.

Definition structFields (t : Ty) : list Field :=
  match t with TStruct fs => fs | _ => [] end.

Definition structVals (v : Val) : list Val :=
  match v with VStruct _ vals => vals | _ => [] end.

(** The header of a table: the keys of the exported fields. *)
Definition tableHeaders (fs : list Field) : list bytes :=
  map fieldName (filter IsExported fs).

Fixpoint writeHeaders (b : bytes) (headers : list bytes) (i : nat) : bytes :=
  match headers with
  | [] => b
  | h :: r => writeHeaders ((if 0 <? i then b ++ [","] else b) ++ h) r (S i)
  end.

(** The cells of one row; [j] is the index of the field in the struct. *)
Fixpoint writeRow (b : bytes) (fs : list Field) (vals : list Val) (j : nat) : bytes :=
  match fs, vals with
  | f :: fr, x :: xr =>
      if negb (IsExported f) then writeRow b fr xr (S j)
      else writeRow (encodeTableCell (if 0 <? j then b ++ [","] else b) x) fr xr (S j)
  | _, _ => b
  end.

Fixpoint writeRows (b : bytes) (fs : list Field) (rows : list Val) : bytes :=
  match rows with
  | [] => b
  | structVal :: r => writeRows (writeRow b fs (structVals structVal) 0 ++ [";"]) fs r
  end.

Definition encodeStructSliceAsTable (b : bytes) (elemType : Ty) (l : list Val) : bytes :=
  match l with
  | [] => b ++ bs "()"
  | _ =>
      let fs := structFields elemType in
      let b := writeHeaders (b ++ ["("]) (tableHeaders fs) 0 ++ [":"] in
      writeRows b fs l ++ [")"]
  end.

Section Loops.

Variable encodeValue : bytes -> Val -> Z -> bool -> res bytes.

Fixpoint encodeStruct_loop (b : bytes) (fs : list Field) (vals : list Val)
  (level : Z) (compact : bool) (first : bool) {struct vals} : res bytes :=
  match fs, vals with
  | field :: fr, fieldValue :: xr =>
      if negb (IsExported field) then encodeStruct_loop b fr xr level compact first
      else
        let b := if negb first && compact then b ++ [";"] else b in
        let b := if negb compact then b ++ indent level else b in
        let b := b ++ fieldName field ++ ["="] in
        if isZeroValue fieldValue then
          encodeStruct_loop (if negb compact then b ++ [";"; LF] else b)
            fr xr level compact false
        else
          match encodeValue b fieldValue (level + 1)%Z compact with
          | Err e => Err e
          | Ok b =>
              encodeStruct_loop (if negb compact then b ++ [";"; LF] else b)
                fr xr level compact false
          end
  | _, _ => Ok b
  end.

Definition encodeStruct (b : bytes) (fs : list Field) (vals : list Val)
  (level : Z) (compact : bool) : res bytes :=
  let b := b ++ ["{"] in
  let b := if negb compact then b ++ [LF] else b in
  match encodeStruct_loop b fs vals level compact true with
  | Err e => Err e
  | Ok b =>
      let b := if negb compact then b ++ indent (level - 1) else b in
      Ok (b ++ ["}"])
  end.

Fixpoint encodeMap_loop (b : bytes) (keys : list bytes) (vals : list Val)
  (level : Z) (compact : bool) (first : bool) {struct vals} : res bytes :=
  match keys, vals with
  | key :: kr, val :: xr =>
      let b := if negb first && compact then b ++ [";"] else b in
      let b := if negb compact then b ++ indent level else b in
      let b := b ++ key ++ ["="] in
      if isZeroValue val || isNilInterface val then
        encodeMap_loop (if negb compact then b ++ [";"; LF] else b)
          kr xr level compact false
      else
        match encodeValue b val (level + 1)%Z compact with
        | Err e => Err e
        | Ok b =>
            encodeMap_loop (if negb compact then b ++ [";"; LF] else b)
              kr xr level compact false
        end
  | _, _ => Ok b
  end.

Definition encodeMap (b : bytes) (keys : list bytes) (vals : list Val)
  (level : Z) (compact : bool) : res bytes :=
  let b := b ++ ["{"] in
  let b := if negb compact then b ++ [LF] else b in
  match encodeMap_loop b keys vals level compact true with
  | Err e => Err e
  | Ok b =>
      let b := if negb compact then b ++ indent (level - 1) else b in
      Ok (b ++ ["}"])
  end.

Fixpoint encodeSlice_loop (b : bytes) (l : list Val) (i : nat)
  (level : Z) (compact : bool) {struct l} : res bytes :=
  match l with
  | [] => Ok b
  | x :: r =>
      match encodeValue (if 0 <? i then b ++ [","] else b) x level compact with
      | Err e => Err e
      | Ok b => encodeSlice_loop b r (S i) level compact
      end
  end.

Definition encodeSlice (b : bytes) (elemType : Ty) (l : list Val)
  (level : Z) (compact : bool) : res bytes :=
  match l with
  | [] => Ok (b ++ bs "[]")
  | _ =>
      if isStructType elemType then Ok (encodeStructSliceAsTable b elemType l)
      else
        match encodeSlice_loop (b ++ ["["]) l 0 level compact with
        | Err e => Err e
        | Ok b => Ok (b ++ ["]"])
        end
  end.

End Loops.

Fixpoint encodeValue (b : bytes) (v : Val) (level : Z) (compact : bool)
  {struct v} : res bytes :=
  let kind (v : Val) : res bytes :=
    match v with
    | VStruct fs vals => encodeStruct encodeValue b fs vals level compact
    | VMapNil _ => encodeMap encodeValue b [] [] level compact
    | VMap _ keys vals => encodeMap encodeValue b keys vals level compact
    | VSliceNil t => encodeSlice encodeValue b t [] level compact
    | VSlice t l => encodeSlice encodeValue b t l level compact
    | VArray t l => encodeSlice encodeValue b t l level compact
    | VString s => Ok (encodeString b s)
    | VInt _ n => Ok (b ++ formatInt n)
    | VUint _ n => Ok (b ++ formatInt n)
    | VFloat k f => Ok (b ++ encodeFloat k f)
    | VBool x => Ok (b ++ (if x then bs "true" else bs "false"))
    | VIfaceNil => Ok b
    | VIface x => encodeValue b x level compact
    | VPtrNil _ | VPtrTo _ | VOther => Err ErrUnsupportedType
    end in
  match v with
  | VPtrNil _ => Ok b
  | VPtrTo x => kind x
  | _ => kind v
  end.

Definition isMapOrStruct (v : Val) : bool :=
  match v with
  | VMapNil _ | VMap _ _ _ | VStruct _ _ => true
  | _ => false
  end.

(** [marshalWithCompact(v, compact)]: [v] is the value held by the
    interface argument. *)
Definition marshalWithCompact (v : Val) (compact : bool) : res bytes :=
  let b : bytes := [] in
  let rv := match v with VPtrTo x => x | _ => v end in
  if isMapOrStruct rv then encodeValue b rv 0 compact
  else
    let b := b ++ ["{"] in
    let b := if negb compact then b ++ [LF] ++ bs "  " else b in
    match encodeValue b rv 1 compact with
    | Err e => Err e
    | Ok b =>
        let b := if negb compact then b ++ [LF] else b in
        Ok (b ++ ["}"])
    end.

Definition Marshal (v : Val) : res bytes := marshalWithCompact v true.

Definition MarshalBeautify (v : Val) : res bytes := marshalWithCompact v false.

End Encoder.

(** ** Views used by the statements *)

(** The unread part of the input. *)
Definition rest (p : parser) : bytes := skipn (pos p) (src p).

(** The cursor lies inside the source or just after it. *)
Definition inBounds (p : parser) : Prop := pos p <= length (src p).

Fixpoint takeWhile {A : Type} (f : A -> bool) (l : list A) : list A :=
  match l with
  | x :: r => if f x then x :: takeWhile f r else []
  | [] => []
  end.

Fixpoint dropWhile {A : Type} (f : A -> bool) (l : list A) : list A :=
  match l with
  | x :: r => if f x then dropWhile f r else l
  | [] => []
  end.

Definition tokenBytes (r : bytes) : bytes :=
  takeWhile (fun c => negb (isDelim c)) (dropWhile isBlank r).

(** The scanner operations as data, to speak about any sequence of them. *)
Inductive ScanOp : Type :=
| OpPeek
| OpNext
| OpSkipSpaces
| OpReadBareToken
| OpReadUntilAny (seps : bytes)
| OpPeekAhead (n : nat).

Inductive ScanOut : Type :=
| OutByte (c : byte)
| OutNothing
| OutString (s : bytes).

Definition runOp (op : ScanOp) (p : parser) : ScanOut * parser :=
  match op with
  | OpPeek => (OutByte (peek p), p)
  | OpNext => let (c, p') := next p in (OutByte c, p')
  | OpSkipSpaces => (OutNothing, skipSpaces p)
  | OpReadBareToken => let (s, p') := readBareToken p in (OutString s, p')
  | OpReadUntilAny seps => let (s, p') := readUntilAny seps p in (OutString s, p')
  | OpPeekAhead n => (OutString (peekAhead n p), p)
  end.

Definition runOps (ops : list ScanOp) (p : parser) : parser :=
  fold_left (fun p op => snd (runOp op p)) ops p.

(** Bytes that the string loop copies unchanged: neither a backslash nor
    a double quote. *)
Definition plainByte (c : byte) : bool := negb (beq c BSL) && negb (beq c DQ).

(** The bytes after a backslash that [parseString] gives a meaning to. *)
Definition isEscapeLetter (c : byte) : bool :=
  beq c "n" || beq c "r" || beq c "t" || beq c BSL || beq c DQ.

(** ** Documents and types used in the examples *)

(** The document that holds the single raw string Hello World. *)
Definition helloDoc : bytes := bs "{" ++ [DQ] ++ bs "Hello World" ++ [DQ] ++ bs "}".

(** [type Person struct { Name string `god:"name"`; Age int `god:"age"`;
    Address string `god:"addr"` }] of the tests. *)
Definition Person : list Field :=
  [ mkField (bs "Name") (bs "name") TString;
    mkField (bs "Age") (bs "age") (TInt Int);
    mkField (bs "Address") (bs "addr") TString ].

Definition person (name : string) (age : Z) (addr : string) : Val :=
  VStruct Person [VString (bs name); VInt Int age; VString (bs addr)].

(** The values an integer kind can hold. *)
Definition fitsInt (k : IntKind) (z : Z) : Prop :=
  (- 2 ^ (intBits k - 1) <= z < 2 ^ (intBits k - 1))%Z.

Definition fitsUint (k : UintKind) (z : Z) : Prop :=
  (0 <= z < 2 ^ uintBits k)%Z.

(** The scanning half of [tableCells_loop]: the texts of the cells of one
    row, without storing them. *)
Fixpoint scanCells (fuel : nat) (p : parser) : outcome (list bytes * parser) :=
  match fuel with
  | O => OutOfFuel
  | S f =>
      let p := skipSpaces p in
      if beq (peek p) ";" then Done ([], advance p)
      else if beq (peek p) ")" then Done ([], p)
      else
        let '(cell, p) := readCell p in
        match cell with
        | Err e => Fail e
        | Ok cellStr =>
            let p := skipSpaces p in
            let p := if beq (peek p) "," then advance p else p in
            match scanCells f p with
            | Done (cells, p) => Done (cellStr :: cells, p)
            | Fail e => Fail e
            | OutOfFuel => OutOfFuel
            end
        end
  end.

(** The storing half: [setCell] over the cells of a row, in order. *)
Fixpoint applyCells (headers : list bytes) (fieldMap : FieldMap)
  (structVal : list Val) (cellIdx : nat) (cells : list bytes) : res (list Val) :=
  match cells with
  | [] => Ok structVal
  | cellStr :: r =>
      match setCell headers fieldMap structVal cellIdx cellStr with
      | Ok structVal => applyCells headers fieldMap structVal (S cellIdx) r
      | Err e => Err e
      end
  end.

(** The document of the table with a missing cell, and the one with a
    cell too many. *)
Definition johnDoc : bytes :=
  bs "{(name,age,addr:" ++ [DQ] ++ bs "John" ++ [DQ] ++ bs ",12,;)}".

Definition johnExtraDoc : bytes :=
  bs "{(name,age:" ++ [DQ] ++ bs "John" ++ [DQ] ++ bs ",12,ignored,99;)}".

(** *** Counting brackets *)

Definition countByte (c : byte) (s : bytes) : Z :=
  Z.of_nat (length (filter (beq c) s)).

(** Openers minus closers. *)
Definition net (o c : byte) (s : bytes) : Z := (countByte o s - countByte c s)%Z.

(** [k] bytes of [l] form one balanced bracketed value: the shortest
    non-empty prefix in which the openers and closers cancel, or all of
    [l] when they never do. *)
Definition balancedPrefix (o c : byte) (l : bytes) (k : nat) : Prop :=
  0 < k <= length l
  /\ (forall n, 0 < n < k -> (0 < net o c (firstn n l))%Z)
  /\ (net o c (firstn k l) = 0%Z \/ (k = length l /\ (0 < net o c l)%Z)).

(** The bracket loop of [skipValue] on the unread input. *)
Fixpoint nestedLen (o c : byte) (l : bytes) (depth : Z) : nat :=
  match l with
  | [] => 0
  | x :: r =>
      if beq x o then S (nestedLen o c r (depth + 1))
      else if beq x c then
        if (depth - 1 =? 0)%Z then 1 else S (nestedLen o c r (depth - 1))
      else S (nestedLen o c r depth)
  end.

(** What [decodeStruct] does after a value: blanks, an optional
    semicolon, blanks. *)
Definition afterValue (p : parser) : parser :=
  let p := skipSpaces p in
  let p := if beq (peek p) ";" then advance p else p in
  skipSpaces p.

(** A document with a key that [Person] does not have, and the field map
    of [Person]. *)
Definition unknownKeyDoc : bytes :=
  bs "{x={a=[1,2]};name=" ++ [DQ] ++ bs "J" ++ [DQ] ++ bs "}".

Definition personFieldMap : FieldMap := buildFieldMap Person 0 emptyFieldMap.

(** ** Views of the encoder used by the statements *)

(** Text with the blanks (space, line feed, carriage return, tab)
    deleted. *)
Definition stripBlanks (s : bytes) : bytes := filter (fun c => negb (isBlank c)) s.

(** The text a call appends to the builder it was given. *)
Definition prepend (b : bytes) (r : res bytes) : res bytes :=
  match r with
  | Ok x => Ok (b ++ x)
  | Err e => Err e
  end.

Definition textOf (r : res bytes) : bytes :=
  match r with
  | Ok x => x
  | Err _ => []
  end.

(** ** Keys and tokens that survive scanning *)

(** A byte of a token: ASCII, not white space, not a delimiter. *)
Definition tokenByte (c : byte) : bool :=
  negb (isDelim c) && negb (isAsciiSpace c) && (byteN c <? 128)%N.

(** A key the scanner reads back as written: not empty, made of token
    bytes.  Go identifiers in ASCII and the usual tags are of this form. *)
Definition goodKey (k : bytes) : bool :=
  match k with
  | [] => false
  | _ => forallb tokenByte k
  end.

(** The field types whose zero value [isZeroValue] recognises. *)
Definition groundsToEmpty (t : Ty) : bool :=
  match t with
  | TStruct _ | TOther => false
  | TArray n _ => n =? 0
  | _ => true
  end.

Definition noneExported (fs : list Field) : bool :=
  forallb (fun f => negb (IsExported f)) fs.

(** A record with one field, itself a record with one [int] field. *)
Definition innerField : Field := mkField (bs "A") [] (TInt Int).
Definition outerField : Field := mkField (bs "Inner") [] (TStruct [innerField]).

(** ** Decimal digits *)

Definition decStep (a : N) (c : byte) : N := (a * 10 + digitVal c)%N.

(** The number a string of decimal digits denotes. *)
Definition decval (ds : bytes) : N := fold_left decStep ds 0%N.

(** ** Values that survive a round trip *)

(** Bytes that [strconv.Quote] writes in a form [parseString] reads back:
    printable ASCII, tab and carriage return. *)
Definition safeByte (c : byte) : bool := inRange 32 126 c || beq c TAB || beq c CR.

Section FieldLoops.

Variable view : Val -> Val.
Variable weigh : Val -> nat.
Variable ok : Val -> Prop.

(** The fields of a record with each exported field seen through [view]
    and each unexported field at its zero value. *)
Fixpoint viewFields (fs : list Field) (vals : list Val) {struct vals} : list Val :=
  match fs, vals with
  | f :: fr, x :: xr =>
      (if IsExported f then view x else zero (Type_ f)) :: viewFields fr xr
  | _, _ => []
  end.

Fixpoint sumWeights (vals : list Val) : nat :=
  match vals with
  | [] => 0
  | x :: r => S (weigh x) + sumWeights r
  end.

(** Every exported field holds a value of the declared type that
    satisfies [ok]. *)
Fixpoint fieldsOK (fs : list Field) (vals : list Val) {struct vals} : Prop :=
  match fs, vals with
  | f :: fr, x :: xr =>
      (IsExported f = true -> typeOf x = Type_ f /\ ok x) /\ fieldsOK fr xr
  | [], [] => True
  | _, _ => False
  end.

End FieldLoops.

(** What decoding can restore of a value: the unexported fields of a
    record are never written, so they come back at zero. *)
Fixpoint exportedView (v : Val) : Val :=
  match v with
  | VStruct fs vals => VStruct fs (viewFields exportedView fs vals)
  | _ => v
  end.

(** Fuel that suffices to decode the text of a value. *)
Fixpoint weight (v : Val) : nat :=
  match v with
  | VStruct _ vals => 3 + sumWeights weight vals
  | _ => 1
  end.

(** The keys of the exported fields are distinct and scan as tokens. *)
Definition keysOK (fs : list Field) : Prop :=
  NoDup (map fieldName (filter IsExported fs))
  /\ forallb goodKey (map fieldName (filter IsExported fs)) = true.

(** The records for which the round trip is proved: the exported fields
    are strings of safe bytes, booleans, signed or unsigned integers of
    magnitude below 2^53, or records of the same kind, under keys that
    are distinct tokens. *)
Fixpoint roundTrips (v : Val) : Prop :=
  match v with
  | VBool _ => True
  | VInt k n => fitsInt k n /\ (Z.abs n < 2 ^ 53)%Z
  | VUint k n => fitsUint k n /\ (n < 2 ^ 53)%Z
  | VString s => forallb safeByte s = true
  | VStruct fs vals => keysOK fs /\ fieldsOK roundTrips fs vals
  | _ => False
  end.

(** What may follow the text of a value inside a record: anything after
    a record, which ends at its own brace, and a delimiter after a
    scalar. *)
Definition tailOK (x : Val) (Y : bytes) : Prop :=
  match x with
  | VStruct _ _ => True
  | _ => exists d Y', Y = d :: Y' /\ (d = ";" \/ d = "}")
  end.

(** The text written for [x] decodes, into the zero value of the type
    of [x], to what [exportedView] keeps of [x], and the cursor ends
    just after the text. *)
Definition readsBack (sprintV : Val -> bytes) (IsPrint : N -> bool) (x : Val) : Prop :=
  forall fuel p level vt Y,
    roundTrips x -> isZeroValue x = false ->
    encodeValue sprintV IsPrint [] x level true = Ok vt ->
    rest p = vt ++ Y ->
    tailOK x Y ->
    weight x <= fuel ->
    decodeValue fuel p (zero (typeOf x))
    = Done (exportedView x, setPos p (pos p + length vt)).

(** Every field is exported, at every depth. *)
Fixpoint allExported (v : Val) : bool :=
  match v with
  | VStruct fs vals => forallb IsExported fs && forallb allExported vals
  | _ => true
  end.

(** Sample records: a counter above 2^53, an account with an unexported
    field, a note holding the bell character, and a record with a nested
    record, a tagged field and an unexported field. *)
Definition counterRecord : list Field := [mkField (bs "N") [] (TInt Int64)].

Definition bigCounter : Val := VStruct counterRecord [VInt Int64 9007199254740993].

Definition account : list Field :=
  [mkField (bs "Owner") [] TString; mkField (bs "pin") [] (TInt Int)].

Definition noteRecord : list Field := [mkField (bs "Text") [] TString].

Definition bellNote : Val := VStruct noteRecord [VString ["007"]].

Definition nestedFields : list Field :=
  [ mkField (bs "Id") [] (TUint Uint8);
    outerField;
    mkField (bs "On") (bs "on") TBool;
    mkField (bs "note") [] TString ].

Definition nestedVals : list Val :=
  [VUint Uint8 200; VStruct [innerField] [VInt Int (-5)]; VBool true; VString (bs "x")].

(** The values the encoder writes between square brackets: a slice or
    an array that is empty or whose elements are not records. *)
Definition writtenAsList (v : Val) : bool :=
  match v with
  | VSliceNil _ => true
  | VSlice t l | VArray t l => negb (isStructType t) || (length l =? 0)
  | _ => false
  end.

(** A delimiter that is neither a blank nor one of the two bytes given. *)
Definition strayDelim (x y c : byte) : bool :=
  isDelim c && negb (isBlank c) && negb (beq c x) && negb (beq c y).

(** Text in which the header of a table cannot end: it holds neither a
    colon nor a closing parenthesis. *)
Definition noHeaderEnd (s : bytes) : bool :=
  forallb (fun c => negb (beq c ":" || beq c ")")) s.

Definition isAscii (c : byte) : bool := (byteN c <? 128)%N.

(** What [parseString] makes of the text [strconv.Quote] writes for one
    ASCII byte.  That text is the byte itself, or a backslash and more;
    after the backslash the next byte is unescaped and the rest is
    copied. *)
Definition readsAs (c : byte) : bytes :=
  match quoteAscii c with
  | _ :: e :: tl => unescape e :: tl
  | l => l
  end.

(** A document in which the value of an unknown key holds a closing
    brace inside a quoted string. *)
Definition braceInStringDoc : bytes :=
  bs "{x={a=" ++ [DQ] ++ bs "}" ++ [DQ] ++ bs "};name=" ++ [DQ] ++ bs "J" ++ [DQ] ++ bs "}".

(** *** Text up to layout

    The indented mode adds blanks, and it ends every entry of an object
    with a semicolon, also the last one, where the compact mode writes a
    semicolon only between entries.  [layoutNormal] deletes the blanks
    and then every semicolon that stands directly before a closing brace
    (a run of semicolons before the brace goes as a whole); it keeps
    every other byte, the semicolons between entries included. *)
Definition closeStep (c : byte) (after : bytes) : bytes :=
  if beq c ";" && beq (hd NUL after) "}" then after else c :: after.

(** The normal form of [s] when the normal form [after] follows. *)
Definition normOnto (after : bytes) (s : bytes) : bytes :=
  fold_right closeStep after (stripBlanks s).

Definition layoutNormal (s : bytes) : bytes := normOnto [] s.

(** Two results of the encoder that are the same error, or texts with the
    same normal form. *)
Definition sameUpToLayout (x y : res bytes) : Prop :=
  match x, y with
  | Ok a, Ok b => layoutNormal a = layoutNormal b
  | Err e, Err e' => e = e'
  | _, _ => False
  end.

(** Two texts that have the same normal form whatever follows. *)
Definition layoutEq (a b : bytes) : Prop :=
  forall after, normOnto after a = normOnto after b.

Definition layoutEqR (x y : res bytes) : Prop :=
  match x, y with
  | Ok a, Ok b => layoutEq a b
  | Err e, Err e' => e = e'
  | _, _ => False
  end.
(** The state of the two builders inside the loop over the entries of an
    object: before the first entry they agree; after an entry the
    indented text holds the semicolon that the compact text is yet to
    write. *)
Definition entriesInv (first : bool) (b b' : bytes) : Prop :=
  if first then layoutEq b b' else layoutEq (b ++ [";"]) b'.

(** The two builders agree once the object is closed. *)
Definition closeEq (x y : res bytes) : Prop :=
  match x, y with
  | Ok a, Ok b => layoutEq (a ++ ["}"]) (b ++ ["}"])
  | Err e, Err e' => e = e'
  | _, _ => False
  end.

(** The fields of a destination record after the key [key] was given an
    empty right-hand side: the field the key resolves to is at zero. *)
Definition grounded (fs : list Field) (key : bytes) (vals : list Val) : list Val :=
  match buildFieldMap fs 0 emptyFieldMap key with
  | Some i => setNth i (zero (fieldType fs i)) vals
  | None => vals
  end.

(** *** The rows of a table, in the words of the format

    A row is the zero record of the element type in which each header is
    paired with the cell at its position: an empty cell and a header that
    resolves to no field change nothing; any other cell is parsed into the
    field its header resolves to.  Pairing by position leaves out the
    cells past the last header and the headers past the last cell. *)
Fixpoint groundRow (fieldMap : FieldMap) (hcs : list (bytes * bytes))
  (row : list Val) : res (list Val) :=
  match hcs with
  | [] => Ok row
  | (h, c) :: r =>
      match c, fieldMap h with
      | [], _ => groundRow fieldMap r row
      | _, None => groundRow fieldMap r row
      | _, Some j =>
          match setFieldFromString (nth j row VOther) c with
          | Ok v => groundRow fieldMap r (setNth j v row)
          | Err e => Err e
          end
      end
  end.

(** A cell written without quotes: token bytes other than the double
    quote (possibly none). *)
Definition bareCell (c : bytes) : bool :=
  forallb (fun x => tokenByte x && negb (beq x DQ)) c.

(** The text of a row of bare cells, each followed by a comma, and the
    closing semicolon. *)
Fixpoint rowText (cells : list bytes) : bytes :=
  match cells with
  | [] => [";"]
  | c :: r => c ++ "," :: rowText r
  end.

(** A table with an empty cell in the middle of its row. *)
Definition johnGapDoc : bytes :=
  bs "{(name,age,addr:" ++ [DQ] ++ bs "John" ++ [DQ] ++ bs ",," ++ [DQ] ++ bs "NY"
  ++ [DQ] ++ bs ";)}".

(** The index of the first occurrence of three double quotes in a row. *)
Fixpoint findTriple (s : bytes) : option nat :=
  match s with
  | [] => None
  | _ :: r =>
      if bytes_eqb (firstn 3 s) tripleQuote then Some 0
      else option_map S (findTriple r)
  end.

(** * Properties *)

(** ** The scanner seen through the unread input *)

Lemma takeWhile_dropWhile {A : Type} (f : A -> bool) (l : list A) :
  takeWhile f l ++ dropWhile f l = l.
Proof.
  induction l as [|x r IH]; simpl; [reflexivity|].
  destruct (f x); simpl; [now rewrite IH | reflexivity].
Qed.

Lemma dropWhile_head {A : Type} (f : A -> bool) (l : list A) (d : A) :
  dropWhile f l = [] \/ f (hd d (dropWhile f l)) = false.
Proof.
  induction l as [|x r IH]; simpl; [now left|].
  destruct (f x) eqn:E; [exact IH | right; exact E].
Qed.

Lemma setPos_self (p : parser) : setPos p (pos p) = p.
Proof. destruct p; reflexivity. Qed.

Lemma setPos_setPos (p : parser) (a b : nat) : setPos (setPos p a) b = setPos p b.
Proof. reflexivity. Qed.

Lemma pos_setPos (p : parser) (a : nat) : pos (setPos p a) = a.
Proof. reflexivity. Qed.

Lemma src_setPos (p : parser) (a : nat) : src (setPos p a) = src p.
Proof. reflexivity. Qed.

Lemma rest_setPos (p : parser) (k : nat) :
  rest (setPos p (pos p + k)) = skipn k (rest p).
Proof.
  unfold rest; simpl. rewrite skipn_skipn. f_equal; lia.
Qed.

Lemma remaining_rest (p : parser) : remaining p = length (rest p).
Proof. unfold remaining, rest. now rewrite length_skipn. Qed.

Lemma rest_nil_eof (p : parser) : rest p = [] -> eof p = true.
Proof.
  intros H. unfold eof. apply Nat.leb_le.
  pose proof (remaining_rest p) as R. rewrite H in R. unfold remaining in R.
  simpl in R. lia.
Qed.

Lemma rest_cons_inv (p : parser) (c : byte) (r : bytes) :
  rest p = c :: r ->
  eof p = false /\ peek p = c /\ rest (setPos p (S (pos p))) = r
  /\ pos p < length (src p).
Proof.
  intros H.
  assert (L : pos p < length (src p)).
  { pose proof (remaining_rest p) as R. rewrite H in R. unfold remaining in R.
    simpl in R. lia. }
  assert (E : eof p = false) by (unfold eof; apply Nat.leb_gt; exact L).
  repeat split; try assumption.
  - unfold peek. rewrite E. unfold rest in H.
    rewrite <- (firstn_skipn (pos p) (src p)) at 1.
    rewrite app_nth2; rewrite length_firstn, Nat.min_l by lia; [|lia].
    rewrite Nat.sub_diag, H. reflexivity.
  - unfold rest in *. cbn [setPos pos src].
    replace (S (pos p)) with (1 + pos p) by lia.
    rewrite <- skipn_skipn, H. reflexivity.
Qed.

Lemma eof_true_rest (p : parser) : eof p = true -> rest p = [].
Proof.
  intros E. destruct (rest p) as [|c r] eqn:R; [reflexivity|].
  apply rest_cons_inv in R. destruct R as [E' _]. congruence.
Qed.

Lemma eof_rest (p : parser) :
  eof p = match rest p with [] => true | _ => false end.
Proof.
  destruct (rest p) as [|c r] eqn:R.
  - now apply rest_nil_eof.
  - now apply rest_cons_inv in R.
Qed.

Lemma peek_rest (p : parser) : peek p = hd NUL (rest p).
Proof.
  destruct (rest p) as [|c r] eqn:R; simpl.
  - unfold peek. now rewrite (rest_nil_eof p R).
  - now apply rest_cons_inv in R.
Qed.

Lemma next_rest (p : parser) :
  next p = match rest p with
           | [] => (NUL, p)
           | c :: _ => (c, setPos p (pos p + 1))
           end.
Proof.
  destruct (rest p) as [|c r] eqn:R.
  - unfold next. now rewrite (rest_nil_eof p R).
  - apply rest_cons_inv in R. destruct R as (E & P & _ & _).
    unfold next. rewrite E. unfold peek in P. rewrite E in P. rewrite P.
    now rewrite Nat.add_1_r.
Qed.

Lemma advance_rest (p : parser) :
  advance p = match rest p with
              | [] => p
              | _ :: _ => setPos p (pos p + 1)
              end.
Proof. unfold advance. rewrite next_rest. now destruct (rest p). Qed.

Lemma skipSpaces_loop_rest (fuel : nat) :
  forall p, length (rest p) <= fuel ->
    skipSpaces_loop fuel p = setPos p (pos p + length (takeWhile isBlank (rest p))).
Proof.
  induction fuel as [|f IH]; intros p H.
  - destruct (rest p); simpl in *; [|lia].
    now rewrite Nat.add_0_r, setPos_self.
  - simpl. rewrite peek_rest, eof_rest.
    destruct (rest p) as [|c r] eqn:R; simpl.
    + now rewrite Nat.add_0_r, setPos_self.
    + destruct (isBlank c) eqn:B; simpl.
      * pose proof (rest_cons_inv p c r R) as (_ & _ & R' & _).
        rewrite IH by (rewrite R'; simpl in H; lia).
        rewrite R'. simpl. rewrite setPos_setPos. f_equal. lia.
      * now rewrite Nat.add_0_r, setPos_self.
Qed.

Lemma skipSpaces_rest (p : parser) :
  skipSpaces p = setPos p (pos p + length (takeWhile isBlank (rest p))).
Proof.
  unfold skipSpaces. apply skipSpaces_loop_rest. now rewrite remaining_rest.
Qed.

Lemma skipn_length_takeWhile {A : Type} (f : A -> bool) (l : list A) :
  skipn (length (takeWhile f l)) l = dropWhile f l.
Proof.
  induction l as [|x r IH]; simpl; [reflexivity|].
  destruct (f x); simpl; [exact IH | reflexivity].
Qed.

Lemma rest_skipSpaces (p : parser) :
  rest (skipSpaces p) = dropWhile isBlank (rest p).
Proof.
  rewrite skipSpaces_rest, rest_setPos. apply skipn_length_takeWhile.
Qed.

Lemma readBareToken_loop_rest (fuel : nat) :
  forall p buf, length (rest p) <= fuel ->
    readBareToken_loop fuel p buf
    = (buf ++ takeWhile (fun c => negb (isDelim c)) (rest p),
       setPos p (pos p + length (takeWhile (fun c => negb (isDelim c)) (rest p)))).
Proof.
  induction fuel as [|f IH]; intros p buf H.
  - destruct (rest p); simpl in *; [|lia].
    now rewrite app_nil_r, Nat.add_0_r, setPos_self.
  - simpl. rewrite peek_rest, eof_rest, next_rest.
    destruct (rest p) as [|c r] eqn:R; simpl.
    + now rewrite app_nil_r, Nat.add_0_r, setPos_self.
    + destruct (isDelim c) eqn:B; simpl.
      * now rewrite app_nil_r, Nat.add_0_r, setPos_self.
      * pose proof (rest_cons_inv p c r R) as (_ & _ & R' & _).
        rewrite Nat.add_1_r.
        rewrite IH by (rewrite R'; simpl in H; lia).
        rewrite R'. simpl. rewrite setPos_setPos, <- app_assoc. simpl.
        do 2 f_equal. lia.
Qed.

Lemma readBareToken_rest (p : parser) :
  readBareToken p
  = (TrimSpace (tokenBytes (rest p)),
     setPos p (pos p + (length (takeWhile isBlank (rest p))
                        + length (tokenBytes (rest p))))).
Proof.
  unfold readBareToken.
  rewrite readBareToken_loop_rest by (now rewrite remaining_rest).
  rewrite rest_skipSpaces. simpl. unfold tokenBytes.
  rewrite skipSpaces_rest. simpl. rewrite setPos_setPos.
  now rewrite Nat.add_assoc.
Qed.

Lemma readUntilAny_loop_rest (fuel : nat) (seps : bytes) :
  forall p, length (rest p) <= fuel ->
    readUntilAny_loop fuel seps p
    = setPos p (pos p + length (takeWhile (fun c => negb (containsByte seps c)) (rest p))).
Proof.
  induction fuel as [|f IH]; intros p H.
  - destruct (rest p); simpl in *; [|lia].
    now rewrite Nat.add_0_r, setPos_self.
  - simpl. rewrite peek_rest, eof_rest.
    destruct (rest p) as [|c r] eqn:R; simpl.
    + now rewrite Nat.add_0_r, setPos_self.
    + destruct (containsByte seps c) eqn:B; simpl.
      * now rewrite Nat.add_0_r, setPos_self.
      * pose proof (rest_cons_inv p c r R) as (_ & _ & R' & _).
        rewrite IH by (rewrite R'; simpl in H; lia).
        rewrite R'. simpl. rewrite setPos_setPos. f_equal. lia.
Qed.

Lemma firstn_length_takeWhile {A : Type} (f : A -> bool) (l : list A) :
  firstn (length (takeWhile f l)) l = takeWhile f l.
Proof.
  induction l as [|x r IH]; simpl; [reflexivity|].
  destruct (f x); simpl; [now rewrite IH | reflexivity].
Qed.

Lemma slice_rest (p : parser) (k : nat) :
  slice (src p) (pos p) (pos p + k) = firstn k (rest p).
Proof. unfold slice, rest. f_equal. lia. Qed.

Lemma readUntilAny_rest (seps : bytes) (p : parser) :
  readUntilAny seps p
  = (takeWhile (fun c => negb (containsByte seps c)) (rest p),
     setPos p (pos p + length (takeWhile (fun c => negb (containsByte seps c)) (rest p)))).
Proof.
  unfold readUntilAny.
  rewrite readUntilAny_loop_rest by (now rewrite remaining_rest).
  simpl. now rewrite slice_rest, firstn_length_takeWhile.
Qed.

Lemma peekAhead_rest (n : nat) (p : parser) :
  peekAhead n p = firstn n (rest p).
Proof.
  unfold peekAhead. destruct (length (src p) <? pos p + n) eqn:E.
  - apply Nat.ltb_lt in E. fold (rest p). symmetry. apply firstn_all2.
    rewrite <- remaining_rest. unfold remaining. lia.
  - apply slice_rest.
Qed.

(** ** The cursor under the scanner operations *)

Lemma length_takeWhile_le {A : Type} (f : A -> bool) (l : list A) :
  length (takeWhile f l) <= length l.
Proof.
  induction l as [|x r IH]; simpl; [lia|].
  destruct (f x); simpl; lia.
Qed.

Lemma setPos_inBounds (p : parser) (k : nat) :
  inBounds p -> k <= length (rest p) -> inBounds (setPos p (pos p + k)).
Proof.
  unfold inBounds. rewrite <- remaining_rest. unfold remaining. simpl. lia.
Qed.

Lemma runOp_shape (op : ScanOp) (p : parser) :
  exists k, k <= length (rest p) /\ snd (runOp op p) = setPos p (pos p + k).
Proof.
  destruct op; cbn [runOp snd].
  - exists 0. split; [lia|]. now rewrite Nat.add_0_r, setPos_self.
  - rewrite next_rest. destruct (rest p); simpl.
    + exists 0. split; [lia|]. now rewrite Nat.add_0_r, setPos_self.
    + exists 1. split; [lia|reflexivity].
  - rewrite skipSpaces_rest. eexists. split; [|reflexivity].
    apply length_takeWhile_le.
  - rewrite readBareToken_rest. cbn [snd]. eexists. split; [|reflexivity].
    unfold tokenBytes.
    pose proof (f_equal (@length ascii) (takeWhile_dropWhile isBlank (rest p))) as L.
    rewrite length_app in L.
    pose proof (length_takeWhile_le (fun c => negb (isDelim c))
                  (dropWhile isBlank (rest p))). lia.
  - rewrite readUntilAny_rest. cbn [snd]. eexists. split; [|reflexivity].
    apply length_takeWhile_le.
  - exists 0. split; [lia|]. now rewrite Nat.add_0_r, setPos_self.
Qed.

Lemma runOp_step (op : ScanOp) (p : parser) :
  inBounds p ->
  src (snd (runOp op p)) = src p /\ pos p <= pos (snd (runOp op p))
  /\ inBounds (snd (runOp op p)).
Proof.
  intros B. destruct (runOp_shape op p) as (k & Hk & ->).
  repeat split; simpl; [lia|]. now apply setPos_inBounds.
Qed.

Lemma runOps_steps (ops : list ScanOp) :
  forall p, inBounds p ->
    src (runOps ops p) = src p /\ pos p <= pos (runOps ops p)
    /\ inBounds (runOps ops p).
Proof.
  induction ops as [|op r IH]; intros p B; simpl.
  - repeat split; [lia | exact B].
  - destruct (runOp_step op p B) as (S1 & M1 & B1).
    destruct (IH _ B1) as (S2 & M2 & B2).
    unfold runOps in *. simpl.
    repeat split; [congruence | lia | exact B2].
Qed.

Lemma TrimSpace_nil : TrimSpace [] = [].
Proof. reflexivity. Qed.

Lemma scanner_at_eof (q : parser) :
  eof q = true ->
  peek q = NUL /\ next q = (NUL, q) /\ skipSpaces q = q
  /\ readBareToken q = ([], q)
  /\ (forall seps, readUntilAny seps q = ([], q))
  /\ (forall n, peekAhead n q = []).
Proof.
  intros E. pose proof (eof_true_rest q E) as R.
  repeat split; intros.
  - now rewrite peek_rest, R.
  - now rewrite next_rest, R.
  - rewrite skipSpaces_rest, R. simpl. now rewrite Nat.add_0_r, setPos_self.
  - rewrite readBareToken_rest, R. unfold tokenBytes. simpl.
    now rewrite Nat.add_0_r, setPos_self.
  - rewrite readUntilAny_rest, R. simpl. now rewrite Nat.add_0_r, setPos_self.
  - rewrite peekAhead_rest, R. now destruct n.
Qed.

Lemma stops_at (f : byte -> bool) (q : parser) (l : list ascii) :
  rest q = dropWhile f l -> eof q = true \/ f (peek q) = false.
Proof.
  intros H. rewrite eof_rest, peek_rest, H.
  destruct (dropWhile_head f l NUL) as [-> | D]; [now left|].
  now right.
Qed.

(** C8.  Over any input and any sequence of [peek], [next], [skipSpaces],
    [readBareToken], [readUntilAny] and [peekAhead], the cursor never moves
    back and never passes the end of the source, which is not modified.
    At the end of input [peek] and [next] return the byte 0, the reading
    operations return the empty string and nothing moves; [peekAhead]
    returns the bytes that are left when fewer than [n] remain.  The three
    scanning loops always run to the exit test of the source: end of input,
    or a byte that is not blank, is a delimiter, or is a separator. *)
Theorem scanner_cursor_monotone_bounded_total :
  forall (data : bytes) (before after : list ScanOp),
    let p := runOps before (mkParser data 0) in
    let q := runOps after p in
    src q = data /\ pos p <= pos q /\ pos q <= length data
    /\ (eof q = true ->
        peek q = NUL /\ next q = (NUL, q) /\ skipSpaces q = q
        /\ readBareToken q = ([], q)
        /\ (forall seps, readUntilAny seps q = ([], q))
        /\ (forall n, peekAhead n q = []))
    /\ (forall n, peekAhead n q = firstn n (rest q))
    /\ (eof (skipSpaces q) = true \/ isBlank (peek (skipSpaces q)) = false)
    /\ (eof (snd (readBareToken q)) = true
        \/ isDelim (peek (snd (readBareToken q))) = true)
    /\ (forall seps,
          eof (snd (readUntilAny seps q)) = true
          \/ containsByte seps (peek (snd (readUntilAny seps q))) = true).
Proof.
  intros data before after p q.
  assert (B0 : inBounds (mkParser data 0)) by (unfold inBounds; simpl; lia).
  destruct (runOps_steps before _ B0) as (S1 & _ & B1). fold p in S1, B1.
  destruct (runOps_steps after _ B1) as (S2 & M2 & B2). fold q in S2, M2, B2.
  simpl in S1.
  split; [congruence|]. split; [exact M2|].
  split; [unfold inBounds in B2; rewrite S2, S1 in B2; exact B2|].
  split; [apply scanner_at_eof|].
  split; [intros n; apply peekAhead_rest|].
  split; [|split].
  - apply (stops_at isBlank _ (rest q)). apply rest_skipSpaces.
  - destruct (stops_at (fun c => negb (isDelim c)) (snd (readBareToken q))
                (dropWhile isBlank (rest q))) as [E | E].
    + rewrite readBareToken_rest. cbn [snd].
      rewrite rest_setPos, Nat.add_comm, <- skipn_skipn, skipn_length_takeWhile.
      unfold tokenBytes. apply skipn_length_takeWhile.
    + now left.
    + right. now apply negb_false_iff in E.
  - intros seps.
    destruct (stops_at (fun c => negb (containsByte seps c))
                (snd (readUntilAny seps q)) (rest q)) as [E | E].
    + rewrite readUntilAny_rest. cbn [snd].
      rewrite rest_setPos. apply skipn_length_takeWhile.
    + now left.
    + right. now apply negb_false_iff in E.
Qed.

(** ** Quoted strings *)

Lemma rest_app_cons (p : parser) (c : byte) (r : bytes) :
  rest p = c :: r -> rest (setPos p (pos p + 1)) = r.
Proof. intros H. rewrite rest_setPos, H. reflexivity. Qed.

Lemma parseString_loop_plain (s : bytes) :
  forall fuel p buf X,
    forallb plainByte s = true ->
    rest p = s ++ X ->
    length (rest p) <= fuel ->
    parseString_loop fuel p buf
    = parseString_loop (fuel - length s) (setPos p (pos p + length s)) (buf ++ s).
Proof.
  induction s as [|c s IH]; intros fuel p buf X Hs R F.
  - simpl. now rewrite Nat.sub_0_r, Nat.add_0_r, setPos_self, app_nil_r.
  - simpl in Hs. apply andb_true_iff in Hs. destruct Hs as [Hc Hs].
    unfold plainByte in Hc. apply andb_true_iff in Hc. destruct Hc as [C1 C2].
    apply negb_true_iff in C1, C2.
    simpl in R. destruct fuel as [|f]; [rewrite R in F; simpl in F; lia|].
    cbn [parseString_loop]. rewrite eof_rest, next_rest, R. rewrite C1, C2.
    rewrite (IH f (setPos p (pos p + 1)) (buf ++ [c]) X Hs).
    + rewrite setPos_setPos, <- app_assoc. simpl.
      do 2 f_equal. lia.
    + now rewrite (rest_app_cons p c (s ++ X)).
    + rewrite (rest_app_cons p c (s ++ X) R). rewrite R in F. simpl in F. lia.
Qed.

Lemma parseString_loop_escape (fuel : nat) (p : parser) (buf : bytes) (nc : byte) (X : bytes) :
  rest p = BSL :: nc :: X ->
  parseString_loop (S fuel) p buf
  = parseString_loop fuel (setPos p (pos p + 2)) (buf ++ [unescape nc]).
Proof.
  intros R. cbn [parseString_loop]. rewrite eof_rest, next_rest, R.
  replace (beq BSL BSL) with true by reflexivity.
  rewrite eof_rest, next_rest, (rest_app_cons p BSL (nc :: X) R).
  rewrite setPos_setPos. simpl. do 2 f_equal. lia.
Qed.

Lemma parseString_loop_close (fuel : nat) (p : parser) (buf : bytes) (X : bytes) :
  rest p = DQ :: X ->
  parseString_loop (S fuel) p buf = (Ok buf, setPos p (pos p + 1)).
Proof.
  intros R. cbn [parseString_loop]. rewrite eof_rest, next_rest, R. reflexivity.
Qed.

Lemma unescape_other (nc : byte) : isEscapeLetter nc = false -> unescape nc = nc.
Proof.
  unfold isEscapeLetter, unescape. intros H.
  repeat (apply orb_false_iff in H; destruct H as [H ?]).
  now repeat match goal with E : beq _ _ = false |- _ => rewrite E; clear E end.
Qed.

(** C10.  In a plain double-quoted string, a backslash followed by a byte
    other than n, r, t, the double quote and the backslash decodes to that
    byte alone: [parseString] succeeds, and the backslash is neither kept
    nor reported.  [pre] and [post] are the unescaped bytes around the
    escape, [tail] is whatever follows the closing quote. *)
Theorem parseString_drops_unknown_escape_backslash :
  forall (p : parser) (pre post tail : bytes) (nc : byte),
    forallb plainByte pre = true ->
    forallb plainByte post = true ->
    isEscapeLetter nc = false ->
    rest p = [DQ] ++ pre ++ [BSL; nc] ++ post ++ [DQ] ++ tail ->
    parseString p
    = (Ok (pre ++ [nc] ++ post),
       setPos p (pos p + (length pre + length post + 4))).
Proof.
  intros p pre post tail nc Hpre Hpost Hnc R.
  unfold parseString. rewrite next_rest, R. cbn [app].
  replace (negb (beq DQ DQ)) with false by reflexivity. cbn iota.
  set (p1 := setPos p (pos p + 1)).
  assert (R1 : rest p1 = pre ++ BSL :: nc :: post ++ DQ :: tail).
  { unfold p1. rewrite rest_setPos, R. reflexivity. }
  assert (L1 : remaining p1 = length pre + (2 + length post + 1 + length tail)).
  { rewrite remaining_rest, R1, length_app. simpl. rewrite length_app. simpl. lia. }
  rewrite (parseString_loop_plain pre _ p1 [] _ Hpre R1)
    by (rewrite <- remaining_rest; lia).
  rewrite L1.
  replace (length pre + (2 + length post + 1 + length tail) - length pre)
    with (S (length post + 1 + length tail + 1)) by lia.
  set (p2 := setPos p1 (pos p1 + length pre)).
  assert (R2 : rest p2 = BSL :: nc :: post ++ DQ :: tail).
  { unfold p2. rewrite rest_setPos, R1, skipn_app, Nat.sub_diag, skipn_all. reflexivity. }
  rewrite (parseString_loop_escape _ p2 _ nc _ R2).
  rewrite (unescape_other nc Hnc).
  set (p3 := setPos p2 (pos p2 + 2)).
  assert (R3 : rest p3 = post ++ DQ :: tail).
  { unfold p3. rewrite rest_setPos, R2. reflexivity. }
  rewrite (parseString_loop_plain post _ p3 _ _ Hpost R3)
    by (rewrite R3, length_app; simpl; lia).
  replace (length post + 1 + length tail + 1 - length post)
    with (S (length tail + 1)) by lia.
  set (p4 := setPos p3 (pos p3 + length post)).
  assert (R4 : rest p4 = DQ :: tail).
  { unfold p4. rewrite rest_setPos, R3, skipn_app, Nat.sub_diag, skipn_all. reflexivity. }
  rewrite (parseString_loop_close _ p4 _ _ R4).
  unfold p4, p3, p2, p1. simpl. rewrite <- !app_assoc, !setPos_setPos. simpl.
  do 2 f_equal. lia.
Qed.

(** The two bytes backslash, z between the quotes decode to the single
    byte z; so does the escape inside a longer string. *)
Lemma parseString_drops_unknown_escape_backslash_witness :
  parseString (mkParser ([DQ] ++ bs "a" ++ [BSL; "z"] ++ bs "b" ++ [DQ] ++ bs ";") 0)
  = (Ok (bs "azb"), mkParser ([DQ] ++ bs "a" ++ [BSL; "z"] ++ bs "b" ++ [DQ] ++ bs ";") 6).
Proof.
  exact (parseString_drops_unknown_escape_backslash
           (mkParser ([DQ] ++ bs "a" ++ [BSL; "z"] ++ bs "b" ++ [DQ] ++ bs ";") 0)
           (bs "a") (bs "b") (bs ";") "z"
           eq_refl eq_refl eq_refl eq_refl).
Defined.

(** ** The root of a document *)

(** C2 (what the code does).  [Marshal] wraps a string in braces, but
    [Unmarshal] into a string destination does not unwrap it: the
    destination kind is not a slice, so [decodeValue] goes straight to
    [parseStringValue], which sees the opening brace, reads a bare token
    that stops at once, and stores the empty string without an error. *)
Theorem unmarshal_hello_into_string_gives_empty :
  forall (sprintV : Val -> bytes) (IsPrint : N -> bool) (fuel : nat) (old : bytes),
    Marshal sprintV IsPrint (VString (bs "Hello World")) = Ok helloDoc
    /\ Unmarshal (S fuel) helloDoc (VPtrTo (VString old)) = Done (VString [])
    /\ VString [] <> VString (bs "Hello World").
Proof.
  intros sprintV IsPrint fuel old. repeat split.
  discriminate.
Qed.

(** C5 (what the code does).  At a closing parenthesis right after the
    opening one [decodeTable] returns before it stores anything: the
    destination keeps the rows it had.  With a header, the table with no
    rows does empty the destination. *)
Theorem decodeTable_immediate_close_keeps_destination :
  forall (fuel : nat) (fs : list Field) (rows : list Val),
    Unmarshal (3 + fuel) (bs "{()}") (VPtrTo (VSlice (TStruct fs) rows))
    = Done (VSlice (TStruct fs) rows)
    /\ Unmarshal (3 + fuel) (bs "{()}") (VPtrTo (VSliceNil (TStruct fs)))
       = Done (VSliceNil (TStruct fs))
    /\ Unmarshal (4 + fuel) (bs "{(:)}") (VPtrTo (VSlice (TStruct fs) rows))
       = Done (VSlice (TStruct fs) []).
Proof.
  intros fuel fs rows. repeat split.
Qed.

(** The failing input of C5: a destination that holds one person. *)
Lemma decodeTable_immediate_close_example :
  Unmarshal 3 (bs "{()}") (VPtrTo (VSlice (TStruct Person) [person "A" 1 "B"]))
  = Done (VSlice (TStruct Person) [person "A" 1 "B"]).
Proof. reflexivity. Qed.

(** ** Numbers read into integer destinations *)

Lemma wrapInt_fits (k : IntKind) (z : Z) : fitsInt k z -> wrapInt k z = z.
Proof.
  unfold fitsInt, wrapInt. intros H.
  assert (E : (2 ^ intBits k = 2 * 2 ^ (intBits k - 1))%Z).
  { rewrite <- Z.pow_succ_r by (destruct k; simpl; lia). f_equal. lia. }
  rewrite Z.mod_small by lia. lia.
Qed.

Lemma wrapUint_fits (k : UintKind) (z : Z) : fitsUint k z -> wrapUint k z = z.
Proof. unfold fitsUint, wrapUint. intros H. now apply Z.mod_small. Qed.

Lemma fitsInt_64 (k : IntKind) (z : Z) :
  fitsInt k z -> (- 2 ^ 63 <= z < 2 ^ 63)%Z.
Proof. unfold fitsInt. destruct k; simpl; lia. Qed.

Lemma fitsUint_64 (k : UintKind) (z : Z) :
  fitsUint k z -> (0 <= z < 2 ^ 64)%Z.
Proof. unfold fitsUint. destruct k; simpl; lia. Qed.

Lemma F64toInt64_trunc (f : F64) (z : Z) :
  truncF64 f = Some z -> (- 2 ^ 63 <= z < 2 ^ 63)%Z -> F64toInt64 f = z.
Proof.
  intros T R. unfold F64toInt64. rewrite T.
  destruct (Z.leb_spec (- 2 ^ 63) z); [|lia].
  destruct (Z.ltb_spec z (2 ^ 63)); [reflexivity|lia].
Qed.

Lemma F64toUint64_trunc (f : F64) (z : Z) :
  truncF64 f = Some z -> (0 <= z < 2 ^ 64)%Z -> F64toUint64 f = z.
Proof.
  intros T R. unfold F64toUint64. rewrite T.
  destruct (Z.leb_spec 0 z); [|lia].
  destruct (Z.ltb_spec z (2 ^ 64)); [reflexivity|lia].
Qed.

(** C9.  An integer destination, signed or unsigned, takes the next bare
    token, parses it as a float64 with [ParseFloat] and stores the float's
    integer part (rounded toward zero) when the kind can hold it; a token
    with a fractional part is therefore not an error.  Only a token that
    [ParseFloat] refuses, or an empty one, fails. *)
Theorem decodeValue_integer_stores_truncated_float :
  forall (fuel : nat) (p p' : parser) (token : bytes) (f : F64) (z : Z),
    readBareToken (skipSpaces p) = (token, p') ->
    token <> [] ->
    ParseFloat token = Ok f ->
    truncF64 f = Some z ->
    (forall k old, fitsInt k z ->
       decodeValue (S fuel) p (VInt k old) = Done (VInt k z, p'))
    /\ (forall k old, fitsUint k z ->
          decodeValue (S fuel) p (VUint k old) = Done (VUint k z, p')).
Proof.
  intros fuel p p' token f z RB NE PF T.
  assert (PN : parseNumber (skipSpaces p) = (Ok f, p')).
  { unfold parseNumber. rewrite RB. destruct token; [congruence|]. now rewrite PF. }
  split; intros k old F; cbn [decodeValue]; rewrite PN.
  - unfold SetInt.
    rewrite (F64toInt64_trunc f z T (fitsInt_64 k z F)).
    now rewrite (wrapInt_fits k z F).
  - unfold SetUint.
    rewrite (F64toUint64_trunc f z T (fitsUint_64 k z F)).
    now rewrite (wrapUint_fits k z F).
Qed.

(** The token 12.7 read into an [int] gives 12. *)
Lemma decodeValue_integer_stores_truncated_float_witness :
  decodeValue 1 (mkParser (bs "12.7}") 0) (VInt Int 0)
  = Done (VInt Int 12, mkParser (bs "12.7}") 4).
Proof.
  refine (proj1 (decodeValue_integer_stores_truncated_float
                   0 (mkParser (bs "12.7}") 0) (mkParser (bs "12.7}") 4)
                   (bs "12.7") (FFin false 7149464408450662 (-49)) 12
                   eq_refl _ eq_refl eq_refl) Int 0%Z _).
  - discriminate.
  - unfold fitsInt. simpl. lia.
Defined.

(** The same inside a record: the field [age] of a [Person]. *)
Lemma unmarshal_fractional_age :
  Unmarshal 4 (bs "{age=12.7}") (VPtrTo (zero (TStruct Person)))
  = Done (person "" 12 "").
Proof. reflexivity. Qed.

(** A token that [ParseFloat] refuses is the only failure. *)
Lemma decodeValue_integer_malformed (fuel : nat) (p p' : parser) (token : bytes)
  (e : Error) (k : IntKind) (old : Z) :
  readBareToken (skipSpaces p) = (token, p') ->
  token <> [] ->
  ParseFloat token = Err e ->
  decodeValue (S fuel) p (VInt k old) = Fail e.
Proof.
  intros RB NE PF. cbn [decodeValue]. unfold parseNumber. rewrite RB.
  destruct token; [congruence|]. now rewrite PF.
Qed.

(** ** Table rows *)

Lemma nth_setNth_neq {A : Type} (l : list A) :
  forall i j x d, i <> j -> nth j (setNth i x l) d = nth j l d.
Proof.
  induction l as [|y r IH]; intros i j x d H; [reflexivity|].
  destruct i, j; simpl; try reflexivity; try congruence.
  apply IH. congruence.
Qed.

Lemma nth_setNth_same {A : Type} (l : list A) :
  forall i d, nth i (setNth i (nth i l d) l) d = nth i l d.
Proof.
  induction l as [|y r IH]; intros i d; [reflexivity|].
  destruct i; simpl; [reflexivity | apply IH].
Qed.

Lemma nth_setNth_eq {A : Type} (l : list A) :
  forall i x d, i < length l -> nth i (setNth i x l) d = x.
Proof.
  induction l as [|y r IH]; intros i x d H; simpl in H; [lia|].
  destruct i; simpl; [reflexivity | apply IH; lia].
Qed.

Lemma length_setNth {A : Type} (l : list A) :
  forall i x, length (setNth i x l) = length l.
Proof.
  induction l as [|y r IH]; intros i x; [reflexivity|].
  destruct i; simpl; [reflexivity | now rewrite IH].
Qed.

Lemma tableCells_split (fuel : nat) :
  forall p headers fm sv idx sv' p',
    tableCells_loop fuel p headers fm sv idx = Done (sv', p') ->
    exists cells,
      scanCells fuel p = Done (cells, p')
      /\ applyCells headers fm sv idx cells = Ok sv'.
Proof.
  induction fuel as [|f IH]; intros p headers fm sv idx sv' p' H; [discriminate|].
  cbn [tableCells_loop scanCells] in *.
  destruct (beq (peek (skipSpaces p)) ";").
  { injection H as <- <-. exists []. now split. }
  destruct (beq (peek (skipSpaces p)) ")").
  { injection H as <- <-. exists []. now split. }
  destruct (readCell (skipSpaces p)) as [[cellStr|e] p1]; [|discriminate].
  destruct (setCell headers fm sv idx cellStr) as [sv1|e] eqn:SC; [|discriminate].
  apply IH in H. destruct H as (cells & HS & HA).
  exists (cellStr :: cells). rewrite HS. split; [reflexivity|].
  simpl. now rewrite SC.
Qed.

Lemma setCell_beyond (headers : list bytes) (fm : FieldMap) (sv : list Val)
  (idx : nat) (c : bytes) :
  length headers <= idx -> setCell headers fm sv idx c = Ok sv.
Proof.
  intros H. unfold setCell.
  now rewrite (proj2 (nth_error_None headers idx) H).
Qed.

Lemma applyCells_beyond (headers : list bytes) (fm : FieldMap) (cells : list bytes) :
  forall sv idx, length headers <= idx -> applyCells headers fm sv idx cells = Ok sv.
Proof.
  induction cells as [|c r IH]; intros sv idx H; [reflexivity|].
  simpl. rewrite setCell_beyond by exact H. apply IH. lia.
Qed.

Lemma applyCells_excess (headers : list bytes) (fm : FieldMap) (cells : list bytes) :
  forall sv idx,
    applyCells headers fm sv idx cells
    = applyCells headers fm sv idx (firstn (length headers - idx) cells).
Proof.
  induction cells as [|c r IH]; intros sv idx.
  - now rewrite firstn_nil.
  - destruct (Nat.le_gt_cases (length headers) idx) as [H | H].
    + replace (length headers - idx) with 0 by lia.
      now rewrite applyCells_beyond.
    + replace (length headers - idx) with (S (length headers - S idx)) by lia.
      simpl. destruct (setCell headers fm sv idx c); [apply IH | reflexivity].
Qed.

Lemma setCell_untouched (headers : list bytes) (fm : FieldMap) (sv sv' : list Val)
  (idx : nat) (c : bytes) (j : nat) :
  setCell headers fm sv idx c = Ok sv' ->
  (forall h, nth_error headers idx = Some h -> fm h = Some j -> c = []) ->
  nth j sv' VOther = nth j sv VOther.
Proof.
  unfold setCell. intros H E.
  destruct (nth_error headers idx) as [h|]; [|now injection H as <-].
  destruct (fm h) as [fi|] eqn:F; [|now injection H as <-].
  destruct (Nat.eq_dec fi j) as [-> | N].
  - rewrite (E h eq_refl F) in H. simpl in H. injection H as <-.
    apply nth_setNth_same.
  - destruct (setFieldFromString (nth fi sv VOther) c); [|discriminate].
    injection H as <-. now apply nth_setNth_neq.
Qed.

Lemma applyCells_untouched (headers : list bytes) (fm : FieldMap) (cells : list bytes) :
  forall sv sv' idx j,
    applyCells headers fm sv idx cells = Ok sv' ->
    (forall i h, nth_error headers (idx + i) = Some h -> fm h = Some j ->
                 nth i cells [] = []) ->
    nth j sv' VOther = nth j sv VOther.
Proof.
  induction cells as [|c r IH]; intros sv sv' idx j H E.
  - now injection H as <-.
  - simpl in H. destruct (setCell headers fm sv idx c) as [sv1|] eqn:SC; [|discriminate].
    rewrite (IH _ _ _ j H).
    + apply (setCell_untouched _ _ _ _ _ _ _ SC).
      intros h Hh Fh. apply (E 0 h); [now rewrite Nat.add_0_r | exact Fh].
    + intros i h Hh Fh. apply (E (S i) h); [|exact Fh].
      now rewrite Nat.add_succ_r.
Qed.

Lemma nth_zeroFields (fs : list Field) (j : nat) :
  j < length fs -> nth j (zeroFields fs) VOther = zero (fieldType fs j).
Proof.
  revert j. induction fs as [|f r IH]; intros j H; simpl in H; [lia|].
  destruct j; [reflexivity|]. simpl. unfold fieldType. simpl.
  apply IH. lia.
Qed.

(** ** Unknown keys *)

Lemma beq_refl (c : byte) : beq c c = true.
Proof. apply Ascii.eqb_refl. Qed.

Lemma beq_true (a b : byte) : beq a b = true -> a = b.
Proof. apply Ascii.eqb_eq. Qed.

Lemma beq_false (a b : byte) : beq a b = false -> a <> b.
Proof. apply Ascii.eqb_neq. Qed.

Lemma beq_sym (a b : byte) : beq a b = beq b a.
Proof. apply Ascii.eqb_sym. Qed.

Lemma net_nil (o c : byte) : net o c [] = 0%Z.
Proof. reflexivity. Qed.

Lemma net_cons (o c x : byte) (s : bytes) :
  o <> c ->
  net o c (x :: s)
  = ((if beq x o then 1 else if beq x c then -1 else 0) + net o c s)%Z.
Proof.
  intros N. unfold net, countByte. simpl.
  rewrite (beq_sym o x), (beq_sym c x).
  destruct (beq x o) eqn:E1; destruct (beq x c) eqn:E2.
  - apply beq_true in E1, E2. congruence.
  - simpl length. lia.
  - simpl length. lia.
  - lia.
Qed.

Lemma skipNested_loop_rest (o c : byte) (fuel : nat) :
  forall p d, length (rest p) <= fuel ->
    skipNested_loop fuel o c p d = setPos p (pos p + nestedLen o c (rest p) d).
Proof.
  induction fuel as [|f IH]; intros p d H.
  - destruct (rest p); simpl in *; [|lia].
    now rewrite Nat.add_0_r, setPos_self.
  - cbn [skipNested_loop]. rewrite eof_rest, peek_rest, advance_rest.
    destruct (rest p) as [|x r] eqn:R; cbn [hd nestedLen].
    + now rewrite Nat.add_0_r, setPos_self.
    + pose proof (rest_app_cons p x r R) as R'.
      assert (L : length (rest (setPos p (pos p + 1))) <= f)
        by (rewrite R'; simpl in H; lia).
      destruct (beq x o).
      * rewrite (IH _ _ L), R', setPos_setPos. f_equal. simpl. lia.
      * destruct (beq x c).
        -- destruct (d - 1 =? 0)%Z; [reflexivity|].
           rewrite (IH _ _ L), R', setPos_setPos. f_equal. simpl. lia.
        -- rewrite (IH _ _ L), R', setPos_setPos. f_equal. simpl. lia.
Qed.

Lemma nestedLen_spec (o c : byte) (l : bytes) :
  o <> c ->
  forall d, (1 <= d)%Z ->
    nestedLen o c l d <= length l
    /\ (forall n, n < nestedLen o c l d -> (0 < d + net o c (firstn n l))%Z)
    /\ ((d + net o c (firstn (nestedLen o c l d) l) = 0)%Z
        \/ (nestedLen o c l d = length l /\ (0 < d + net o c l)%Z)).
Proof.
  intros N. induction l as [|x r IH]; intros d D.
  - simpl. repeat split; [lia | intros; lia | right; rewrite net_nil; split; [reflexivity|lia]].
  - cbn [nestedLen].
    assert (Step : forall d', (1 <= d')%Z ->
              (d' = d + (if beq x o then 1 else if beq x c then -1 else 0))%Z ->
              S (nestedLen o c r d') <= length (x :: r)
              /\ (forall n, n < S (nestedLen o c r d') ->
                            (0 < d + net o c (firstn n (x :: r)))%Z)
              /\ ((d + net o c (firstn (S (nestedLen o c r d')) (x :: r)) = 0)%Z
                  \/ (S (nestedLen o c r d') = length (x :: r)
                      /\ (0 < d + net o c (x :: r))%Z))).
    { intros d' D' E. destruct (IH d' D') as (A & B & C).
      split; [simpl; lia|]. split.
      - intros n Hn. destruct n as [|n]; [simpl; rewrite net_nil; lia|].
        cbn [firstn]. rewrite net_cons by exact N.
        specialize (B n ltac:(lia)). lia.
      - cbn [firstn]. rewrite !net_cons by exact N.
        destruct C as [C | [C1 C2]]; [left; lia | right; split; [simpl; lia | lia]]. }
    destruct (beq x o) eqn:E1.
    + apply Step; lia.
    + destruct (beq x c) eqn:E2.
      * destruct (Z.eqb_spec (d - 1) 0) as [Z0 | Z0].
        -- split; [simpl; lia|]. split.
           ++ intros n Hn. replace n with 0 by lia. simpl. rewrite net_nil. lia.
           ++ left. cbn [firstn]. rewrite net_cons, net_nil by exact N.
              rewrite E1, E2. lia.
        -- apply Step; lia.
      * apply Step; lia.
Qed.

Lemma skipSpaces_idem (p : parser) : skipSpaces (skipSpaces p) = skipSpaces p.
Proof.
  rewrite (skipSpaces_rest (skipSpaces p)), rest_skipSpaces.
  assert (E : takeWhile isBlank (dropWhile isBlank (rest p)) = []).
  { induction (rest p) as [|x r IH]; [reflexivity|].
    simpl. destruct (isBlank x) eqn:B; [exact IH | simpl; now rewrite B]. }
  rewrite E. simpl. now rewrite Nat.add_0_r, setPos_self.
Qed.

Lemma skipValue_nested (o c : byte) (p : parser) (r : bytes) :
  o <> c ->
  rest p = o :: r ->
  exists k,
    skipNested_loop (remaining p) o c p 0 = setPos p (pos p + k)
    /\ balancedPrefix o c (rest p) k.
Proof.
  intros N R.
  rewrite skipNested_loop_rest by (now rewrite remaining_rest).
  rewrite R. cbn [nestedLen]. rewrite beq_refl. simpl Z.add.
  exists (S (nestedLen o c r 1)). split; [reflexivity|].
  destruct (nestedLen_spec o c r N 1 ltac:(lia)) as (A & B & C).
  unfold balancedPrefix. split; [simpl; lia|]. split.
  - intros n Hn. destruct n as [|n]; [lia|]. cbn [firstn].
    rewrite net_cons, beq_refl by exact N. apply B. lia.
  - cbn [firstn]. rewrite !net_cons, beq_refl by exact N.
    destruct C as [C | [C1 C2]]; [now left | right; split; [simpl; lia | exact C2]].
Qed.

Lemma skipValue_ok (p : parser) : skipValue p = (Ok tt, snd (skipValue p)).
Proof.
  unfold skipValue.
  repeat match goal with |- context [if ?b then _ else _] => destruct b end;
    reflexivity.
Qed.

(** In the loop of [decodeStruct], a key that is not in the field
    map raises no error at that key.  With a non-empty right-hand side the loop calls
    [skipValue], which never fails, then goes on with the next pair from
    the position [skipValue] left, with the destination's fields as they
    were.  [skipValue] consumes one value without interpreting it: after
    an opening brace, bracket or parenthesis, the shortest prefix in which
    that kind of bracket is balanced (or the rest of the input when it
    never is); after a double quote, what [parseStringValue] consumes;
    otherwise one bare token.  With an empty right-hand side nothing is
    skipped and the fields are unchanged as well. *)
Theorem decodeStruct_unknown_key_is_skipped :
  forall (fuel : nat) (p p1 : parser) (fs : list Field) (fm : FieldMap)
         (vals : list Val) (key : bytes),
    eof p = false -> beq (peek p) "}" = false ->
    readBareToken p = (key, p1) ->
    beq (peek (skipSpaces p1)) "=" = true ->
    fm key = None ->
    let p3 := skipSpaces (advance (skipSpaces p1)) in
    (beq (peek p3) ";" || beq (peek p3) "}" = false ->
       fst (skipValue p3) = Ok tt
       /\ decodeStruct_loop (S fuel) p fs fm vals
          = decodeStruct_loop fuel (afterValue (snd (skipValue p3))) fs fm vals)
    /\ (beq (peek p3) ";" || beq (peek p3) "}" = true ->
          decodeStruct_loop (S fuel) p fs fm vals
          = decodeStruct_loop fuel
              (skipSpaces (if beq (peek p3) ";" then advance p3 else p3)) fs fm vals)
    /\ (forall o c, In (o, c) [("{", "}"); ("[", "]"); ("(", ")")] ->
          beq (peek p3) o = true ->
          exists k, snd (skipValue p3) = setPos p3 (pos p3 + k)
                    /\ balancedPrefix o c (rest p3) k)
    /\ (beq (peek p3) DQ = true -> snd (skipValue p3) = snd (parseStringValue p3))
    /\ (beq (peek p3) "{" || beq (peek p3) "[" || beq (peek p3) "(" || beq (peek p3) DQ
        = false ->
          snd (skipValue p3) = snd (readBareToken p3)).
Proof.
  intros fuel p p1 fs fm vals key E B RB EQ FM p3.
  assert (Idem : skipSpaces p3 = p3) by apply skipSpaces_idem.
  split; [|split; [|split; [|split]]].
  - intros NE. split; [now rewrite skipValue_ok|].
    cbn [decodeStruct_loop]. rewrite E, B, RB. cbn [orb]. rewrite EQ. cbn [negb].
    fold p3. rewrite NE, FM. rewrite skipValue_ok. reflexivity.
  - intros EM.
    cbn [decodeStruct_loop]. rewrite E, B, RB. cbn [orb]. rewrite EQ. cbn [negb].
    fold p3. rewrite EM, FM. reflexivity.
  - intros o c HIn Po.
    assert (N : o <> c).
    { simpl in HIn. destruct HIn as [H | [H | [H | []]]];
        injection H as <- <-; discriminate. }
    assert (R : exists r, rest p3 = o :: r).
    { rewrite peek_rest in Po. destruct (rest p3) as [|x r] eqn:R.
      - simpl in Po. simpl in HIn.
        destruct HIn as [H | [H | [H | []]]]; injection H as <- <-; discriminate.
      - simpl in Po. apply beq_true in Po. subst x. now exists r. }
    destruct R as (r & R).
    destruct (skipValue_nested o c p3 r N R) as (k & Hk & Bk).
    exists k. split; [|exact Bk].
    unfold skipValue. rewrite Idem.
    apply beq_true in Po.
    simpl in HIn. destruct HIn as [H | [H | [H | []]]]; injection H as <- <-;
      rewrite Po; exact Hk.
  - intros Q. unfold skipValue. rewrite Idem.
    apply beq_true in Q. rewrite Q. reflexivity.
  - intros Q. unfold skipValue. rewrite Idem.
    repeat (apply orb_false_iff in Q; destruct Q as [Q ?]).
    now repeat match goal with H : beq _ _ = false |- _ => rewrite H; clear H end.
Qed.

(** The unknown key x of [unknownKeyDoc], whose value is a nested object,
    is skipped, and the loop goes on to read the name. *)
Lemma decodeStruct_unknown_key_is_skipped_witness :
  decodeStruct_loop 5 (mkParser unknownKeyDoc 1) Person personFieldMap (zeroFields Person)
  = Done ([VString (bs "J"); VInt Int 0; VString []], mkParser unknownKeyDoc 21).
Proof.
  rewrite (proj2 (proj1 (decodeStruct_unknown_key_is_skipped
             4 (mkParser unknownKeyDoc 1) (mkParser unknownKeyDoc 2)
             Person personFieldMap (zeroFields Person) (bs "x")
             eq_refl eq_refl eq_refl eq_refl eq_refl) eq_refl)).
  reflexivity.
Defined.

(** ** Induction on values *)

Section ValInduction.

Variable P : Val -> Prop.
Hypothesis HBool : forall b, P (VBool b).
Hypothesis HInt : forall k n, P (VInt k n).
Hypothesis HUint : forall k n, P (VUint k n).
Hypothesis HFloat : forall k f, P (VFloat k f).
Hypothesis HString : forall s, P (VString s).
Hypothesis HPtrNil : forall t, P (VPtrNil t).
Hypothesis HPtrTo : forall v, P v -> P (VPtrTo v).
Hypothesis HSliceNil : forall t, P (VSliceNil t).
Hypothesis HSlice : forall t l, Forall P l -> P (VSlice t l).
Hypothesis HArray : forall t l, Forall P l -> P (VArray t l).
Hypothesis HMapNil : forall t, P (VMapNil t).
Hypothesis HMap : forall t keys vals, Forall P vals -> P (VMap t keys vals).
Hypothesis HStruct : forall fs vals, Forall P vals -> P (VStruct fs vals).
Hypothesis HIfaceNil : P VIfaceNil.
Hypothesis HIface : forall v, P v -> P (VIface v).
Hypothesis HOther : P VOther.

Fixpoint Val_nested_ind (v : Val) : P v :=
  let all := fix all (l : list Val) : Forall P l :=
               match l with
               | [] => Forall_nil P
               | x :: r => Forall_cons x (Val_nested_ind x) (all r)
               end in
  match v with
  | VBool b => HBool b
  | VInt k n => HInt k n
  | VUint k n => HUint k n
  | VFloat k f => HFloat k f
  | VString s => HString s
  | VPtrNil t => HPtrNil t
  | VPtrTo x => HPtrTo x (Val_nested_ind x)
  | VSliceNil t => HSliceNil t
  | VSlice t l => HSlice t l (all l)
  | VArray t l => HArray t l (all l)
  | VMapNil t => HMapNil t
  | VMap t keys vals => HMap t keys vals (all vals)
  | VStruct fs vals => HStruct fs vals (all vals)
  | VIfaceNil => HIfaceNil
  | VIface x => HIface x (Val_nested_ind x)
  | VOther => HOther
  end.

End ValInduction.

(** ** The encoder only appends *)

Section EncoderFacts.

Variable sprintV : Val -> bytes.
Variable IsPrint : N -> bool.

Local Abbreviation encV := (encodeValue sprintV IsPrint).

Lemma prepend_prepend (a b : bytes) (r : res bytes) :
  prepend a (prepend b r) = prepend (a ++ b) r.
Proof. destruct r; simpl; [now rewrite app_assoc | reflexivity]. Qed.

Lemma prepend_nil (r : res bytes) : prepend [] r = r.
Proof. now destruct r. Qed.

Lemma encodeTableCell_app (v : Val) :
  forall acc, encodeTableCell sprintV IsPrint acc v
              = acc ++ encodeTableCell sprintV IsPrint [] v.
Proof.
  induction v; intros acc; simpl; try reflexivity;
    try (destruct s; reflexivity); try apply IHv;
    try (match goal with |- context [if ?c then _ else _] => destruct c end; reflexivity).
Qed.

Lemma writeHeaders_app (hs : list bytes) :
  forall b i, writeHeaders b hs i = b ++ writeHeaders [] hs i.
Proof.
  induction hs as [|h r IH]; intros b i; simpl; [now rewrite app_nil_r|].
  rewrite IH. rewrite (IH (_ ++ h)).
  destruct (0 <? i); simpl; now rewrite <- ?app_assoc.
Qed.

Lemma writeRow_app (fs : list Field) :
  forall vals b j,
    writeRow sprintV IsPrint b fs vals j = b ++ writeRow sprintV IsPrint [] fs vals j.
Proof.
  induction fs as [|f r IH]; intros vals b j; simpl; [now rewrite app_nil_r|].
  destruct vals as [|x xr]; [now rewrite app_nil_r|].
  destruct (negb (IsExported f)); [apply IH|].
  rewrite IH. rewrite (IH _ (encodeTableCell _ _ _ _)).
  rewrite encodeTableCell_app.
  rewrite (encodeTableCell_app x (if 0 <? j then _ else _)).
  destruct (0 <? j); simpl; now rewrite <- ?app_assoc.
Qed.

Lemma writeRows_app (fs : list Field) (rows : list Val) :
  forall b, writeRows sprintV IsPrint b fs rows
            = b ++ writeRows sprintV IsPrint [] fs rows.
Proof.
  induction rows as [|x r IH]; intros b; simpl; [now rewrite app_nil_r|].
  rewrite IH. rewrite (IH (_ ++ [";"])). rewrite writeRow_app.
  now rewrite <- !app_assoc.
Qed.

Lemma encodeStructSliceAsTable_app (b : bytes) (t : Ty) (l : list Val) :
  encodeStructSliceAsTable sprintV IsPrint b t l
  = b ++ encodeStructSliceAsTable sprintV IsPrint [] t l.
Proof.
  unfold encodeStructSliceAsTable. destruct l as [|x r]; [reflexivity|].
  rewrite writeRows_app. rewrite (writeRows_app _ _ (writeHeaders _ _ _ ++ _)).
  rewrite writeHeaders_app. rewrite (writeHeaders_app _ ([] ++ _)).
  simpl. now rewrite <- !app_assoc.
Qed.

Ltac value_prepend Hv :=
  match goal with
  | |- match ?enc ?BL ?v ?lv ?cp with _ => _ end
       = prepend ?b (match ?enc ?BR ?v ?lv ?cp with _ => _ end) =>
      rewrite (Hv BL lv cp), (Hv BR lv cp);
      destruct (enc [] v lv cp); [cbn [prepend] | reflexivity]
  end.

Ltac loop_prepend IH :=
  match goal with
  | |- ?loop ?enc ?BL ?xs ?ys ?lv ?cp ?fi
       = prepend ?b (?loop ?enc ?BR ?xs ?ys ?lv ?cp ?fi) =>
      rewrite (IH xs BL lv cp fi), (IH xs BR lv cp fi), prepend_prepend;
      f_equal; simpl; rewrite <- ?app_assoc; reflexivity
  end.

Lemma encodeStruct_loop_prepend (enc : bytes -> Val -> Z -> bool -> res bytes)
  (vals : list Val) :
  Forall (fun v => forall b l c, enc b v l c = prepend b (enc [] v l c)) vals ->
  forall fs b level compact first,
    encodeStruct_loop enc b fs vals level compact first
    = prepend b (encodeStruct_loop enc [] fs vals level compact first).
Proof.
  induction 1 as [|v vals Hv _ IH]; intros fs b level compact first.
  - destruct fs; simpl; now rewrite app_nil_r.
  - destruct fs as [|f fr]; [simpl; now rewrite app_nil_r|].
    cbn [encodeStruct_loop].
    destruct (negb (IsExported f)); [apply IH|].
    destruct (isZeroValue v).
    + destruct compact, first; cbn [negb andb]; loop_prepend IH.
    + destruct compact, first; cbn [negb andb]; value_prepend Hv; loop_prepend IH.
Qed.

Lemma encodeMap_loop_prepend (enc : bytes -> Val -> Z -> bool -> res bytes)
  (vals : list Val) :
  Forall (fun v => forall b l c, enc b v l c = prepend b (enc [] v l c)) vals ->
  forall keys b level compact first,
    encodeMap_loop enc b keys vals level compact first
    = prepend b (encodeMap_loop enc [] keys vals level compact first).
Proof.
  induction 1 as [|v vals Hv _ IH]; intros keys b level compact first.
  - destruct keys; simpl; now rewrite app_nil_r.
  - destruct keys as [|k kr]; [simpl; now rewrite app_nil_r|].
    cbn [encodeMap_loop].
    destruct (isZeroValue v || isNilInterface v).
    + destruct compact, first; cbn [negb andb]; loop_prepend IH.
    + destruct compact, first; cbn [negb andb]; value_prepend Hv; loop_prepend IH.
Qed.

Lemma encodeSlice_loop_prepend (enc : bytes -> Val -> Z -> bool -> res bytes)
  (l : list Val) :
  Forall (fun v => forall b l c, enc b v l c = prepend b (enc [] v l c)) l ->
  forall b i level compact,
    encodeSlice_loop enc b l i level compact
    = prepend b (encodeSlice_loop enc [] l i level compact).
Proof.
  induction 1 as [|v vals Hv _ IH]; intros b i level compact.
  - simpl. now rewrite app_nil_r.
  - cbn [encodeSlice_loop].
    destruct (0 <? i); value_prepend Hv;
      match goal with
      | |- encodeSlice_loop _ ?BL _ _ _ _ = prepend _ (encodeSlice_loop _ ?BR _ _ _ _) =>
          rewrite (IH BL), (IH BR), prepend_prepend; f_equal; simpl;
          rewrite <- ?app_assoc; reflexivity
      end.
Qed.

Lemma encodeStruct_prepend (enc : bytes -> Val -> Z -> bool -> res bytes)
  (fs : list Field) (vals : list Val) (b : bytes) (level : Z) (compact : bool) :
  Forall (fun v => forall b l c, enc b v l c = prepend b (enc [] v l c)) vals ->
  encodeStruct enc b fs vals level compact
  = prepend b (encodeStruct enc [] fs vals level compact).
Proof.
  intros H. unfold encodeStruct.
  rewrite (encodeStruct_loop_prepend enc vals H fs (if negb compact then _ else _)).
  rewrite (encodeStruct_loop_prepend enc vals H fs (if negb compact then ([] ++ _) ++ _ else _)).
  destruct (encodeStruct_loop enc [] fs vals level compact true) as [x|e];
    [|reflexivity].
  destruct compact; simpl; now rewrite <- ?app_assoc.
Qed.

Lemma encodeMap_prepend (enc : bytes -> Val -> Z -> bool -> res bytes)
  (keys : list bytes) (vals : list Val) (b : bytes) (level : Z) (compact : bool) :
  Forall (fun v => forall b l c, enc b v l c = prepend b (enc [] v l c)) vals ->
  encodeMap enc b keys vals level compact
  = prepend b (encodeMap enc [] keys vals level compact).
Proof.
  intros H. unfold encodeMap.
  rewrite (encodeMap_loop_prepend enc vals H keys (if negb compact then _ else _)).
  rewrite (encodeMap_loop_prepend enc vals H keys (if negb compact then ([] ++ _) ++ _ else _)).
  destruct (encodeMap_loop enc [] keys vals level compact true) as [x|e];
    [|reflexivity].
  destruct compact; simpl; now rewrite <- ?app_assoc.
Qed.

Lemma encodeSlice_prepend (enc : bytes -> Val -> Z -> bool -> res bytes)
  (t : Ty) (l : list Val) (b : bytes) (level : Z) (compact : bool) :
  Forall (fun v => forall b l c, enc b v l c = prepend b (enc [] v l c)) l ->
  encodeSlice sprintV IsPrint enc b t l level compact
  = prepend b (encodeSlice sprintV IsPrint enc [] t l level compact).
Proof.
  intros H. unfold encodeSlice. destruct l as [|x r]; [reflexivity|].
  destruct (isStructType t).
  - simpl prepend. now rewrite encodeStructSliceAsTable_app.
  - rewrite (encodeSlice_loop_prepend enc _ H (b ++ _)).
    rewrite (encodeSlice_loop_prepend enc _ H ([] ++ _)).
    destruct (encodeSlice_loop enc [] (x :: r) 0 level compact) as [y|e];
      [|reflexivity].
    simpl. now rewrite <- ?app_assoc.
Qed.

Lemma Forall_nil_any (Q : Val -> Prop) : Forall Q [].
Proof. constructor. Qed.

Lemma encodeValue_prepend (v : Val) :
  forall b level compact,
    encV b v level compact = prepend b (encV [] v level compact).
Proof.
  induction v as [ | | | | s | | x IHx | | t l IHl | t l IHl | | t keys vals IHl
                 | fs vals IHl | | x IHx | ] using Val_nested_ind;
    intros acc level compact; simpl; try reflexivity;
    try (now rewrite app_nil_r).
  - unfold encodeString. destruct (containsNewline s); reflexivity.
  - destruct x; try reflexivity; try (simpl; now rewrite app_nil_r);
      apply (IHx acc level compact).
  - now apply encodeSlice_prepend.
  - now apply encodeSlice_prepend.
  - apply encodeMap_prepend. constructor.
  - now apply encodeMap_prepend.
  - now apply encodeStruct_prepend.
  - apply IHx.
Qed.

(** ** Compact and indented output *)

Lemma encodeValue_struct (b : bytes) (fs : list Field) (vals : list Val)
  (level : Z) (compact : bool) :
  encV b (VStruct fs vals) level compact = encodeStruct encV b fs vals level compact.
Proof. reflexivity. Qed.

Lemma encodeValue_map (b : bytes) (t : Ty) (keys : list bytes) (vals : list Val)
  (level : Z) (compact : bool) :
  encV b (VMap t keys vals) level compact = encodeMap encV b keys vals level compact.
Proof. reflexivity. Qed.

Lemma encodeValue_slice (b : bytes) (t : Ty) (l : list Val) (level : Z) (compact : bool) :
  encV b (VSlice t l) level compact
  = encodeSlice sprintV IsPrint encV b t l level compact.
Proof. reflexivity. Qed.

Lemma encodeValue_array (b : bytes) (t : Ty) (l : list Val) (level : Z) (compact : bool) :
  encV b (VArray t l) level compact
  = encodeSlice sprintV IsPrint encV b t l level compact.
Proof. reflexivity. Qed.

End EncoderFacts.

(** C4 as stated fails.  For the person of the tests the two texts differ
    after the blanks are deleted: the indented text ends its last entry
    with a semicolon, the compact text does not. *)
Lemma marshal_modes_differ_by_trailing_semicolon :
  Marshal (fun _ => []) (fun _ => false) (person "John" 12 "NY")
  = Ok (bs "{name=" ++ [DQ] ++ bs "John" ++ [DQ] ++ bs ";age=12;addr="
        ++ [DQ] ++ bs "NY" ++ [DQ] ++ bs "}")
  /\ stripBlanks (textOf (MarshalBeautify (fun _ => []) (fun _ => false)
                            (person "John" 12 "NY")))
     = bs "{name=" ++ [DQ] ++ bs "John" ++ [DQ] ++ bs ";age=12;addr="
       ++ [DQ] ++ bs "NY" ++ [DQ] ++ bs ";}"
  /\ bytes_eqb
       (stripBlanks (textOf (Marshal (fun _ => []) (fun _ => false)
                               (person "John" 12 "NY"))))
       (stripBlanks (textOf (MarshalBeautify (fun _ => []) (fun _ => false)
                               (person "John" 12 "NY"))))
     = false.
Proof. repeat split. Qed.

(** ** Tokens *)

Lemma bytes_eqb_eq (a b : bytes) : bytes_eqb a b = true <-> a = b.
Proof.
  revert b. induction a as [|x a IH]; intros [|y b]; simpl; split; intros H;
    try reflexivity; try discriminate.
  - apply andb_true_iff in H. destruct H as [H1 H2].
    apply beq_true in H1. apply IH in H2. congruence.
  - injection H as -> ->. rewrite beq_refl. now apply IH.
Qed.

Lemma bytes_eqb_refl (a : bytes) : bytes_eqb a a = true.
Proof. now apply bytes_eqb_eq. Qed.

Lemma bytes_eqb_neq (a b : bytes) : a <> b -> bytes_eqb a b = false.
Proof.
  intros H. destruct (bytes_eqb a b) eqn:E; [|reflexivity].
  apply bytes_eqb_eq in E. contradiction.
Qed.

Lemma takeWhile_app_stop {A : Type} (f : A -> bool) (k : list A) (d : A) (X : list A) :
  forallb f k = true -> f d = false -> takeWhile f (k ++ d :: X) = k.
Proof.
  intros Hk Hd. induction k as [|x k IH]; simpl in *.
  - now rewrite Hd.
  - apply andb_true_iff in Hk. destruct Hk as [Hx Hk].
    rewrite Hx. now rewrite IH.
Qed.

Lemma leadingSpace_ascii (c : byte) (r : bytes) :
  isAsciiSpace c = false -> (byteN c <? 128)%N = true ->
  leadingSpace unicodeSpaces (c :: r) = None
  /\ leadingSpace (map (@rev ascii) unicodeSpaces) (c :: r) = None.
Proof.
  intros S L. unfold leadingSpace. rewrite S.
  destruct c as [b0 b1 b2 b3 b4 b5 b6 b7].
  destruct b7.
  - exfalso. destruct b0, b1, b2, b3, b4, b5, b6; discriminate L.
  - split; destruct b0, b1, b2, b3, b4, b5, b6; reflexivity.
Qed.

Lemma trimLeft_ascii (encs : list bytes) (s : bytes) :
  (forall c r, s = c :: r -> leadingSpace encs (c :: r) = None) ->
  trimLeft encs s = s.
Proof.
  intros H. unfold trimLeft. destruct s as [|c r]; [reflexivity|].
  cbn [length trimLeft_loop]. now rewrite (H c r eq_refl).
Qed.

Lemma tokenByte_parts (c : byte) :
  tokenByte c = true ->
  isDelim c = false /\ isAsciiSpace c = false /\ (byteN c <? 128)%N = true.
Proof.
  unfold tokenByte. intros H.
  apply andb_true_iff in H. destruct H as [H H3].
  apply andb_true_iff in H. destruct H as [H1 H2].
  apply negb_true_iff in H1, H2. now repeat split.
Qed.

Lemma TrimSpace_token (s : bytes) : forallb tokenByte s = true -> TrimSpace s = s.
Proof.
  intros H. unfold TrimSpace.
  rewrite (trimLeft_ascii unicodeSpaces s).
  - rewrite (trimLeft_ascii _ (rev s)); [apply rev_involutive|].
    intros c r E.
    assert (In c s) by (apply in_rev; rewrite E; now left).
    rewrite forallb_forall in H.
    destruct (tokenByte_parts c (H c H0)) as (_ & A & B).
    apply (leadingSpace_ascii c r A B).
  - intros c r ->. simpl in H. apply andb_true_iff in H. destruct H as [H _].
    destruct (tokenByte_parts c H) as (_ & A & B).
    apply (leadingSpace_ascii c r A B).
Qed.

Lemma isBlank_isDelim (c : byte) : isBlank c = true -> isDelim c = true.
Proof.
  unfold isBlank, isDelim. intros H.
  repeat (apply orb_true_iff in H; destruct H as [H | H]);
    rewrite H; rewrite ?orb_true_r; reflexivity.
Qed.

Lemma tokenByte_not_blank (c : byte) : tokenByte c = true -> isBlank c = false.
Proof.
  intros H. destruct (tokenByte_parts c H) as (D & _ & _).
  destruct (isBlank c) eqn:B; [|reflexivity].
  apply isBlank_isDelim in B. congruence.
Qed.

(** Reading a token that is followed by a delimiter. *)
Lemma readBareToken_token (p : parser) (k : bytes) (d : byte) (X : bytes) :
  forallb tokenByte k = true -> k <> [] -> isDelim d = true ->
  rest p = k ++ d :: X ->
  readBareToken p = (k, setPos p (pos p + length k)).
Proof.
  intros Hk NE Hd R. rewrite readBareToken_rest, R.
  assert (B : takeWhile isBlank (k ++ d :: X) = []
              /\ dropWhile isBlank (k ++ d :: X) = k ++ d :: X).
  { destruct k as [|c k]; [congruence|]. simpl in Hk.
    apply andb_true_iff in Hk. destruct Hk as [Hc _].
    simpl. now rewrite (tokenByte_not_blank c Hc). }
  destruct B as [B1 B2]. unfold tokenBytes. rewrite B1, B2.
  rewrite (takeWhile_app_stop (fun c => negb (isDelim c)) k d X).
  - now rewrite TrimSpace_token.
  - apply forallb_forall. intros c Hc. rewrite forallb_forall in Hk.
    destruct (tokenByte_parts c (Hk c Hc)) as (D & _). now rewrite D.
  - now rewrite Hd.
Qed.

Lemma goodKey_parts (k : bytes) :
  goodKey k = true -> forallb tokenByte k = true /\ k <> [].
Proof. destruct k; [discriminate|]. intros H. split; [exact H | discriminate]. Qed.

Lemma skipSpaces_not_blank (p : parser) (c : byte) (r : bytes) :
  rest p = c :: r -> isBlank c = false -> skipSpaces p = p.
Proof.
  intros R B. rewrite skipSpaces_rest, R. simpl. rewrite B. simpl.
  now rewrite Nat.add_0_r, setPos_self.
Qed.

Lemma skipSpaces_at_end (p : parser) : rest p = [] -> skipSpaces p = p.
Proof.
  intros R. rewrite skipSpaces_rest, R. simpl.
  now rewrite Nat.add_0_r, setPos_self.
Qed.

(** ** Field maps *)

Lemma buildFieldMap_app (a b : list Field) :
  forall i m,
    buildFieldMap (a ++ b) i m = buildFieldMap b (i + length a) (buildFieldMap a i m).
Proof.
  induction a as [|f a IH]; intros i m; simpl.
  - now rewrite Nat.add_0_r.
  - destruct (negb (IsExported f)); rewrite IH; f_equal; lia.
Qed.

Lemma buildFieldMap_miss (fs : list Field) (k : bytes) :
  forall i m,
    (forall f, In f fs -> IsExported f = true -> fieldName f <> k) ->
    buildFieldMap fs i m k = m k.
Proof.
  induction fs as [|f r IH]; intros i m H; [reflexivity|].
  simpl. destruct (IsExported f) eqn:E; simpl.
  - rewrite IH by (intros g Hg; apply H; now right).
    unfold setField. rewrite bytes_eqb_neq; [reflexivity|].
    intros ->. now apply (H f (or_introl eq_refl) E).
  - apply IH. intros g Hg. apply H. now right.
Qed.

Lemma filter_exported_app (a b : list Field) :
  map fieldName (filter IsExported (a ++ b))
  = map fieldName (filter IsExported a) ++ map fieldName (filter IsExported b).
Proof. now rewrite filter_app, map_app. Qed.

(** With distinct keys, the key of an exported field leads to its index. *)
Lemma buildFieldMap_lookup (fs1 fs2 : list Field) (f : Field) :
  IsExported f = true ->
  NoDup (map fieldName (filter IsExported (fs1 ++ f :: fs2))) ->
  buildFieldMap (fs1 ++ f :: fs2) 0 emptyFieldMap (fieldName f) = Some (length fs1).
Proof.
  intros E ND. rewrite buildFieldMap_app. simpl. rewrite E. simpl.
  rewrite filter_exported_app in ND. simpl in ND. rewrite E in ND. simpl in ND.
  apply NoDup_remove_2 in ND.
  rewrite buildFieldMap_miss.
  - unfold setField. now rewrite bytes_eqb_refl.
  - intros g Hg Eg Heq. apply ND. apply in_or_app. right.
    rewrite <- Heq. apply in_map. apply filter_In. now split.
Qed.

(** ** One step of the scanner on known input *)

Lemma at_cons (p : parser) (c : byte) (r : bytes) :
  rest p = c :: r ->
  peek p = c /\ eof p = false /\ advance p = setPos p (pos p + 1)
  /\ rest (setPos p (pos p + 1)) = r.
Proof.
  intros R. repeat split.
  - now rewrite peek_rest, R.
  - now rewrite eof_rest, R.
  - now rewrite advance_rest, R.
  - now apply (rest_app_cons p c r).
Qed.

Lemma rest_after (p : parser) (a Y : bytes) :
  rest p = a ++ Y -> rest (setPos p (pos p + length a)) = Y.
Proof.
  intros R. rewrite rest_setPos, R, skipn_app, Nat.sub_diag, skipn_all. reflexivity.
Qed.

Lemma zero_struct (fs : list Field) : zero (TStruct fs) = VStruct fs (zeroFields fs).
Proof.
  simpl. f_equal. induction fs as [|[n t ty] r IH]; [reflexivity|].
  simpl. now rewrite IH.
Qed.

Lemma setNth_zeroFields (fs : list Field) (i : nat) :
  setNth i (zero (fieldType fs i)) (zeroFields fs) = zeroFields fs.
Proof.
  revert i. induction fs as [|f r IH]; intros i; [reflexivity|].
  destruct i; [reflexivity|]. simpl. f_equal. apply IH.
Qed.

(** The loop of [decodeStruct] at a key with an empty right-hand side:
    the key is followed by the equals sign and then, at once, by a
    semicolon or the closing brace. *)
Lemma decodeStruct_loop_empty_rhs (fuel : nat) (p : parser) (fs : list Field)
  (fm : FieldMap) (vals : list Val) (key : bytes) (t : byte) (X : bytes) :
  goodKey key = true ->
  t = ";" \/ t = "}" ->
  rest p = key ++ "=" :: t :: X ->
  decodeStruct_loop (S fuel) p fs fm vals
  = decodeStruct_loop fuel
      (skipSpaces (setPos p (pos p + length key + 1 + (if beq t ";" then 1 else 0))))
      fs fm
      (match fm key with
       | Some i => setNth i (zero (fieldType fs i)) vals
       | None => vals
       end).
Proof.
  intros GK Ht R. destruct (goodKey_parts key GK) as [TK NE].
  assert (B : isBlank t = false /\ (beq t ";" || beq t "}") = true
              /\ isDelim t = true)
    by (destruct Ht as [-> | ->]; repeat split).
  destruct B as (Bt & Et & _).
  destruct key as [|c key]; [congruence|].
  assert (Hc : tokenByte c = true)
    by (simpl in TK; now apply andb_true_iff in TK).
  destruct (tokenByte_parts c Hc) as (Dc & _ & _).
  destruct (at_cons p c _ R) as (P0 & E0 & _ & _).
  cbn [decodeStruct_loop]. rewrite E0, P0.
  assert (C : beq c "}" = false).
  { destruct (beq c "}") eqn:C; [|reflexivity].
    apply beq_true in C. rewrite C in Dc. vm_compute in Dc. discriminate Dc. }
  rewrite C. cbn [orb].
  rewrite (readBareToken_token p (c :: key) "=" (t :: X) TK NE eq_refl R).
  set (p1 := setPos p (pos p + length (c :: key))).
  assert (R1 : rest p1 = "=" :: t :: X) by (apply (rest_after p (c :: key)); exact R).
  rewrite (skipSpaces_not_blank p1 "=" _ R1 eq_refl).
  destruct (at_cons p1 "=" _ R1) as (P1 & _ & A1 & R2).
  rewrite P1, A1. cbn [beq Ascii.eqb Bool.eqb andb negb].
  set (p2 := setPos p1 (pos p1 + 1)) in *.
  rewrite (skipSpaces_not_blank p2 t _ R2 Bt).
  destruct (at_cons p2 t _ R2) as (P2 & _ & A2 & R3).
  rewrite P2, Et, A2.
  assert (Q : (if beq t ";" then setPos p2 (pos p2 + 1) else p2)
              = setPos p (pos p + length (c :: key) + 1
                          + (if beq t ";" then 1 else 0))).
  { unfold p2, p1. destruct (beq t ";"); cbn [pos setPos]; rewrite ?setPos_setPos;
      f_equal; lia. }
  rewrite Q. now destruct (fm (c :: key)).
Qed.

(** ** Steps of the record decoder *)

Lemma decodeValue_struct (f : nat) (p : parser) (fs : list Field) (vals : list Val) :
  decodeValue (S f) p (VStruct fs vals) = decodeStruct f (skipSpaces p) fs vals.
Proof. reflexivity. Qed.

Lemma decodeStruct_open (f : nat) (p : parser) (fs : list Field) (vals : list Val)
  (c : byte) (Y : bytes) :
  rest p = "{" :: c :: Y -> isBlank c = false ->
  decodeStruct (S f) p fs vals
  = match decodeStruct_loop f (setPos p (pos p + 1)) fs
            (buildFieldMap fs 0 emptyFieldMap) vals with
    | Done (vals, q) =>
        if negb (beq (peek q) "}") then Fail ErrStructClose
        else Done (VStruct fs vals, advance q)
    | Fail e => Fail e
    | OutOfFuel => OutOfFuel
    end.
Proof.
  intros R B. destruct (at_cons p "{" _ R) as (P0 & _ & A0 & R1).
  cbn [decodeStruct]. rewrite P0, A0. cbn [beq Ascii.eqb Bool.eqb andb negb].
  now rewrite (skipSpaces_not_blank _ c Y R1 B).
Qed.

Lemma decodeStruct_loop_close (f : nat) (p : parser) (fs : list Field)
  (fm : FieldMap) (vals : list Val) (X : bytes) :
  rest p = "}" :: X ->
  decodeStruct_loop (S f) p fs fm vals = Done (vals, p).
Proof.
  intros R. destruct (at_cons p "}" _ R) as (P0 & E0 & _ & _).
  cbn [decodeStruct_loop]. rewrite E0, P0. reflexivity.
Qed.

Lemma Unmarshal_record (fuel : nat) (data : bytes) (fs : list Field) (vals : list Val)
  (c : byte) (Y : bytes) :
  data = c :: Y -> isBlank c = false ->
  Unmarshal fuel data (VPtrTo (VStruct fs vals))
  = match decodeValue fuel (mkParser data 0) (VStruct fs vals) with
    | Done (d, _) => Done d
    | Fail e => Fail e
    | OutOfFuel => OutOfFuel
    end.
Proof.
  intros -> B. unfold Unmarshal. cbn [isSliceKind andb].
  now rewrite (skipSpaces_not_blank (mkParser (c :: Y) 0) c Y eq_refl B).
Qed.

(** ** Grounding *)

Lemma isZeroValue_zero (t : Ty) : isZeroValue (zero t) = groundsToEmpty t.
Proof.
  destruct t; try reflexivity.
  simpl. now rewrite repeat_length.
Qed.

Lemma setNth_same {A : Type} (l : list A) :
  forall i d, setNth i (nth i l d) l = l.
Proof.
  induction l as [|y r IH]; intros i d; [reflexivity|].
  destruct i; simpl; [reflexivity | now rewrite IH].
Qed.

Lemma encodeStruct_loop_app (enc : bytes -> Val -> Z -> bool -> res bytes)
  (fs2 : list Field) (vs2 : list Val) (level : Z) (compact : bool) (fs1 : list Field) :
  forall vs1 b first,
    length fs1 = length vs1 ->
    encodeStruct_loop enc b (fs1 ++ fs2) (vs1 ++ vs2) level compact first
    = match encodeStruct_loop enc b fs1 vs1 level compact first with
      | Ok b1 => encodeStruct_loop enc b1 fs2 vs2 level compact (first && noneExported fs1)
      | Err e => Err e
      end.
Proof.
  induction fs1 as [|f fs1 IH]; intros vs1 b first L.
  - destruct vs1; [|discriminate]. simpl. now rewrite andb_true_r.
  - destruct vs1 as [|v vs1]; [discriminate|]. injection L as L.
    cbn [app encodeStruct_loop noneExported forallb].
    destruct (negb (IsExported f)).
    + rewrite (IH vs1 b first L). reflexivity.
    + cbn [andb]. rewrite andb_false_r.
      destruct (isZeroValue v).
      * rewrite (IH vs1 _ false L). reflexivity.
      * destruct (enc _ v (level + 1)%Z compact); [|reflexivity].
        rewrite (IH vs1 _ false L). reflexivity.
Qed.

(** C3 as stated fails for a field of record type: its zero value is
    not written as an empty right-hand side but as a nested object, since
    [isZeroValue] has no case for records. *)
Lemma zero_record_field_is_not_written_empty :
  isZeroValue (zero (Type_ outerField)) = false
  /\ Marshal (fun _ => []) (fun _ => false)
       (VStruct [outerField] [zero (Type_ outerField)])
     = Ok (bs "{inner={a=}}").
Proof. split; reflexivity. Qed.

(** ** Integers through [ParseFloat] *)

Lemma roundF64_exact (neg : bool) (m : N) :
  (0 < m < 2 ^ 53)%N ->
  roundF64 neg m 1
  = (FFin neg (m * 2 ^ (52 - N.log2 m)) (Z.of_N (N.log2 m) - 52), false).
Proof.
  intros [Hpos Hlt].
  assert (Hspec : (2 ^ N.log2 m <= m < 2 ^ N.succ (N.log2 m))%N)
    by (apply N.log2_spec; lia).
  assert (HL : (N.log2 m <= 52)%N).
  { destruct (N.le_gt_cases (N.log2 m) 52) as [H|H]; [exact H|].
    exfalso. assert (2 ^ 53 <= 2 ^ N.log2 m)%N by (apply N.pow_le_mono_r; lia). lia. }
  set (L := N.log2 m) in *.
  set (k := (52 - L)%N).
  assert (Hq : (2 ^ 52 <= m * 2 ^ k < 2 ^ 53)%N).
  { unfold k. split.
    - replace (2 ^ 52)%N with (2 ^ L * 2 ^ (52 - L))%N
        by (rewrite <- N.pow_add_r; f_equal; lia).
      apply N.mul_le_mono_r. lia.
    - replace (2 ^ 53)%N with (2 ^ N.succ L * 2 ^ (52 - L))%N
        by (rewrite <- N.pow_add_r; f_equal; lia).
      apply N.mul_lt_mono_pos_r; [|lia].
      apply N.neq_0_lt_0. apply N.pow_nonzero. lia. }
  assert (SD : scaleDiv m 1 (Z.of_N L - 52) = ((m * 2 ^ k)%N, 0%N, 1%N)).
  { unfold scaleDiv.
    destruct (Z.leb_spec 0 (Z.of_N L - 52)) as [H|H].
    - replace (Z.to_N (Z.of_N L - 52)) with 0%N by lia.
      replace k with 0%N by (unfold k; lia).
      change (2 ^ 0)%N with 1%N.
      rewrite !N.mul_1_r, N.div_1_r, N.mod_1_r. reflexivity.
    - replace (Z.to_N (- (Z.of_N L - 52))) with k by (unfold k; lia).
      rewrite N.div_1_r, N.mod_1_r. reflexivity. }
  unfold roundF64.
  destruct (N.eqb_spec m 0); [lia|].
  assert (BE : binExp m 1 = (Z.of_N L - 52)%Z).
  { unfold binExp. fold L. replace (N.log2 1) with 0%N by reflexivity.
    replace (Z.of_N L - Z.of_N 0 - 52)%Z with (Z.of_N L - 52)%Z by lia.
    rewrite SD.
    destruct (N.ltb_spec (m * 2 ^ k) (2 ^ 52)); [lia|]. lia. }
  rewrite BE, SD.
  assert (RH : forall q, roundHalfEven q 0 1 = q) by reflexivity.
  rewrite RH.
  destruct (N.eqb_spec (m * 2 ^ k) (2 ^ 53)); [lia|].
  destruct (Z.ltb_spec 971 (Z.of_N L - 52)); [lia|].
  destruct (N.eqb_spec (m * 2 ^ k) 0); [lia|].
  reflexivity.
Qed.

Lemma truncF64_exact (neg : bool) (m : N) :
  (0 < m < 2 ^ 53)%N ->
  truncF64 (fst (roundF64 neg m 1))
  = Some (if neg then (- Z.of_N m)%Z else Z.of_N m).
Proof.
  intros H. rewrite (roundF64_exact neg m H). cbn [fst truncF64].
  assert (HL : (N.log2 m <= 52)%N).
  { destruct (N.le_gt_cases (N.log2 m) 52) as [G|G]; [exact G|].
    exfalso.
    assert (2 ^ N.log2 m <= m)%N by (apply N.log2_spec; lia).
    assert (2 ^ 53 <= 2 ^ N.log2 m)%N by (apply N.pow_le_mono_r; lia). lia. }
  f_equal.
  assert (E : (if (0 <=? Z.of_N (N.log2 m) - 52)%Z
               then (Z.of_N (m * 2 ^ (52 - N.log2 m)) * 2 ^ (Z.of_N (N.log2 m) - 52))%Z
               else (Z.of_N (m * 2 ^ (52 - N.log2 m)) / 2 ^ (- (Z.of_N (N.log2 m) - 52)))%Z)
              = Z.of_N m).
  { destruct (Z.leb_spec 0 (Z.of_N (N.log2 m) - 52)) as [G|G].
    - replace (N.log2 m) with 52%N by lia. simpl. lia.
    - rewrite N2Z.inj_mul, N2Z.inj_pow.
      replace (- (Z.of_N (N.log2 m) - 52))%Z with (Z.of_N (52 - N.log2 m)) by lia.
      apply Z.div_mul. apply Z.pow_nonzero; lia. }
  now rewrite E.
Qed.

Lemma digit_facts (c : byte) :
  isDigit c = true ->
  lower c = c /\ beq c "i" = false /\ beq c "n" = false /\ beq c "_" = false
  /\ beq c "." = false /\ beq c "+" = false /\ beq c "-" = false
  /\ beq c "x" = false /\ beq c "e" = false /\ tokenByte c = true
  /\ (digitVal c < 10)%N /\ (beq c "0" = true -> digitVal c = 0%N).
Proof.
  destruct c as [b0 b1 b2 b3 b4 b5 b6 b7].
  destruct b0, b1, b2, b3, b4, b5, b6, b7; intros H; try discriminate H;
    repeat split; try reflexivity; try discriminate; vm_compute; congruence.
Qed.

Lemma digitChar_facts (d : N) :
  (d < 10)%N -> isDigit (digitChar d) = true /\ digitVal (digitChar d) = d.
Proof.
  intros H.
  assert (C : (d = 0 \/ d = 1 \/ d = 2 \/ d = 3 \/ d = 4 \/ d = 5 \/ d = 6
              \/ d = 7 \/ d = 8 \/ d = 9)%N) by lia.
  repeat (destruct C as [-> | C]; [split; reflexivity|]).
  subst d. split; reflexivity.
Qed.

Lemma fold_decStep_app (a : N) (ds : list ascii) (c : ascii) :
  fold_left decStep (ds ++ [c]) a = decStep (fold_left decStep ds a) c.
Proof. now rewrite fold_left_app. Qed.

Lemma formatUint_loop_spec (fuel : nat) :
  forall n acc, (n < 2 ^ N.of_nat fuel)%N ->
    exists ds,
      formatUint_loop fuel n acc = ds ++ acc
      /\ forallb isDigit ds = true
      /\ (forall a, fold_left decStep ds a = a * 10 ^ N.of_nat (length ds) + n)%N
      /\ (0 < fuel -> ds <> []).
Proof.
  induction fuel as [|f IH]; intros n acc H.
  - exists []. simpl in *. repeat split; try lia.
  - cbn [formatUint_loop].
    assert (D : (n mod 10 < 10)%N) by (apply N.mod_lt; lia).
    destruct (digitChar_facts _ D) as [D1 D2].
    destruct (N.ltb_spec n 10) as [L|L].
    + exists [digitChar (n mod 10)]. repeat split.
      * cbn [forallb]. now rewrite D1.
      * intros a. cbn [fold_left length]. unfold decStep. rewrite D2.
        rewrite N.mod_small by exact L. change (10 ^ 1)%N with 10%N. lia.
      * discriminate.
    + assert (H' : (n / 10 < 2 ^ N.of_nat f)%N).
      { rewrite Nat2N.inj_succ, N.pow_succ_r' in H.
        apply N.Div0.div_lt_upper_bound. lia. }
      destruct (IH (n / 10)%N (digitChar (n mod 10) :: acc) H') as (ds & E & A & V & _).
      exists (ds ++ [digitChar (n mod 10)]). repeat split.
      * rewrite E, <- app_assoc. reflexivity.
      * rewrite forallb_app, A. cbn [forallb andb]. now rewrite D1.
      * intros a. rewrite fold_decStep_app, V. unfold decStep. rewrite D2.
        rewrite length_app. cbn [length].
        rewrite Nat2N.inj_add. change (N.of_nat 1) with 1%N.
        rewrite N.pow_add_r. change (10 ^ 1)%N with 10%N.
        pose proof (N.div_mod n 10 ltac:(lia)). lia.
      * intros _ C. now destruct ds.
Qed.

Lemma formatUint_spec (n : N) :
  forallb isDigit (formatUint n) = true /\ decval (formatUint n) = n
  /\ formatUint n <> [].
Proof.
  unfold formatUint.
  assert (H : (n < 2 ^ N.of_nat (S (N.to_nat (N.log2 n))))%N).
  { rewrite Nat2N.inj_succ, N2Nat.id.
    destruct (N.eq_dec n 0) as [-> | NZ]; [reflexivity|].
    apply N.log2_spec. lia. }
  destruct (formatUint_loop_spec _ n [] H) as (ds & E & A & V & NE).
  rewrite E, app_nil_r. repeat split; [exact A | | apply NE; lia].
  unfold decval. rewrite V. lia.
Qed.

Lemma readMant_digits (ds : list ascii) :
  forall st,
    forallb isDigit ds = true ->
    sawdot st = false ->
    (0 <= nd st)%Z ->
    (nd st = 0%Z -> mantissa st = 0%N) ->
    exists st',
      readMant false ds st = (st', [])
      /\ sawdot st' = false
      /\ underscores st' = underscores st
      /\ sawdigits st' = (sawdigits st || negb (length ds =? 0))
      /\ mantissa st' = fold_left decStep ds (mantissa st).
Proof.
  induction ds as [|c r IH]; intros st D SD ND INV.
  - exists st. simpl. rewrite orb_false_r. now repeat split.
  - cbn [forallb] in D. apply andb_true_iff in D. destruct D as [Dc Dr].
    destruct (digit_facts c Dc) as (_ & _ & _ & U & P & _ & _ & _ & _ & _ & _ & Z0).
    cbn [readMant]. rewrite U, P, Dc.
    destruct (beq c "0" && (nd st =? 0)%Z) eqn:LZ.
    + apply andb_true_iff in LZ. destruct LZ as [C0 N0].
      apply Z.eqb_eq in N0.
      destruct (IH (mkMant (sawdot st) true (underscores st) (nd st) (dp st - 1)%Z
                      (mantissa st)) Dr SD ND INV)
        as (st' & E & A & B & C & M).
      exists st'. cbn [sawdot underscores sawdigits mantissa] in *.
      repeat split; try assumption.
      * rewrite C. cbn [length Nat.eqb negb]. now rewrite orb_true_r.
      * rewrite M. cbn [fold_left].
        replace (decStep (mantissa st) c) with (mantissa st); [reflexivity|].
        unfold decStep. rewrite (INV N0), (Z0 C0). reflexivity.
    + destruct (IH (mkMant (sawdot st) true (underscores st) (nd st + 1)%Z (dp st)
                      (mantissa st * 10 + digitVal c)%N) Dr SD)
        as (st' & E & A & B & C & M).
      * cbn [nd]. lia.
      * cbn [nd]. lia.
      * exists st'. cbn [sawdot underscores sawdigits mantissa] in *.
        repeat split; try assumption.
        rewrite C. cbn [length Nat.eqb negb]. now rewrite orb_true_r.
Qed.

Lemma splitSign_digit (c : byte) (r : list ascii) :
  isDigit c = true -> splitSign (c :: r) = (false, c :: r).
Proof.
  destruct c as [b0 b1 b2 b3 b4 b5 b6 b7].
  destruct b0, b1, b2, b3, b4, b5, b6, b7; intros H; try discriminate H; reflexivity.
Qed.

Lemma splitHex_digits (s : list ascii) :
  forallb isDigit s = true -> splitHex s = (false, s).
Proof.
  intros H. destruct s as [|a [|x [|c r]]]; try reflexivity;
    try (destruct a as [b0 b1 b2 b3 b4 b5 b6 b7];
         destruct b0, b1, b2, b3, b4, b5, b6, b7; reflexivity).
  cbn [forallb] in H. apply andb_true_iff in H. destruct H as [_ H].
  apply andb_true_iff in H. destruct H as [Hx _].
  destruct (digit_facts x Hx) as (Lx & _ & _ & _ & _ & _ & _ & Xx & _).
  destruct a as [b0 b1 b2 b3 b4 b5 b6 b7].
  destruct b0, b1, b2, b3, b4, b5, b6, b7; try reflexivity.
  cbn [splitHex]. now rewrite Lx, Xx.
Qed.

Lemma special_digit (c : byte) (r : list ascii) :
  isDigit c = true ->
  special (c :: r) = None /\ special ("-" :: c :: r) = None.
Proof.
  destruct c as [b0 b1 b2 b3 b4 b5 b6 b7].
  destruct b0, b1, b2, b3, b4, b5, b6, b7; intros H; try discriminate H;
    split; reflexivity.
Qed.

(** [ParseFloat] on an optional minus sign and decimal digits. *)
Lemma ParseFloat_digits (neg : bool) (ds : list ascii) :
  forallb isDigit ds = true -> ds <> [] ->
  ParseFloat ((if neg then ["-"] else []) ++ ds)
  = (let '(f, over) := roundF64 neg (decval ds * 1) 1 in
     if over then Err ErrRange else Ok f).
Proof.
  intros D NE. destruct ds as [|c r]; [congruence|].
  assert (Dc : isDigit c = true) by (cbn [forallb] in D; now apply andb_true_iff in D).
  destruct (special_digit c r Dc) as [S1 S2].
  destruct (readMant_digits (c :: r) mant0 D eq_refl ltac:(simpl; lia) ltac:(reflexivity))
    as (st & E & A & B & C & M).
  cbn [length Nat.eqb negb sawdigits mant0 orb] in C.
  cbn [underscores mant0] in B. cbn [mantissa mant0] in M. fold (decval (c :: r)) in M.
  assert (Fin : forall s, finishFloat s neg false st (nd st) (nd st) false []
                = (let '(f, over) := roundF64 neg (decval (c :: r) * 1) 1 in
                   if over then Err ErrRange else Ok f)).
  { intros s. unfold finishFloat. cbn [andb]. rewrite M.
    destruct (decval (c :: r) =? 0)%N eqn:Z0.
    - reflexivity.
    - rewrite Z.sub_diag. reflexivity. }
  unfold ParseFloat. destruct neg; cbn [app].
  - rewrite S2. cbn [splitSign]. rewrite (splitHex_digits (c :: r) D), E.
    rewrite C, A, B. cbn [negb]. apply Fin.
  - rewrite S1. rewrite (splitSign_digit c r Dc), (splitHex_digits (c :: r) D), E.
    rewrite C, A, B. cbn [negb]. apply Fin.
Qed.

Lemma ParseFloat_formatInt (z : Z) :
  (z <> 0)%Z -> (Z.abs z < 2 ^ 53)%Z ->
  exists f, ParseFloat (formatInt z) = Ok f /\ truncF64 f = Some z.
Proof.
  intros NZ B. unfold formatInt.
  destruct (formatUint_spec (Z.abs_N z)) as (D & V & NE).
  assert (R : (0 < Z.abs_N z < 2 ^ 53)%N) by lia.
  pose proof (ParseFloat_digits (z <? 0)%Z (formatUint (Z.abs_N z)) D NE) as P.
  rewrite V, N.mul_1_r in P.
  pose proof (truncF64_exact (z <? 0)%Z _ R) as T.
  rewrite (roundF64_exact _ _ R) in P, T. cbn [fst] in T.
  destruct (Z.ltb_spec z 0) as [L|L]; eexists; (split; [exact P|]);
    rewrite T; f_equal; lia.
Qed.

(** ** Scalars read back from the encoder's text *)

Lemma digit_tokenByte (ds : list ascii) :
  forallb isDigit ds = true -> forallb tokenByte ds = true.
Proof.
  intros H. apply forallb_forall. intros c Hc. rewrite forallb_forall in H.
  now destruct (digit_facts c (H c Hc)) as (_ & _ & _ & _ & _ & _ & _ & _ & _ & T & _).
Qed.

Lemma formatInt_token (z : Z) :
  forallb tokenByte (formatInt z) = true /\ formatInt z <> [].
Proof.
  destruct (formatUint_spec (Z.abs_N z)) as (D & _ & NE).
  unfold formatInt. destruct (z <? 0)%Z.
  - split; [|discriminate]. cbn [forallb]. now rewrite (digit_tokenByte _ D).
  - split; [now apply digit_tokenByte | exact NE].
Qed.

Lemma token_head (k : list ascii) (Y : list ascii) :
  forallb tokenByte k = true -> k <> [] ->
  exists c r, k ++ Y = c :: r /\ isBlank c = false /\ tokenByte c = true.
Proof.
  intros T NE. destruct k as [|c k]; [congruence|].
  cbn [forallb] in T. apply andb_true_iff in T. destruct T as [Tc _].
  exists c, (k ++ Y). repeat split; [now apply tokenByte_not_blank | exact Tc].
Qed.

(** Reading back an integer written with [%d]. *)
Lemma decodeValue_int_text (f : nat) (p : parser) (k : IntKind) (n old : Z)
  (d : byte) (Y : list ascii) :
  n <> 0%Z -> fitsInt k n -> (Z.abs n < 2 ^ 53)%Z ->
  rest p = formatInt n ++ d :: Y -> isDelim d = true ->
  decodeValue (S f) p (VInt k old)
  = Done (VInt k n, setPos p (pos p + length (formatInt n))).
Proof.
  intros NZ F B R Dd.
  destruct (formatInt_token n) as [T NE].
  destruct (token_head _ (d :: Y) T NE) as (c & r & E & Bc & _).
  destruct (ParseFloat_formatInt n NZ B) as (x & PF & TR).
  cbn [decodeValue].
  rewrite (skipSpaces_not_blank p c r (eq_trans R E) Bc).
  unfold parseNumber.
  rewrite (readBareToken_token p _ d Y T NE Dd R).
  destruct (formatInt n) as [|a l] eqn:FI; [congruence|].
  rewrite PF. unfold SetInt.
  rewrite (F64toInt64_trunc x n TR (fitsInt_64 k n F)).
  now rewrite (wrapInt_fits k n F).
Qed.

Lemma decodeValue_uint_text (f : nat) (p : parser) (k : UintKind) (n old : Z)
  (d : byte) (Y : list ascii) :
  n <> 0%Z -> fitsUint k n -> (n < 2 ^ 53)%Z ->
  rest p = formatInt n ++ d :: Y -> isDelim d = true ->
  decodeValue (S f) p (VUint k old)
  = Done (VUint k n, setPos p (pos p + length (formatInt n))).
Proof.
  intros NZ F B R Dd.
  assert (P0 : (0 <= n)%Z) by (unfold fitsUint in F; lia).
  destruct (formatInt_token n) as [T NE].
  destruct (token_head _ (d :: Y) T NE) as (c & r & E & Bc & _).
  destruct (ParseFloat_formatInt n NZ ltac:(lia)) as (x & PF & TR).
  cbn [decodeValue].
  rewrite (skipSpaces_not_blank p c r (eq_trans R E) Bc).
  unfold parseNumber.
  rewrite (readBareToken_token p _ d Y T NE Dd R).
  destruct (formatInt n) as [|a l] eqn:FI; [congruence|].
  rewrite PF. unfold SetUint.
  rewrite (F64toUint64_trunc x n TR (fitsUint_64 k n F)).
  now rewrite (wrapUint_fits k n F).
Qed.

Lemma decodeValue_true_text (f : nat) (p : parser) (old : bool)
  (d : byte) (Y : list ascii) :
  rest p = bs "true" ++ d :: Y -> isDelim d = true ->
  decodeValue (S f) p (VBool old) = Done (VBool true, setPos p (pos p + 4)).
Proof.
  intros R Dd. cbn [decodeValue].
  rewrite (skipSpaces_not_blank p "t" (bs "rue" ++ d :: Y) R eq_refl).
  unfold parseBool.
  rewrite (readBareToken_token p (bs "true") d Y eq_refl ltac:(discriminate) Dd R).
  reflexivity.
Qed.

Lemma quoteAscii_cases (c : byte) :
  safeByte c = true ->
  (byteN c <? 128)%N = true /\ beq LF c = false
  /\ ((plainByte c = true /\ quoteAscii c = [c])
      \/ (exists e, quoteAscii c = [BSL; e] /\ unescape e = c)).
Proof.
  destruct c as [b0 b1 b2 b3 b4 b5 b6 b7].
  destruct b0, b1, b2, b3, b4, b5, b6, b7; intros H; try discriminate H;
    (split; [reflexivity|]); (split; [reflexivity|]);
    first [ left; split; reflexivity
          | right; eexists; split; reflexivity ].
Qed.

Lemma quote_loop_ascii (IsPrint : N -> bool) (s : list ascii) :
  forall fuel, length s <= fuel ->
    forallb safeByte s = true ->
    quote_loop IsPrint fuel s = concat (map quoteAscii s).
Proof.
  induction s as [|c s IH]; intros fuel L H.
  - now destruct fuel.
  - destruct fuel as [|f]; [simpl in L; lia|].
    cbn [forallb] in H. apply andb_true_iff in H. destruct H as [Hc Hs].
    destruct (quoteAscii_cases c Hc) as (A & _ & _).
    cbn [quote_loop map concat]. rewrite A.
    rewrite IH; [reflexivity | simpl in L; lia | exact Hs].
Qed.

Lemma containsNewline_safe (s : list ascii) :
  forallb safeByte s = true -> containsNewline s = false.
Proof.
  intros H. unfold containsNewline. induction s as [|c s IH]; [reflexivity|].
  cbn [forallb] in H. apply andb_true_iff in H. destruct H as [Hc Hs].
  destruct (quoteAscii_cases c Hc) as (_ & B & _).
  cbn [existsb]. rewrite B. now apply IH.
Qed.

Lemma parseString_loop_quoted (s : list ascii) :
  forall fuel p buf Y,
    forallb safeByte s = true ->
    rest p = concat (map quoteAscii s) ++ DQ :: Y ->
    length (rest p) <= fuel ->
    parseString_loop fuel p buf
    = (Ok (buf ++ s), setPos p (pos p + (length (concat (map quoteAscii s)) + 1))).
Proof.
  induction s as [|c s IH]; intros fuel p buf Y H R F.
  - cbn [map concat app] in R. destruct fuel as [|f]; [rewrite R in F; simpl in F; lia|].
    rewrite (parseString_loop_close f p buf Y R). now rewrite app_nil_r.
  - cbn [forallb] in H. apply andb_true_iff in H. destruct H as [Hc Hs].
    cbn [map concat] in *. rewrite <- app_assoc in R.
    destruct (quoteAscii_cases c Hc) as (_ & _ & [[Pl Q] | (e & Q & U)]); rewrite Q in *.
    + assert (R1 : rest (setPos p (pos p + 1)) = concat (map quoteAscii s) ++ DQ :: Y)
        by (apply (rest_after p [c]); exact R).
      rewrite (parseString_loop_plain [c] fuel p buf _) by
        (try exact F; try exact R; cbn [forallb]; now rewrite Pl).
      cbn [length].
      rewrite (IH _ (setPos p (pos p + 1)) (buf ++ [c]) Y Hs R1).
      * rewrite <- app_assoc, setPos_setPos. cbn [pos setPos app length].
        do 2 f_equal. lia.
      * rewrite R1. rewrite R in F. cbn [app length] in F. lia.
    + destruct fuel as [|f]; [rewrite R in F; simpl in F; lia|].
      cbn [app] in R.
      assert (R1 : rest (setPos p (pos p + 2)) = concat (map quoteAscii s) ++ DQ :: Y)
        by (apply (rest_after p [BSL; e]); exact R).
      rewrite (parseString_loop_escape f p buf e _ R), U.
      rewrite (IH _ (setPos p (pos p + 2)) (buf ++ [c]) Y Hs R1).
      * rewrite <- app_assoc, setPos_setPos. cbn [pos setPos app length].
        do 2 f_equal. lia.
      * rewrite R1. rewrite R in F. cbn [app length] in F. lia.
Qed.

(** Reading back a string written by [encodeString]. *)
Lemma decodeValue_string_text (IsPrint : N -> bool) (f : nat) (p : parser)
  (s old : list ascii) (d : byte) (Y : list ascii) :
  forallb safeByte s = true ->
  rest p = encodeString IsPrint [] s ++ d :: Y -> isDelim d = true ->
  decodeValue (S f) p (VString old)
  = Done (VString s, setPos p (pos p + length (encodeString IsPrint [] s))).
Proof.
  intros H R Dd. unfold encodeString in *.
  rewrite (containsNewline_safe s H) in *. cbn [app] in *.
  unfold Quote in *. rewrite (quote_loop_ascii IsPrint s _ (le_n _) H) in *.
  set (q := concat (map quoteAscii s)) in *.
  cbn [app] in R. rewrite <- app_assoc in R. cbn [app] in R.
  destruct (at_cons p DQ _ R) as (P0 & E0 & A0 & R1).
  cbn [decodeValue].
  rewrite (skipSpaces_not_blank p DQ _ R eq_refl).
  unfold parseStringValue. rewrite P0. rewrite beq_refl.
  assert (NT : bytes_eqb (peekAhead 3 p) tripleQuote = false).
  { rewrite peekAhead_rest, R. unfold q, tripleQuote.
    destruct s as [|c s].
    - cbn [map concat app firstn bytes_eqb]. rewrite !beq_refl. cbn [andb].
      destruct (beq d DQ) eqn:E; [|reflexivity].
      apply beq_true in E. subst d. discriminate Dd.
    - cbn [forallb] in H. apply andb_true_iff in H. destruct H as [Hc _].
      cbn [map concat].
      destruct (quoteAscii_cases c Hc) as (_ & _ & [[Pl Q] | (e & Q & U)]); rewrite Q.
      + cbn [app firstn bytes_eqb]. rewrite !beq_refl. cbn [andb].
        unfold plainByte in Pl. apply andb_true_iff in Pl. destruct Pl as [_ Pl].
        apply negb_true_iff in Pl. now rewrite Pl.
      + reflexivity. }
  rewrite NT. unfold parseString. rewrite next_rest, R. rewrite beq_refl. cbn [negb].
  rewrite (parseString_loop_quoted s _ (setPos p (pos p + 1)) [] (d :: Y) H R1)
    by (now rewrite remaining_rest).
  rewrite setPos_setPos. cbn [app pos setPos length].
  rewrite length_app. cbn [length]. unfold q. do 3 f_equal. lia.
Qed.

(** ** Records read back from the encoder's text *)

Lemma not_delim_heads (c : byte) :
  isDelim c = false -> beq c ";" = false /\ beq c "}" = false.
Proof.
  intros D. split.
  - destruct (beq c ";") eqn:E; [|reflexivity].
    apply beq_true in E. rewrite E in D. vm_compute in D. discriminate D.
  - destruct (beq c "}") eqn:E; [|reflexivity].
    apply beq_true in E. rewrite E in D. vm_compute in D. discriminate D.
Qed.

(** The loop of [decodeStruct] at a key of the record followed by a
    value. *)
Lemma decodeStruct_loop_value (fuel : nat) (p : parser) (fs : list Field)
  (fm : FieldMap) (vals : list Val) (key : bytes) (c : byte) (X : bytes) (i : nat) :
  goodKey key = true ->
  rest p = key ++ "=" :: c :: X ->
  isBlank c = false -> beq c ";" = false -> beq c "}" = false ->
  fm key = Some i ->
  decodeStruct_loop (S fuel) p fs fm vals
  = match decodeValue fuel (setPos p (pos p + length key + 1)) (nth i vals VOther) with
    | Done (v, q) => decodeStruct_loop fuel (afterValue q) fs fm (setNth i v vals)
    | Fail e => Fail e
    | OutOfFuel => OutOfFuel
    end.
Proof.
  intros GK R Bc C1 C2 FM. destruct (goodKey_parts key GK) as [TK NE].
  destruct key as [|k0 key]; [congruence|].
  assert (Hk : tokenByte k0 = true)
    by (simpl in TK; now apply andb_true_iff in TK).
  destruct (tokenByte_parts k0 Hk) as (Dk & _ & _).
  destruct (not_delim_heads k0 Dk) as [_ K2].
  destruct (at_cons p k0 _ R) as (P0 & E0 & _ & _).
  cbn [decodeStruct_loop]. rewrite E0, P0, K2. cbn [orb].
  rewrite (readBareToken_token p (k0 :: key) "=" (c :: X) TK NE eq_refl R).
  set (p1 := setPos p (pos p + length (k0 :: key))).
  assert (R1 : rest p1 = "=" :: c :: X) by (apply (rest_after p (k0 :: key)); exact R).
  rewrite (skipSpaces_not_blank p1 "=" _ R1 eq_refl).
  destruct (at_cons p1 "=" _ R1) as (P1 & _ & A1 & R2).
  rewrite P1, A1. cbn [beq Ascii.eqb Bool.eqb andb negb].
  set (p2 := setPos p1 (pos p1 + 1)) in *.
  rewrite (skipSpaces_not_blank p2 c _ R2 Bc).
  destruct (at_cons p2 c _ R2) as (P2 & _ & _ & _).
  rewrite P2, C1, C2. cbn [orb]. rewrite FM.
  assert (Q : p2 = setPos p (pos p + length (k0 :: key) + 1)) by reflexivity.
  rewrite Q.
  destruct (decodeValue fuel _ (nth i vals VOther)) as [[v q]| |]; reflexivity.
Qed.

(** After a value the loop passes one semicolon. *)
Lemma afterValue_semicolon (q : parser) (c : byte) (r : bytes) :
  rest q = ";" :: c :: r -> isBlank c = false ->
  afterValue q = setPos q (pos q + 1).
Proof.
  intros R B. unfold afterValue.
  rewrite (skipSpaces_not_blank q ";" _ R eq_refl).
  destruct (at_cons q ";" _ R) as (P0 & _ & A0 & R1).
  rewrite P0, A0. cbn [beq Ascii.eqb Bool.eqb andb].
  now rewrite (skipSpaces_not_blank _ c r R1 B).
Qed.

Lemma afterValue_close (q : parser) (r : bytes) :
  rest q = "}" :: r -> afterValue q = q.
Proof.
  intros R. unfold afterValue.
  rewrite (skipSpaces_not_blank q "}" _ R eq_refl).
  destruct (at_cons q "}" _ R) as (P0 & _ & _ & _).
  rewrite P0. cbn [beq Ascii.eqb Bool.eqb andb].
  now rewrite (skipSpaces_not_blank q "}" _ R eq_refl).
Qed.

Lemma viewFields_length (view : Val -> Val) (fs : list Field) :
  forall vals, length fs = length vals -> length (viewFields view fs vals) = length fs.
Proof.
  induction fs as [|f fs IH]; intros [|x vals] L; try discriminate L; [reflexivity|].
  injection L as L. cbn [viewFields length]. now rewrite IH.
Qed.

Lemma viewFields_app (view : Val -> Val) (fs1 fs2 : list Field) (vs2 : list Val) :
  forall vs1, length fs1 = length vs1 ->
    viewFields view (fs1 ++ fs2) (vs1 ++ vs2)
    = viewFields view fs1 vs1 ++ viewFields view fs2 vs2.
Proof.
  induction fs1 as [|f fs1 IH]; intros [|x vs1] L; try discriminate L; [reflexivity|].
  injection L as L. cbn [viewFields app]. now rewrite IH.
Qed.

Lemma fieldsOK_length (ok : Val -> Prop) (fs : list Field) :
  forall vals, fieldsOK ok fs vals -> length fs = length vals.
Proof.
  induction fs as [|f fs IH]; intros [|x vals] H; try (now destruct H).
  destruct H as [_ H]. cbn [length]. now rewrite (IH vals H).
Qed.

Lemma zeroFields_cons (f : Field) (fs : list Field) :
  zeroFields (f :: fs) = zero (Type_ f) :: zeroFields fs.
Proof. reflexivity. Qed.

Lemma setNth_app_head {A : Type} (a : list A) (x y : A) (r : list A) :
  setNth (length a) x (a ++ y :: r) = a ++ x :: r.
Proof. induction a as [|z a IH]; [reflexivity|]. simpl. now rewrite IH. Qed.

Lemma nth_app_head {A : Type} (a : list A) (y d : A) (r : list A) :
  nth (length a) (a ++ y :: r) d = y.
Proof. induction a as [|z a IH]; [reflexivity|]. exact IH. Qed.

(** A value of the class that is written empty is the zero value of its
    type, and [exportedView] keeps it. *)
Lemma roundTrips_zero (x : Val) :
  roundTrips x -> isZeroValue x = true ->
  x = zero (typeOf x) /\ exportedView x = x.
Proof.
  destruct x; cbn [roundTrips]; intros H Z; try contradiction; try discriminate Z;
    cbn [isZeroValue] in Z.
  - destruct b; [discriminate Z | now split].
  - apply Z.eqb_eq in Z. subst. now split.
  - apply Z.eqb_eq in Z. subst. now split.
  - destruct s; [now split | discriminate Z].
Qed.

Section RecordText.

Variable sprintV : Val -> bytes.
Variable IsPrint : N -> bool.

Local Abbreviation encV := (encodeValue sprintV IsPrint).

Lemma encodeStruct_loop_from_nil (fs : list Field) (vals : list Val) (b : bytes)
  (level : Z) (compact first : bool) :
  encodeStruct_loop encV b fs vals level compact first
  = prepend b (encodeStruct_loop encV [] fs vals level compact first).
Proof.
  apply encodeStruct_loop_prepend. apply Forall_forall. intros v _ b0 l c.
  apply encodeValue_prepend.
Qed.

(** The text of a record is its fields between braces. *)
Lemma encodeStruct_text (fs : list Field) (vals : list Val) (level : Z) :
  encV [] (VStruct fs vals) level true
  = match encodeStruct_loop encV [] fs vals level true true with
    | Ok t => Ok ("{" :: t ++ ["}"])
    | Err e => Err e
    end.
Proof.
  rewrite encodeValue_struct. unfold encodeStruct. cbn [negb app].
  rewrite encodeStruct_loop_from_nil.
  destruct (encodeStruct_loop encV [] fs vals level true true); reflexivity.
Qed.

Lemma encodeStruct_loop_unexported (f : Field) (fr : list Field) (x : Val) (xr : list Val)
  (b : bytes) (level : Z) (first : bool) :
  IsExported f = false ->
  encodeStruct_loop encV b (f :: fr) (x :: xr) level true first
  = encodeStruct_loop encV b fr xr level true first.
Proof. intros E. cbn [encodeStruct_loop]. now rewrite E. Qed.

(** The text of an exported field followed by the text of the fields
    after it. *)
Lemma encodeStruct_loop_exported (f : Field) (fr : list Field) (x : Val) (xr : list Val)
  (level : Z) (first : bool) :
  IsExported f = true ->
  encodeStruct_loop encV [] (f :: fr) (x :: xr) level true first
  = match (if isZeroValue x then Ok [] else encV [] x (level + 1)%Z true) with
    | Ok vt =>
        prepend ((if first then [] else [";"]) ++ fieldName f ++ ["="] ++ vt)
          (encodeStruct_loop encV [] fr xr level true false)
    | Err e => Err e
    end.
Proof.
  intros E. cbn [encodeStruct_loop]. rewrite E. cbn [negb andb].
  destruct (isZeroValue x).
  - rewrite encodeStruct_loop_from_nil. rewrite app_nil_r.
    destruct first; cbn [negb app]; reflexivity.
  - rewrite encodeValue_prepend.
    destruct (encV [] x (level + 1)%Z true) as [vt|e]; [|reflexivity].
    cbn [prepend]. rewrite encodeStruct_loop_from_nil.
    destruct first; cbn [negb app]; now rewrite <- ?app_assoc.
Qed.

(** The text of the fields after the first one written: nothing, or a
    semicolon and then the text they have as the first fields, which
    begins with a key. *)
Lemma encodeStruct_loop_rest_shape (level : Z) (fs : list Field) :
  forall vals text,
    forallb goodKey (map fieldName (filter IsExported fs)) = true ->
    encodeStruct_loop encV [] fs vals level true false = Ok text ->
    exists t,
      encodeStruct_loop encV [] fs vals level true true = Ok t
      /\ ((text = [] /\ t = [])
          \/ (text = ";" :: t /\ exists c r, t = c :: r /\ tokenByte c = true)).
Proof.
  induction fs as [|f fs IH]; intros [|x vals] text GK H;
    try (cbn [encodeStruct_loop] in *; injection H as <-; exists []; split;
         [reflexivity | now left]).
  destruct (IsExported f) eqn:E.
  - rewrite (encodeStruct_loop_exported f fs x vals level false E) in H.
    rewrite (encodeStruct_loop_exported f fs x vals level true E).
    destruct (if isZeroValue x then Ok [] else encV [] x (level + 1)%Z true)
      as [vt|e]; [|discriminate H].
    destruct (encodeStruct_loop encV [] fs vals level true false) as [s|e];
      [|discriminate H].
    cbn [prepend app] in *. injection H as <-. eexists. split; [reflexivity|].
    right. split; [reflexivity|].
    cbn [filter map forallb] in GK. rewrite E in GK. cbn [map forallb] in GK.
    apply andb_true_iff in GK. destruct GK as [GK _].
    destruct (goodKey_parts _ GK) as [TK NE].
    destruct (fieldName f) as [|c k]; [congruence|].
    cbn [forallb] in TK. apply andb_true_iff in TK. destruct TK as [Tc _].
    exists c. eexists. split; [reflexivity | exact Tc].
  - cbn [filter] in GK. rewrite E in GK.
    rewrite (encodeStruct_loop_unexported f fs x vals [] level false E) in H.
    rewrite (encodeStruct_loop_unexported f fs x vals [] level true E).
    exact (IH vals _ GK H).
Qed.

Lemma encodeStruct_loop_first_shape (level : Z) (fs : list Field) :
  forall vals t,
    forallb goodKey (map fieldName (filter IsExported fs)) = true ->
    encodeStruct_loop encV [] fs vals level true true = Ok t ->
    t = [] \/ exists c r, t = c :: r /\ tokenByte c = true.
Proof.
  induction fs as [|f fs IH]; intros [|x vals] t GK H;
    try (cbn [encodeStruct_loop] in *; injection H as <-; now left).
  destruct (IsExported f) eqn:E.
  - rewrite (encodeStruct_loop_exported f fs x vals level true E) in H.
    destruct (if isZeroValue x then Ok [] else encV [] x (level + 1)%Z true)
      as [vt|e]; [|discriminate H].
    destruct (encodeStruct_loop encV [] fs vals level true false) as [s|e];
      [|discriminate H].
    cbn [prepend app] in *. injection H as <-. right.
    cbn [filter map forallb] in GK. rewrite E in GK. cbn [map forallb] in GK.
    apply andb_true_iff in GK. destruct GK as [GK _].
    destruct (goodKey_parts _ GK) as [TK NE].
    destruct (fieldName f) as [|c k]; [congruence|].
    cbn [forallb] in TK. apply andb_true_iff in TK. destruct TK as [Tc _].
    exists c. eexists. split; [reflexivity | exact Tc].
  - cbn [filter] in GK. rewrite E in GK.
    rewrite (encodeStruct_loop_unexported f fs x vals [] level true E) in H.
    exact (IH vals _ GK H).
Qed.

(** The text of a value of the class that is not written empty begins
    with a byte that is no blank, no semicolon and no closing brace. *)
Lemma value_text_head (x : Val) (level : Z) (vt : bytes) :
  roundTrips x -> isZeroValue x = false ->
  encV [] x level true = Ok vt ->
  exists c r, vt = c :: r /\ isBlank c = false
              /\ beq c ";" = false /\ beq c "}" = false.
Proof.
  destruct x; cbn [roundTrips]; intros H Z E; try contradiction.
  - destruct b; [|discriminate Z]. injection E as <-.
    exists "t". eexists. now repeat split.
  - cbn [encodeValue app] in E. injection E as <-.
    destruct (formatInt_token n) as [T NE].
    destruct (token_head _ [] T NE) as (c & r & Ec & Bc & Tc).
    rewrite app_nil_r in Ec. exists c, r. split; [exact Ec|]. split; [exact Bc|].
    apply not_delim_heads. now destruct (tokenByte_parts c Tc).
  - cbn [encodeValue app] in E. injection E as <-.
    destruct (formatInt_token n) as [T NE].
    destruct (token_head _ [] T NE) as (c & r & Ec & Bc & Tc).
    rewrite app_nil_r in Ec. exists c, r. split; [exact Ec|]. split; [exact Bc|].
    apply not_delim_heads. now destruct (tokenByte_parts c Tc).
  - cbn [encodeValue] in E. injection E as <-. unfold encodeString.
    rewrite (containsNewline_safe s H). cbn [app]. unfold Quote. cbn [app].
    exists DQ. eexists. now repeat split.
  - rewrite encodeStruct_text in E.
    destruct (encodeStruct_loop encV [] _ _ level true true); [|discriminate E].
    injection E as <-. exists "{". eexists. now repeat split.
Qed.

Lemma keysOK_fields (fsd : list Field) (f : Field) (fr : list Field) :
  keysOK (fsd ++ f :: fr) -> IsExported f = true ->
  goodKey (fieldName f) = true
  /\ forallb goodKey (map fieldName (filter IsExported fr)) = true
  /\ buildFieldMap (fsd ++ f :: fr) 0 emptyFieldMap (fieldName f) = Some (length fsd).
Proof.
  intros [ND GK] E. rewrite filter_exported_app, forallb_app in GK.
  apply andb_true_iff in GK. destruct GK as [_ GK].
  cbn [filter] in GK. rewrite E in GK. cbn [map forallb] in GK.
  apply andb_true_iff in GK. destruct GK as [G1 G2].
  repeat split; [exact G1 | exact G2 | now apply buildFieldMap_lookup].
Qed.

Lemma fieldType_app_head (fsd : list Field) (f : Field) (fr : list Field) :
  fieldType (fsd ++ f :: fr) (length fsd) = Type_ f.
Proof.
  unfold fieldType. rewrite nth_error_app2 by lia. now rewrite Nat.sub_diag.
Qed.

Lemma snoc_assoc {A : Type} (a : list A) (x : A) (r : list A) :
  a ++ x :: r = (a ++ [x]) ++ r.
Proof. now rewrite <- app_assoc. Qed.

(** The state of the record loop after one more field. *)
Lemma viewFields_snoc (fsd : list Field) (vsd : list Val) (f : Field) (x : Val)
  (fr : list Field) :
  length fsd = length vsd ->
  viewFields exportedView (fsd ++ [f]) (vsd ++ [x]) ++ zeroFields fr
  = viewFields exportedView fsd vsd
    ++ (if IsExported f then exportedView x else zero (Type_ f)) :: zeroFields fr.
Proof.
  intros L. rewrite (viewFields_app exportedView fsd [f] [x] vsd L).
  cbn [viewFields]. now rewrite <- app_assoc.
Qed.

Lemma rest_after_key (p : parser) (key : bytes) (d : byte) (Y : bytes) :
  rest p = key ++ d :: Y -> rest (setPos p (pos p + length key + 1)) = Y.
Proof.
  intros R.
  replace (pos p + length key + 1) with (pos p + length (key ++ [d]))
    by (rewrite length_app; cbn [length]; lia).
  apply rest_after. now rewrite <- app_assoc.
Qed.

Lemma tailOK_delim (x : Val) (d : byte) (Y : bytes) :
  d = ";" \/ d = "}" -> tailOK x (d :: Y).
Proof. intros H. destruct x; cbn [tailOK]; try exact I; now exists d, Y. Qed.

Ltac same_cursor :=
  rewrite ?setPos_setPos; cbn [pos setPos];
  repeat first [rewrite length_app | progress cbn [length]];
  do 3 f_equal; lia.

(** The loop of [decodeStruct] over the text of the remaining fields,
    given that the value of each of them reads back. *)
Lemma decodeStruct_loop_fields (vsr : list Val) :
  Forall (readsBack sprintV IsPrint) vsr ->
  forall fsr fsd vsd fuel p level text X,
    length fsd = length vsd ->
    keysOK (fsd ++ fsr) ->
    fieldsOK roundTrips fsr vsr ->
    encodeStruct_loop encV [] fsr vsr level true true = Ok text ->
    rest p = text ++ "}" :: X ->
    1 + sumWeights weight vsr <= fuel ->
    decodeStruct_loop fuel p (fsd ++ fsr) (buildFieldMap (fsd ++ fsr) 0 emptyFieldMap)
      (viewFields exportedView fsd vsd ++ zeroFields fsr)
    = Done (viewFields exportedView (fsd ++ fsr) (vsd ++ vsr),
            setPos p (pos p + length text)).
Proof.
  induction 1 as [|x xr Hx _ IH]; intros fsr fsd vsd fuel p level text X L KO FO EN R W.
  - destruct fsr; [|contradiction].
    cbn [encodeStruct_loop] in EN. injection EN as <-. cbn [app length] in *.
    destruct fuel as [|f0]; [cbn [sumWeights] in W; lia|].
    rewrite (decodeStruct_loop_close f0 p _ _ _ X R).
    rewrite !app_nil_r, Nat.add_0_r, setPos_self. reflexivity.
  - destruct fsr as [|f fr]; [contradiction|].
    destruct FO as [FX FO]. cbn [sumWeights] in W.
    assert (NEXT : forall f1 p1 t1,
      encodeStruct_loop encV [] fr xr level true true = Ok t1 ->
      rest p1 = t1 ++ "}" :: X ->
      1 + sumWeights weight xr <= f1 ->
      decodeStruct_loop f1 p1 (fsd ++ f :: fr)
        (buildFieldMap (fsd ++ f :: fr) 0 emptyFieldMap)
        (viewFields exportedView fsd vsd
         ++ (if IsExported f then exportedView x else zero (Type_ f)) :: zeroFields fr)
      = Done (viewFields exportedView (fsd ++ f :: fr) (vsd ++ x :: xr),
              setPos p1 (pos p1 + length t1))).
    { intros f1 p1 t1 E1 R1 W1.
      rewrite <- (viewFields_snoc fsd vsd f x fr L).
      rewrite (snoc_assoc fsd f fr), (snoc_assoc vsd x xr).
      apply (IH fr (fsd ++ [f]) (vsd ++ [x]) f1 p1 level t1 X); try assumption.
      - rewrite !length_app. cbn [length]. lia.
      - now rewrite <- snoc_assoc. }
    assert (LV : length (viewFields exportedView fsd vsd) = length fsd)
      by now apply viewFields_length.
    rewrite zeroFields_cons.
    destruct (IsExported f) eqn:E.
    + destruct (FX eq_refl) as [Tx Rx].
      destruct (keysOK_fields fsd f fr KO E) as (GK & GKr & FM).
      rewrite (encodeStruct_loop_exported f fr x xr level true E) in EN.
      destruct fuel as [|f0]; [lia|].
      destruct (isZeroValue x) eqn:Zx.
      * destruct (roundTrips_zero x Rx Zx) as [Xz Xv].
        assert (ZV : zero (Type_ f) = exportedView x)
          by (rewrite Xv, <- Tx; exact (eq_sym Xz)).
        destruct (encodeStruct_loop encV [] fr xr level true false) as [S0|e] eqn:ES;
          [|discriminate EN].
        cbn [prepend app] in EN. injection EN as <-.
        rewrite <- !app_assoc in R. cbn [app] in R.
        destruct (encodeStruct_loop_rest_shape level fr xr S0 GKr ES)
          as (t1 & ET & [[-> ->] | [-> (c & r & -> & Tc)]]).
        -- rewrite (decodeStruct_loop_empty_rhs f0 p _ _ _ (fieldName f) "}" X GK
                      (or_intror eq_refl) R).
           rewrite FM, fieldType_app_head. cbn [beq Ascii.eqb Bool.eqb andb].
           rewrite Nat.add_0_r.
           pose proof (rest_after_key p _ _ _ R) as R1.
           rewrite (skipSpaces_not_blank _ "}" X R1 eq_refl).
           rewrite <- LV, setNth_app_head, ZV.
           rewrite (NEXT f0 _ [] ET R1 ltac:(lia)). same_cursor.
        -- rewrite (decodeStruct_loop_empty_rhs f0 p _ _ _ (fieldName f) ";" _ GK
                      (or_introl eq_refl) R).
           rewrite FM, fieldType_app_head. cbn [beq Ascii.eqb Bool.eqb andb].
           pose proof (rest_after_key p _ _ _ R) as R1.
           pose proof (rest_after _ [";"] _ R1) as R2.
           cbn [length] in R2. rewrite setPos_setPos in R2. cbn [pos setPos] in R2.
           rewrite (skipSpaces_not_blank _ c _ R2 (tokenByte_not_blank c Tc)).
           rewrite <- LV, setNth_app_head, ZV.
           rewrite (NEXT f0 _ (c :: r) ET R2 ltac:(lia)). same_cursor.
      * destruct (encV [] x (level + 1)%Z true) as [vt|e] eqn:EV; [|discriminate EN].
        destruct (encodeStruct_loop encV [] fr xr level true false) as [S0|e] eqn:ES;
          [|discriminate EN].
        cbn [prepend app] in EN. injection EN as <-.
        destruct (value_text_head x _ vt Rx Zx EV) as (c & r & Evt & Bc & C1 & C2).
        destruct (encodeStruct_loop_rest_shape level fr xr S0 GKr ES) as (t1 & ET & SH).
        assert (R0 : rest p = fieldName f ++ "=" :: vt ++ S0 ++ "}" :: X)
          by (rewrite R; now rewrite <- !app_assoc).
        assert (R' : rest p = fieldName f ++ "=" :: c :: (r ++ S0 ++ "}" :: X))
          by (rewrite R0, Evt; reflexivity).
        rewrite (decodeStruct_loop_value f0 p _ _ _ (fieldName f) c _ (length fsd)
                   GK R' Bc C1 C2 FM).
        pose proof (rest_after_key p _ _ _ R0) as R3.
        assert (TL : tailOK x (S0 ++ "}" :: X))
          by (destruct SH as [[-> _] | [-> _]]; apply tailOK_delim; auto).
        rewrite <- LV, nth_app_head, <- Tx.
        rewrite (Hx f0 _ (level + 1)%Z vt _ Rx Zx EV R3 TL ltac:(lia)).
        rewrite setNth_app_head.
        pose proof (rest_after _ vt _ R3) as R4.
        destruct SH as [[-> ->] | [-> (c1 & r1 & -> & Tc)]].
        -- rewrite (afterValue_close _ X R4).
           rewrite (NEXT f0 _ [] ET R4 ltac:(lia)). same_cursor.
        -- cbn [app] in R4.
           rewrite (afterValue_semicolon _ c1 _ R4 (tokenByte_not_blank c1 Tc)).
           pose proof (rest_after _ [";"] _ R4) as R5. cbn [length] in R5.
           rewrite (NEXT f0 _ (c1 :: r1) ET R5 ltac:(lia)). same_cursor.
    + rewrite (encodeStruct_loop_unexported f fr x xr [] level true E) in EN.
      apply NEXT; [exact EN | exact R | lia].
Qed.

(** Every value reads back from its text. *)
Lemma encodeValue_readsBack (x : Val) : readsBack sprintV IsPrint x.
Proof.
  induction x as [b|k n|k n|k f|s|t|v _|t|t l _|t l _|t|t keys vals _|fs vals IH| |v _| ]
    using Val_nested_ind;
    intros fuel p level vt Y RT Zx EV R TL W; cbn [roundTrips] in RT;
    try contradiction.
  - destruct b; [|discriminate Zx]. injection EV as <-.
    destruct TL as (d & Y' & -> & Hd).
    destruct fuel as [|f0]; [cbn [weight] in W; lia|].
    refine (decodeValue_true_text f0 p false d Y' R _).
    now destruct Hd as [-> | ->].
  - destruct RT as [F B]. cbn [isZeroValue] in Zx. apply Z.eqb_neq in Zx.
    cbn [encodeValue app] in EV. injection EV as <-.
    destruct TL as (d & Y' & -> & Hd).
    destruct fuel as [|f0]; [cbn [weight] in W; lia|].
    refine (decodeValue_int_text f0 p k n 0%Z d Y' Zx F B R _).
    now destruct Hd as [-> | ->].
  - destruct RT as [F B]. cbn [isZeroValue] in Zx. apply Z.eqb_neq in Zx.
    cbn [encodeValue app] in EV. injection EV as <-.
    destruct TL as (d & Y' & -> & Hd).
    destruct fuel as [|f0]; [cbn [weight] in W; lia|].
    refine (decodeValue_uint_text f0 p k n 0%Z d Y' Zx F B R _).
    now destruct Hd as [-> | ->].
  - cbn [encodeValue] in EV. injection EV as <-.
    destruct TL as (d & Y' & -> & Hd).
    destruct fuel as [|f0]; [cbn [weight] in W; lia|].
    refine (decodeValue_string_text IsPrint f0 p s [] d Y' RT R _).
    now destruct Hd as [-> | ->].
  - destruct RT as [KO FO].
    rewrite encodeStruct_text in EV.
    destruct (encodeStruct_loop encV [] fs vals level true true) as [t|e] eqn:EL;
      [|discriminate EV].
    injection EV as <-. cbn [app] in R. rewrite <- app_assoc in R. cbn [app] in R.
    cbn [weight] in W.
    destruct fuel as [|[|f2]]; [lia | lia |].
    cbn [typeOf]. rewrite zero_struct, decodeValue_struct.
    rewrite (skipSpaces_not_blank p "{" _ R eq_refl).
    assert (HD : exists c r, t ++ "}" :: Y = c :: r /\ isBlank c = false).
    { destruct KO as [_ GK].
      destruct (encodeStruct_loop_first_shape level fs vals t GK EL)
        as [-> | (c & r & -> & Tc)].
      - now exists "}", Y.
      - exists c, (r ++ "}" :: Y). split; [reflexivity | now apply tokenByte_not_blank]. }
    destruct HD as (c & r & Ec & Bc).
    rewrite (decodeStruct_open f2 p fs _ c r (eq_trans R (f_equal (cons "{") Ec)) Bc).
    destruct (at_cons p "{" _ R) as (_ & _ & _ & R1).
    pose proof (decodeStruct_loop_fields vals IH fs [] [] f2 _ level t Y
                  eq_refl KO FO EL R1 ltac:(lia)) as DL.
    cbn [app viewFields] in DL. rewrite DL.
    pose proof (rest_after _ t _ R1) as R2.
    destruct (at_cons _ "}" _ R2) as (P2 & _ & A2 & _).
    rewrite P2, A2. cbn [beq Ascii.eqb Bool.eqb andb negb].
    change (exportedView (VStruct fs vals))
      with (VStruct fs (viewFields exportedView fs vals)).
    same_cursor.
Qed.

(** Encoding a value of the class does not fail. *)
Lemma encodeStruct_loop_ok (vals : list Val) :
  Forall (fun x => roundTrips x -> forall level, exists vt, encV [] x level true = Ok vt)
    vals ->
  forall fs level first,
    fieldsOK roundTrips fs vals ->
    exists t, encodeStruct_loop encV [] fs vals level true first = Ok t.
Proof.
  induction 1 as [|x xr Hx _ IH]; intros fs level first FO.
  - exists []. now destruct fs.
  - destruct fs as [|f fr]; [contradiction|]. destruct FO as [FX FO].
    destruct (IsExported f) eqn:E.
    + rewrite (encodeStruct_loop_exported f fr x xr level first E).
      destruct (IH fr level false FO) as [t ->].
      destruct (isZeroValue x).
      * eexists. reflexivity.
      * destruct (FX eq_refl) as [_ Rx].
        destruct (Hx Rx (level + 1)%Z) as [vt ->]. eexists. reflexivity.
    + rewrite (encodeStruct_loop_unexported f fr x xr [] level first E).
      exact (IH fr level first FO).
Qed.

Lemma encodeValue_ok (x : Val) :
  roundTrips x -> forall level, exists vt, encV [] x level true = Ok vt.
Proof.
  induction x as [b|k n|k n|k f|s|t|v _|t|t l _|t l _|t|t keys vals _|fs vals IH| |v _| ]
    using Val_nested_ind;
    intros RT level; cbn [roundTrips] in RT; try contradiction;
    try (eexists; reflexivity).
  destruct RT as [_ FO]. rewrite encodeStruct_text.
  destruct (encodeStruct_loop_ok vals IH fs level true FO) as [t ->].
  eexists. reflexivity.
Qed.

Lemma allExported_struct (fs : list Field) (vals : list Val) :
  allExported (VStruct fs vals) = forallb IsExported fs && forallb allExported vals.
Proof. reflexivity. Qed.

Lemma viewFields_id (vals : list Val) :
  Forall (fun x => roundTrips x -> allExported x = true -> exportedView x = x) vals ->
  forall fs,
    fieldsOK roundTrips fs vals ->
    forallb IsExported fs = true -> forallb allExported vals = true ->
    viewFields exportedView fs vals = vals.
Proof.
  induction 1 as [|x xr Hx _ IH]; intros fs FO EX AE.
  - now destruct fs.
  - destruct fs as [|f fr]; [contradiction|]. destruct FO as [FX FO].
    cbn [forallb] in EX, AE.
    apply andb_true_iff in EX. destruct EX as [E EX].
    apply andb_true_iff in AE. destruct AE as [A AE].
    cbn [viewFields]. rewrite E. destruct (FX E) as [_ Rx].
    now rewrite (Hx Rx A), (IH fr FO EX AE).
Qed.

(** With every field exported nothing is lost in [exportedView]. *)
Lemma exportedView_id (x : Val) :
  roundTrips x -> allExported x = true -> exportedView x = x.
Proof.
  induction x as [b|k n|k n|k f|s|t|v _|t|t l _|t l _|t|t keys vals _|fs vals IH| |v _| ]
    using Val_nested_ind;
    intros RT AE; try reflexivity.
  destruct RT as [_ FO]. rewrite allExported_struct in AE.
  apply andb_true_iff in AE. destruct AE as [EX AE].
  change (exportedView (VStruct fs vals))
    with (VStruct fs (viewFields exportedView fs vals)).
  now rewrite (viewFields_id vals IH fs FO EX AE).
Qed.

(** For a record whose exported fields are strings of
    printable ASCII bytes, tabs and carriage returns, booleans, signed or
    unsigned integers of magnitude below 2^53 that fit their kind, or
    records of the same form, under keys that are distinct tokens:
    [Marshal] returns a text; [Unmarshal] of that text into a zero-valued
    destination of the record's type returns, given fuel of at least
    [weight], the record with its unexported fields at zero at every
    depth; and that is the record itself when every field is exported. *)
Theorem marshal_then_unmarshal_restores_exported_fields :
  forall fs vals,
    roundTrips (VStruct fs vals) ->
    exists text,
      Marshal sprintV IsPrint (VStruct fs vals) = Ok text
      /\ (forall fuel, weight (VStruct fs vals) <= fuel ->
            Unmarshal fuel text (VPtrTo (zero (TStruct fs)))
            = Done (exportedView (VStruct fs vals)))
      /\ (allExported (VStruct fs vals) = true ->
            exportedView (VStruct fs vals) = VStruct fs vals).
Proof.
  intros fs vals RT.
  destruct (encodeValue_ok _ RT 0%Z) as [text EV].
  exists text. split; [exact EV|]. split; [|now apply exportedView_id].
  intros fuel W.
  pose proof EV as EV'. rewrite encodeStruct_text in EV'.
  destruct (encodeStruct_loop encV [] fs vals 0 true true) as [t|e]; [|discriminate EV'].
  injection EV' as ET.
  rewrite zero_struct.
  rewrite (Unmarshal_record fuel text fs _ "{" (t ++ ["}"]) (eq_sym ET) eq_refl).
  pose proof (encodeValue_readsBack (VStruct fs vals) fuel (mkParser text 0) 0%Z text []
                RT eq_refl EV) as RB.
  cbn [typeOf] in RB. rewrite zero_struct in RB.
  rewrite RB; [reflexivity | | exact I | exact W].
  unfold rest. cbn [pos src skipn]. now rewrite app_nil_r.
Qed.

End RecordText.

(** A record with a nested record, a tagged field and an unexported
    field is of the class; its text decodes to the record with the
    unexported field at zero. *)
Lemma marshal_then_unmarshal_restores_exported_fields_witness :
  roundTrips (VStruct nestedFields nestedVals)
  /\ exists text,
       Marshal (fun _ => []) (fun _ => false) (VStruct nestedFields nestedVals) = Ok text
       /\ (forall fuel, weight (VStruct nestedFields nestedVals) <= fuel ->
             Unmarshal fuel text (VPtrTo (zero (TStruct nestedFields)))
             = Done (exportedView (VStruct nestedFields nestedVals)))
       /\ (allExported (VStruct nestedFields nestedVals) = true ->
             exportedView (VStruct nestedFields nestedVals)
             = VStruct nestedFields nestedVals).
Proof.
  assert (RT : roundTrips (VStruct nestedFields nestedVals)).
  { cbn [roundTrips nestedFields nestedVals fieldsOK]. unfold keysOK.
    repeat split; try (vm_compute; congruence);
      try (intros _; repeat split; try (vm_compute; congruence)).
    all: repeat constructor; vm_compute; intuition discriminate. }
  split; [exact RT|].
  exact (marshal_then_unmarshal_restores_exported_fields
           (fun _ => []) (fun _ => false) nestedFields nestedVals RT).
Defined.

(** C1.  The round trip does not hold for every record.  A record with
    one exported 64-bit field holding 2^53 + 1 is written with all its
    digits, and [decodeValue], which reads every number of a record
    through [ParseFloat], gives back 2^53; a table cell with the same
    digits is read with [ParseInt] and keeps them. *)
Theorem marshal_then_unmarshal_rounds_large_integer :
  Marshal (fun _ => []) (fun _ => false) bigCounter = Ok (bs "{n=9007199254740993}")
  /\ (forall fuel,
        Unmarshal (5 + fuel) (bs "{n=9007199254740993}")
          (VPtrTo (zero (typeOf bigCounter)))
        = Done (VStruct counterRecord [VInt Int64 9007199254740992]))
  /\ (forall fuel,
        Unmarshal (5 + fuel) (bs "{(n:9007199254740993;)}")
          (VPtrTo (VSliceNil (TStruct counterRecord)))
        = Done (VSlice (TStruct counterRecord) [bigCounter])).
Proof.
  split; [reflexivity|]. split; intros fuel; vm_compute; reflexivity.
Qed.

(** Further losses: an unexported field is not written and comes back at
    zero; the bell character is written as an escape the decoder does
    not know, and comes back as the letter a. *)
Lemma marshal_then_unmarshal_drops_unexported_field :
  Marshal (fun _ => []) (fun _ => false)
    (VStruct account [VString (bs "Ann"); VInt Int 1234])
  = Ok (bs "{owner=" ++ [DQ] ++ bs "Ann" ++ [DQ] ++ bs "}")
  /\ Unmarshal 8 (bs "{owner=" ++ [DQ] ++ bs "Ann" ++ [DQ] ++ bs "}")
       (VPtrTo (zero (TStruct account)))
     = Done (VStruct account [VString (bs "Ann"); VInt Int 0]).
Proof. split; vm_compute; reflexivity. Qed.

Lemma marshal_then_unmarshal_changes_bell_character :
  Marshal (fun _ => []) (fun _ => false) bellNote
  = Ok (bs "{text=" ++ [DQ; BSL] ++ bs "a" ++ [DQ] ++ bs "}")
  /\ Unmarshal 8 (bs "{text=" ++ [DQ; BSL] ++ bs "a" ++ [DQ] ++ bs "}")
       (VPtrTo (zero (TStruct noteRecord)))
     = Done (VStruct noteRecord [VString (bs "a")]).
Proof. split; vm_compute; reflexivity. Qed.

(** ** Unexported fields *)

Section Unexported.

Variable sprintV : Val -> bytes.
Variable IsPrint : N -> bool.

Local Abbreviation encV := (encodeValue sprintV IsPrint).

Lemma encodeStruct_loop_exported_only (enc : bytes -> Val -> Z -> bool -> res bytes)
  (level : Z) (compact : bool) (fs : list Field) :
  forall vals vals' b first,
    length vals = length fs -> length vals' = length fs ->
    (forall i f, nth_error fs i = Some f -> IsExported f = true ->
                 nth_error vals i = nth_error vals' i) ->
    encodeStruct_loop enc b fs vals level compact first
    = encodeStruct_loop enc b fs vals' level compact first.
Proof.
  induction fs as [|f fr IH]; intros vals vals' b first L L' H.
  - destruct vals, vals'; try discriminate; reflexivity.
  - destruct vals as [|x xr], vals' as [|y yr]; try discriminate.
    injection L as L. injection L' as L'.
    assert (T : forall i g, nth_error fr i = Some g -> IsExported g = true ->
                            nth_error xr i = nth_error yr i)
      by (intros i g Hi Hg; exact (H (S i) g Hi Hg)).
    cbn [encodeStruct_loop]. destruct (IsExported f) eqn:E; cbn [negb].
    + assert (X : x = y)
        by (pose proof (H 0 f eq_refl E) as X; now injection X).
      subst y. destruct (isZeroValue x).
      * now apply IH.
      * destruct (enc _ x (level + 1)%Z compact); [now apply IH | reflexivity].
    + now apply IH.
Qed.

(** Both encoders write the same text for two records that differ only
    in unexported fields: an unexported field is never written. *)
Theorem marshal_ignores_unexported_fields :
  forall fs vals vals',
    length vals = length fs -> length vals' = length fs ->
    (forall i f, nth_error fs i = Some f -> IsExported f = true ->
                 nth_error vals i = nth_error vals' i) ->
    Marshal sprintV IsPrint (VStruct fs vals) = Marshal sprintV IsPrint (VStruct fs vals')
    /\ MarshalBeautify sprintV IsPrint (VStruct fs vals)
       = MarshalBeautify sprintV IsPrint (VStruct fs vals').
Proof.
  intros fs vals vals' L L' H.
  unfold Marshal, MarshalBeautify, marshalWithCompact. cbn [isMapOrStruct].
  rewrite !(encodeValue_struct sprintV IsPrint). unfold encodeStruct.
  split.
  - now rewrite (encodeStruct_loop_exported_only encV 0 true fs vals vals' _ true L L' H).
  - now rewrite (encodeStruct_loop_exported_only encV 0 false fs vals vals' _ true L L' H).
Qed.

End Unexported.

Lemma marshal_ignores_unexported_fields_witness :
  Marshal (fun _ => []) (fun _ => false)
    (VStruct account [VString (bs "Ann"); VInt Int 1234])
  = Marshal (fun _ => []) (fun _ => false)
      (VStruct account [VString (bs "Ann"); VInt Int 0]).
Proof.
  refine (proj1 (marshal_ignores_unexported_fields (fun _ => []) (fun _ => false)
                   account [VString (bs "Ann"); VInt Int 1234]
                   [VString (bs "Ann"); VInt Int 0] eq_refl eq_refl _)).
  intros [|[|i]] f Hi E.
  - reflexivity.
  - injection Hi as <-. discriminate E.
  - destruct i; discriminate Hi.
Defined.

(** The field map leads to exported fields only. *)
Lemma buildFieldMap_exported (fs : list Field) :
  forall i0 m k i,
    buildFieldMap fs i0 m k = Some i ->
    m k = Some i
    \/ exists f, i0 <= i /\ nth_error fs (i - i0) = Some f /\ IsExported f = true.
Proof.
  induction fs as [|f fr IH]; intros i0 m k i H; [now left|].
  cbn [buildFieldMap] in H. destruct (IsExported f) eqn:E; cbn [negb] in H.
  - destruct (IH _ _ _ _ H) as [M | (g & L & N & G)].
    + unfold setField in M. destruct (bytes_eqb k (fieldName f)).
      * injection M as <-. right. exists f. rewrite Nat.sub_diag. now repeat split.
      * now left.
    + right. exists g. split; [lia|]. split; [|exact G].
      replace (i - i0) with (S (i - S i0)) by lia. exact N.
  - destruct (IH _ _ _ _ H) as [M | (g & L & N & G)]; [now left|].
    right. exists g. split; [lia|]. split; [|exact G].
    replace (i - i0) with (S (i - S i0)) by lia. exact N.
Qed.

(** The loop of [decodeStruct] stores values only at indices the field
    map holds. *)
Lemma decodeStruct_loop_stores (fs : list Field) (fm : FieldMap) (fuel : nat) :
  forall p vals vals' q,
    decodeStruct_loop fuel p fs fm vals = Done (vals', q) ->
    length vals' = length vals
    /\ forall i, (forall k, fm k <> Some i) -> nth i vals' VOther = nth i vals VOther.
Proof.
  induction fuel as [|f IH]; intros p vals vals' q H; [discriminate H|].
  cbn [decodeStruct_loop] in H.
  destruct (eof p || beq (peek p) "}"); [injection H as <- <-; now split|].
  destruct (readBareToken p) as [key p1].
  destruct (negb (beq (peek (skipSpaces p1)) "=")); [discriminate H|].
  set (p2 := skipSpaces (advance (skipSpaces p1))) in H.
  destruct (beq (peek p2) ";" || beq (peek p2) "}").
  - destruct (fm key) as [idx|] eqn:FM.
    + destruct (IH _ _ _ _ H) as [L U]. rewrite length_setNth in L.
      split; [exact L|]. intros i Hi. rewrite (U i Hi).
      apply nth_setNth_neq. intros ->. exact (Hi key FM).
    + exact (IH _ _ _ _ H).
  - destruct (fm key) as [idx|] eqn:FM.
    + destruct (decodeValue f p2 (nth idx vals VOther)) as [[v p3]| |];
        try discriminate H.
      destruct (IH _ _ _ _ H) as [L U]. rewrite length_setNth in L.
      split; [exact L|]. intros i Hi. rewrite (U i Hi).
      apply nth_setNth_neq. intros ->. exact (Hi key FM).
    + destruct (skipValue p2) as [[u|e] p3]; try discriminate H.
      exact (IH _ _ _ _ H).
Qed.

(** Decoding a record leaves its unexported fields, and any value beyond
    the declared fields, as the destination held them. *)
Theorem decodeStruct_keeps_unexported_fields :
  forall fuel p fs vals v q,
    decodeStruct fuel p fs vals = Done (v, q) ->
    exists vals',
      v = VStruct fs vals'
      /\ length vals' = length vals
      /\ forall i, (forall f, nth_error fs i = Some f -> IsExported f = false) ->
                   nth i vals' VOther = nth i vals VOther.
Proof.
  intros fuel p fs vals v q H. destruct fuel as [|f]; [discriminate H|].
  cbn [decodeStruct] in H.
  destruct (negb (beq (peek p) "{")); [discriminate H|].
  destruct (decodeStruct_loop f _ fs _ vals) as [[vals' p1]| |] eqn:DL;
    try discriminate H.
  destruct (negb (beq (peek p1) "}")); [discriminate H|].
  injection H as <- <-. exists vals'. split; [reflexivity|].
  destruct (decodeStruct_loop_stores _ _ _ _ _ _ _ DL) as [L U].
  split; [exact L|]. intros i Hi. apply U. intros k Hk.
  destruct (buildFieldMap_exported fs 0 emptyFieldMap k i Hk) as [M | (g & _ & N & G)];
    [discriminate M|].
  rewrite Nat.sub_0_r in N. rewrite (Hi g N) in G. discriminate G.
Qed.

(** ** The root of a document *)

Section Root.

Variable sprintV : Val -> bytes.
Variable IsPrint : N -> bool.

Local Abbreviation encV := (encodeValue sprintV IsPrint).

Lemma encodeStruct_braces (fs : list Field) (vals : list Val) (level : Z)
  (compact : bool) (text : bytes) :
  encodeStruct encV [] fs vals level compact = Ok text ->
  exists body, text = "{" :: body ++ ["}"].
Proof.
  unfold encodeStruct. intros H.
  rewrite (encodeStruct_loop_prepend encV vals) in H
    by (apply Forall_forall; intros v _ b l c; apply encodeValue_prepend).
  destruct (encodeStruct_loop encV [] fs vals level compact true) as [t|e];
    [|discriminate H].
  cbn [prepend] in H. injection H as <-.
  destruct compact; cbn [negb app].
  - now exists t.
  - now exists (LF :: t ++ indent (level - 1)).
Qed.

Lemma encodeMap_braces (keys : list bytes) (vals : list Val) (level : Z)
  (compact : bool) (text : bytes) :
  encodeMap encV [] keys vals level compact = Ok text ->
  exists body, text = "{" :: body ++ ["}"].
Proof.
  unfold encodeMap. intros H.
  rewrite (encodeMap_loop_prepend encV vals) in H
    by (apply Forall_forall; intros v _ b l c; apply encodeValue_prepend).
  destruct (encodeMap_loop encV [] keys vals level compact true) as [t|e];
    [|discriminate H].
  cbn [prepend] in H. injection H as <-.
  destruct compact; cbn [negb app].
  - now exists t.
  - now exists (LF :: t ++ indent (level - 1)).
Qed.

(** Whatever value is encoded, in either mode, the text produced is one
    object: it begins with an opening brace and ends with a closing
    brace. *)
Theorem marshal_text_is_braced :
  forall v compact text,
    marshalWithCompact sprintV IsPrint v compact = Ok text ->
    exists body, text = "{" :: body ++ ["}"].
Proof.
  intros v compact text H. unfold marshalWithCompact in H.
  set (rv := match v with VPtrTo x => x | _ => v end) in H.
  destruct (isMapOrStruct rv) eqn:K.
  - destruct rv; try discriminate K.
    + apply (encodeMap_braces [] [] 0 compact). exact H.
    + rewrite (encodeValue_map sprintV IsPrint) in H.
      now apply encodeMap_braces in H.
    + rewrite (encodeValue_struct sprintV IsPrint) in H.
      now apply encodeStruct_braces in H.
  - rewrite (encodeValue_prepend sprintV IsPrint) in H.
    destruct (encV [] rv 1 compact) as [t|e]; [|destruct compact; discriminate H].
    cbn [prepend] in H.
    destruct compact; cbn [negb app] in H; injection H as <-.
    + now exists t.
    + exists (LF :: " " :: " " :: t ++ [LF]). cbn [app]. now rewrite <- !app_assoc.
Qed.

End Root.

(** ** Documents that do not fit the destination *)

Lemma rest_start (data : bytes) : rest (mkParser data 0) = data.
Proof. reflexivity. Qed.

Lemma peek_first_non_blank (data : bytes) :
  peek (skipSpaces (mkParser data 0)) = hd NUL (dropWhile isBlank data).
Proof. now rewrite peek_rest, rest_skipSpaces, rest_start. Qed.

(** At a delimiter that is no blank there is no token to read. *)
Lemma readBareToken_at_delim (p : parser) (c : byte) (r : bytes) :
  rest p = c :: r -> isDelim c = true -> isBlank c = false ->
  readBareToken p = ([], p).
Proof.
  intros R D B. rewrite readBareToken_rest, R. unfold tokenBytes.
  cbn [takeWhile dropWhile]. rewrite B. cbn [takeWhile]. rewrite D.
  cbn [negb length]. rewrite TrimSpace_nil, Nat.add_0_r, setPos_self. reflexivity.
Qed.

Lemma first_non_blank_rest (data : bytes) (c : byte) :
  hd NUL (dropWhile isBlank data) = c -> c <> NUL ->
  exists r, rest (skipSpaces (mkParser data 0)) = c :: r.
Proof.
  intros H N. rewrite rest_skipSpaces, rest_start.
  destruct (dropWhile isBlank data) as [|x r]; [simpl in H; congruence|].
  simpl in H. subst x. now exists r.
Qed.

Section RootScalars.

Variable sprintV : Val -> bytes.
Variable IsPrint : N -> bool.

(** A number or a boolean at the root does not survive the round trip:
    [Marshal] wraps it in braces, and [Unmarshal] into a destination of
    the same type then finds no token at the opening brace and fails. *)
Theorem marshal_root_scalar_does_not_unmarshal :
  forall fuel,
    (forall k n, exists text,
        Marshal sprintV IsPrint (VInt k n) = Ok text
        /\ Unmarshal (S fuel) text (VPtrTo (VInt k 0)) = Fail ErrExpectedNumber)
    /\ (forall k n, exists text,
          Marshal sprintV IsPrint (VUint k n) = Ok text
          /\ Unmarshal (S fuel) text (VPtrTo (VUint k 0)) = Fail ErrExpectedNumber)
    /\ (forall k f, exists text,
          Marshal sprintV IsPrint (VFloat k f) = Ok text
          /\ Unmarshal (S fuel) text (VPtrTo (VFloat k F64zero)) = Fail ErrExpectedNumber)
    /\ (forall b, exists text,
          Marshal sprintV IsPrint (VBool b) = Ok text
          /\ Unmarshal (S fuel) text (VPtrTo (VBool false)) = Fail ErrInvalidBool).
Proof.
  intros fuel.
  assert (T : forall body : bytes,
             readBareToken (skipSpaces (skipSpaces (mkParser ("{" :: body) 0)))
             = ([], mkParser ("{" :: body) 0)).
  { intros body.
    rewrite skipSpaces_idem,
      (skipSpaces_not_blank (mkParser ("{" :: body) 0) "{" body eq_refl eq_refl).
    exact (readBareToken_at_delim (mkParser ("{" :: body) 0) "{" body
             eq_refl eq_refl eq_refl). }
  assert (U : forall body dest e,
             match dest with
             | VInt _ _ | VUint _ _ | VFloat _ _ => e = ErrExpectedNumber
             | VBool _ => e = ErrInvalidBool
             | _ => False
             end ->
             Unmarshal (S fuel) ("{" :: body) (VPtrTo dest) = Fail e).
  { intros body dest e H.
    destruct dest; try contradiction; subst e;
      unfold Unmarshal; cbn [isSliceKind andb decodeValue];
      unfold parseNumber, parseBool; rewrite T; reflexivity. }
  repeat split; intros.
  - exists ("{" :: formatInt n ++ ["}"]). split; [reflexivity | now apply U].
  - exists ("{" :: formatInt n ++ ["}"]). split; [reflexivity | now apply U].
  - exists ("{" :: encodeFloat sprintV k f ++ ["}"]). split; [reflexivity | now apply U].
  - exists ("{" :: (if b then bs "true" else bs "false") ++ ["}"]).
    split; [reflexivity | now apply U].
Qed.

End RootScalars.

(** Input whose first byte after the blanks is no opening brace (empty
    input included) is rejected for a record and for a map. *)
Theorem unmarshal_object_needs_opening_brace :
  forall fuel data,
    hd NUL (dropWhile isBlank data) <> "{" ->
    (forall fs vals,
        Unmarshal (S (S fuel)) data (VPtrTo (VStruct fs vals)) = Fail ErrStructOpen)
    /\ (forall e, Unmarshal (S (S fuel)) data (VPtrTo (VMapNil e)) = Fail ErrMapOpen)
    /\ (forall e keys vals,
          Unmarshal (S (S fuel)) data (VPtrTo (VMap e keys vals)) = Fail ErrMapOpen).
Proof.
  intros fuel data H.
  assert (B : beq (peek (skipSpaces (skipSpaces (mkParser data 0)))) "{" = false).
  { rewrite skipSpaces_idem, peek_first_non_blank.
    destruct (beq _ "{") eqn:E; [|reflexivity]. apply beq_true in E. contradiction. }
  repeat split; intros; unfold Unmarshal;
    cbn [isSliceKind andb decodeValue decodeStruct decodeMap]; now rewrite B.
Qed.

Lemma unmarshal_object_needs_opening_brace_witness :
  Unmarshal 2 [] (VPtrTo (VStruct Person (zeroFields Person))) = Fail ErrStructOpen.
Proof.
  refine (proj1 (unmarshal_object_needs_opening_brace 0 [] _) Person (zeroFields Person)).
  discriminate.
Defined.

Section RootLists.

Variable sprintV : Val -> bytes.
Variable IsPrint : N -> bool.

Local Abbreviation encV := (encodeValue sprintV IsPrint).

Lemma encodeSlice_bracket (t : Ty) (l : list Val) (level : Z) (compact : bool)
  (text : bytes) :
  negb (isStructType t) || (length l =? 0) = true ->
  encodeSlice sprintV IsPrint encV [] t l level compact = Ok text ->
  exists r, text = "[" :: r.
Proof.
  intros W H. unfold encodeSlice in H. destruct l as [|x l].
  - injection H as <-. now exists ["]"].
  - cbn [length Nat.eqb] in W. rewrite orb_false_r in W.
    apply negb_true_iff in W. rewrite W in H.
    rewrite (encodeSlice_loop_prepend encV (x :: l)) in H
      by (apply Forall_forall; intros v _ b lv c; apply encodeValue_prepend).
    destruct (encodeSlice_loop encV [] (x :: l) 0 level compact) as [r|e];
      [|discriminate H].
    cbn [prepend app] in H. injection H as <-. now exists (r ++ ["]"]).
Qed.

(** A list at the root does not survive the round trip either: [Marshal]
    writes it as a bracketed list inside braces, and [Unmarshal] into a
    slice, which looks behind the brace only for a table, then meets the
    brace where it wants a bracket. *)
Theorem marshal_root_list_does_not_unmarshal :
  forall fuel v text dest,
    writtenAsList v = true ->
    Marshal sprintV IsPrint v = Ok text ->
    isSliceKind dest = true ->
    Unmarshal (S (S fuel)) text (VPtrTo dest) = Fail ErrListOpen.
Proof.
  intros fuel v text dest W M D.
  assert (T : exists r, text = "{" :: "[" :: r).
  { unfold Marshal, marshalWithCompact in M.
    destruct v as [ | | | | | | |t|t l|t l| | | | | | ]; try discriminate W;
      cbn [isMapOrStruct negb app] in M.
    - injection M as <-. now eexists.
    - rewrite (encodeValue_prepend sprintV IsPrint) in M.
      rewrite (encodeValue_slice sprintV IsPrint) in M.
      destruct (encodeSlice sprintV IsPrint encV [] t l 1 true) as [x|e] eqn:E; [|discriminate M].
      destruct (encodeSlice_bracket t l 1 true x W E) as [r ->].
      cbn [prepend app] in M. injection M as <-. now eexists.
    - rewrite (encodeValue_prepend sprintV IsPrint) in M.
      rewrite (encodeValue_array sprintV IsPrint) in M.
      destruct (encodeSlice sprintV IsPrint encV [] t l 1 true) as [x|e] eqn:E; [|discriminate M].
      destruct (encodeSlice_bracket t l 1 true x W E) as [r ->].
      cbn [prepend app] in M. injection M as <-. now eexists. }
  destruct T as [r ->].
  set (p0 := mkParser ("{" :: "[" :: r) 0).
  assert (S0 : skipSpaces p0 = p0)
    by exact (skipSpaces_not_blank p0 "{" _ eq_refl eq_refl).
  unfold Unmarshal. fold p0. rewrite S0, D.
  change (beq (peek p0) "{") with true. cbn [andb].
  change (advance p0) with (setPos p0 1).
  rewrite (skipSpaces_not_blank (setPos p0 1) "[" r eq_refl eq_refl).
  change (beq (peek (setPos p0 1)) "(") with false. cbv iota.
  change (setPos (setPos p0 1) (pos p0)) with p0.
  destruct dest; try discriminate D;
    cbn [decodeValue decodeSlice]; rewrite !S0; reflexivity.
Qed.

End RootLists.

Lemma marshal_root_list_does_not_unmarshal_witness :
  Unmarshal 2 (bs "{[1,2]}") (VPtrTo (VSliceNil (TInt Int))) = Fail ErrListOpen.
Proof.
  exact (marshal_root_list_does_not_unmarshal (fun _ => []) (fun _ => false) 0
           (VSlice (TInt Int) [VInt Int 1; VInt Int 2]) (bs "{[1,2]}")
           (VSliceNil (TInt Int)) eq_refl eq_refl eq_refl).
Defined.

(** ** Inputs on which the decoder does not return

    A result [OutOfFuel] for every amount of fuel means that the loop of
    the source never exits. *)

Lemma strayDelim_parts (x y c : byte) :
  strayDelim x y c = true ->
  isDelim c = true /\ isBlank c = false /\ beq c x = false /\ beq c y = false
  /\ beq c DQ = false.
Proof.
  unfold strayDelim. intros H.
  apply andb_true_iff in H. destruct H as [H Hy].
  apply andb_true_iff in H. destruct H as [H Hx].
  apply andb_true_iff in H. destruct H as [D B].
  apply negb_true_iff in Hy, Hx, B. repeat split; try assumption.
  destruct (beq c DQ) eqn:E; [|reflexivity].
  apply beq_true in E. subst c. discriminate D.
Qed.

Lemma decodeMap_loop_spins (p : parser) (c : byte) (r : bytes) (elem : Ty) :
  rest p = c :: r -> strayDelim ";" "}" c = true ->
  forall fuel keys vals, decodeMap_loop fuel p elem keys vals = OutOfFuel.
Proof.
  intros R S0. destruct (strayDelim_parts _ _ _ S0) as (D & B & C1 & C2 & _).
  destruct (at_cons p c r R) as (P0 & E0 & _ & _).
  induction fuel as [|f IH]; intros keys vals; [reflexivity|].
  cbn [decodeMap_loop]. rewrite E0, P0, C2. cbn [orb].
  rewrite (readBareToken_at_delim p c r R D B).
  rewrite (skipSpaces_not_blank p c r R B), P0, C1. apply IH.
Qed.

(** A map document in which a delimiter other than a semicolon or the
    closing brace stands where a key is expected (as in [{=1}] or
    [{,}]) is read without end: the loop of [decodeMap] takes the empty
    key and goes round without consuming anything. *)
Theorem unmarshal_map_spins_on_stray_delimiter :
  forall fuel c r dest,
    strayDelim ";" "}" c = true ->
    match dest with VMapNil _ | VMap _ _ _ => True | _ => False end ->
    Unmarshal fuel ("{" :: c :: r) (VPtrTo dest) = OutOfFuel.
Proof.
  intros fuel c r dest S0 K.
  destruct (strayDelim_parts _ _ _ S0) as (D & B & _).
  set (p0 := mkParser ("{" :: c :: r) 0).
  assert (S1 : skipSpaces p0 = p0)
    by exact (skipSpaces_not_blank p0 "{" _ eq_refl eq_refl).
  assert (L : forall f e keys vals,
             decodeMap_loop f (skipSpaces (advance p0)) e keys vals = OutOfFuel).
  { intros f e keys vals. change (advance p0) with (setPos p0 1).
    rewrite (skipSpaces_not_blank (setPos p0 1) c r eq_refl B).
    exact (decodeMap_loop_spins (setPos p0 1) c r e eq_refl S0 f keys vals). }
  destruct dest; try contradiction; unfold Unmarshal; fold p0;
    rewrite S1; cbn [isSliceKind andb];
    (destruct fuel as [|[|f]]; [reflexivity | reflexivity |]);
    cbn [decodeValue decodeMap]; rewrite S1;
    change (beq (peek p0) "{") with true; cbn [negb]; now rewrite L.
Qed.

Lemma decodeSlice_loop_spins (p : parser) (c : byte) (r : bytes) :
  rest p = c :: r -> strayDelim "," "]" c = true ->
  forall fuel slice, decodeSlice_loop fuel p TString slice = OutOfFuel.
Proof.
  intros R S0. destruct (strayDelim_parts _ _ _ S0) as (D & B & C1 & C2 & Q).
  destruct (at_cons p c r R) as (P0 & E0 & _ & _).
  induction fuel as [|f IH]; intros slice; [reflexivity|].
  cbn [decodeSlice_loop]. rewrite E0, P0, C2. cbn [orb zero].
  destruct f as [|f']; [reflexivity|].
  cbn [decodeValue]. rewrite (skipSpaces_not_blank p c r R B).
  unfold parseStringValue. rewrite P0, Q.
  rewrite (readBareToken_at_delim p c r R D B).
  rewrite (skipSpaces_not_blank p c r R B), P0, C1. apply IH.
Qed.

(** A list of strings in which a delimiter other than a comma or the
    closing bracket stands where an element is expected (as in
    ["a";"b"] written with a semicolon) is read without end: every turn
    of the loop of [decodeSlice] reads an empty bare token, appends an
    empty string and consumes nothing. *)
Theorem decodeSlice_of_strings_spins_on_stray_delimiter :
  forall fuel p c r dest,
    rest p = "[" :: c :: r ->
    strayDelim "," "]" c = true ->
    dest = VSliceNil TString \/ (exists l, dest = VSlice TString l) ->
    decodeValue fuel p dest = OutOfFuel.
Proof.
  intros fuel p c r dest R S0 K.
  destruct (strayDelim_parts _ _ _ S0) as (D & B & _).
  assert (S1 : skipSpaces p = p) by exact (skipSpaces_not_blank p "[" _ R eq_refl).
  destruct (at_cons p "[" _ R) as (P0 & _ & A0 & R1).
  assert (L : forall f slice,
             decodeSlice_loop f (skipSpaces (advance p)) TString slice = OutOfFuel).
  { intros f slice. rewrite A0, (skipSpaces_not_blank _ c r R1 B).
    exact (decodeSlice_loop_spins _ c r R1 S0 f slice). }
  destruct fuel as [|[|f]]; [reflexivity | destruct K as [-> | [l ->]]; reflexivity |].
  destruct K as [-> | [l ->]]; cbn [decodeValue decodeSlice elemOfSlice];
    rewrite !S1, P0; cbn [beq Ascii.eqb Bool.eqb andb negb]; now rewrite L.
Qed.

Lemma forallb_skipn {A : Type} (f : A -> bool) (l : list A) :
  forall k, forallb f l = true -> forallb f (skipn k l) = true.
Proof.
  induction l as [|x r IH]; intros k H; [now destruct k|].
  destruct k; [exact H|]. cbn [forallb] in H. apply andb_true_iff in H.
  cbn [skipn]. now apply IH.
Qed.

Lemma noHeaderEnd_move (p : parser) (k : nat) :
  noHeaderEnd (rest p) = true -> noHeaderEnd (rest (setPos p (pos p + k))) = true.
Proof. intros H. rewrite rest_setPos. now apply forallb_skipn. Qed.

Lemma noHeaderEnd_peek (p : parser) :
  noHeaderEnd (rest p) = true ->
  beq (peek p) ":" = false /\ beq (peek p) ")" = false.
Proof.
  intros H. rewrite peek_rest. destruct (rest p) as [|c r]; [now split|].
  cbn [noHeaderEnd forallb] in H. apply andb_true_iff in H. destruct H as [H _].
  apply negb_true_iff, orb_false_iff in H. exact H.
Qed.

Lemma tableHeader_loop_spins (fuel : nat) :
  forall p headers,
    noHeaderEnd (rest p) = true -> tableHeader_loop fuel p headers = OutOfFuel.
Proof.
  induction fuel as [|f IH]; intros p headers H; [reflexivity|].
  cbn [tableHeader_loop].
  assert (H1 : noHeaderEnd (rest (skipSpaces p)) = true)
    by (rewrite skipSpaces_rest; now apply noHeaderEnd_move).
  destruct (noHeaderEnd_peek _ H1) as [C1 C2]. rewrite C1, C2.
  rewrite readUntilAny_rest.
  set (p2 := setPos (skipSpaces p) _).
  assert (H2 : noHeaderEnd (rest p2) = true) by now apply noHeaderEnd_move.
  assert (H3 : noHeaderEnd (rest (skipSpaces p2)) = true)
    by (rewrite skipSpaces_rest; now apply noHeaderEnd_move).
  apply IH. destruct (beq (peek (skipSpaces p2)) ","); [|exact H3].
  rewrite advance_rest. destruct (rest (skipSpaces p2)) eqn:R.
  - now rewrite R.
  - apply noHeaderEnd_move. now rewrite R.
Qed.

(** A table whose text holds neither a colon nor a closing parenthesis
    after the opening one (a truncated header) is read without end: at
    the end of the input the header loop of [decodeTable] keeps reading
    empty tokens. *)
Theorem unmarshal_table_spins_on_truncated_header :
  forall fuel h fs dest,
    noHeaderEnd h = true ->
    dest = VSliceNil (TStruct fs) \/ (exists l, dest = VSlice (TStruct fs) l) ->
    Unmarshal fuel ("{" :: "(" :: h) (VPtrTo dest) = OutOfFuel.
Proof.
  intros fuel h fs dest H K.
  set (p0 := mkParser ("{" :: "(" :: h) 0).
  assert (S0 : skipSpaces p0 = p0)
    by exact (skipSpaces_not_blank p0 "{" _ eq_refl eq_refl).
  set (p1 := setPos p0 1).
  assert (S1 : skipSpaces p1 = p1)
    by exact (skipSpaces_not_blank p1 "(" h eq_refl eq_refl).
  assert (L : forall f, tableHeader_loop f (skipSpaces (advance p1)) [] = OutOfFuel).
  { intros f. apply tableHeader_loop_spins. rewrite skipSpaces_rest.
    apply noHeaderEnd_move. exact H. }
  assert (D : forall f, decodeValue f p1 dest = OutOfFuel).
  { intros [|[|f]]; [reflexivity | destruct K as [-> | [l ->]]; reflexivity |].
    destruct K as [-> | [l ->]]; cbn [decodeValue decodeSlice elemOfSlice];
      rewrite !S1; change (beq (peek p1) "(") with true; cbv iota;
      unfold decodeTable; change (beq (peek p1) "(") with true; cbn [negb];
      now rewrite L. }
  unfold Unmarshal. fold p0. rewrite S0.
  replace (isSliceKind dest) with true by (destruct K as [-> | [l ->]]; reflexivity).
  change (beq (peek p0) "{") with true. cbn [andb].
  change (advance p0) with p1. rewrite S1.
  change (beq (peek p1) "(") with true. cbv iota. now rewrite D.
Qed.

Lemma unmarshal_table_spins_on_truncated_header_witness :
  Unmarshal 1000 (bs "{(name,age") (VPtrTo (VSliceNil (TStruct Person))) = OutOfFuel.
Proof.
  exact (unmarshal_table_spins_on_truncated_header 1000 (bs "name,age") Person
           (VSliceNil (TStruct Person)) eq_refl (or_introl eq_refl)).
Defined.

(** ** Integers in table cells *)

Lemma fold_decStep_ge (ds : list ascii) :
  forall a, (a <= fold_left decStep ds a)%N.
Proof.
  induction ds as [|c r IH]; intros a; [cbn [fold_left]; lia|].
  cbn [fold_left]. specialize (IH (decStep a c)). unfold decStep in *. lia.
Qed.

Lemma parseUint_loop_digits (ds : list ascii) :
  forall a : N,
    forallb isDigit ds = true ->
    (fold_left decStep ds a < 2 ^ 64)%N ->
    parseUint_loop ds (Z.of_N a) = Ok (Z.of_N (fold_left decStep ds a)).
Proof.
  induction ds as [|c r IH]; intros a D B; [reflexivity|].
  cbn [forallb] in D. apply andb_true_iff in D. destruct D as [Dc Dr].
  cbn [fold_left] in B |- *. cbn [parseUint_loop]. rewrite Dc. cbn [negb].
  pose proof (fold_decStep_ge r (decStep a c)) as G.
  assert (E : (Z.of_N a * 10 + Z.of_N (digitVal c))%Z = Z.of_N (decStep a c))
    by (unfold decStep; lia).
  assert (P : (2 ^ 64 = 18446744073709551616)%N) by reflexivity.
  assert (A : (decStep a c < 18446744073709551616)%N) by lia.
  assert (A' : (a * 10 <= decStep a c)%N) by (unfold decStep; lia).
  destruct (Z.leb_spec 1844674407370955162 (Z.of_N a)) as [L|L]; [lia|].
  rewrite E.
  destruct (Z.leb_spec (2 ^ 64) (Z.of_N (decStep a c))) as [L2|L2].
  - exfalso. change (2 ^ 64)%Z with 18446744073709551616%Z in L2. lia.
  - now apply IH.
Qed.

Lemma ParseUint_formatUint (n : N) :
  (n < 2 ^ 64)%N -> ParseUint (formatUint n) = Ok (Z.of_N n).
Proof.
  intros B. destruct (formatUint_spec n) as (D & V & NE).
  unfold ParseUint. destruct (formatUint n) as [|c r] eqn:E; [congruence|].
  unfold decval in V. change 0%Z with (Z.of_N 0).
  rewrite (parseUint_loop_digits (c :: r) 0 D) by (rewrite V; exact B).
  now rewrite V.
Qed.

Lemma ParseInt_sign_digit (c : byte) (r : bytes) :
  isDigit c = true ->
  ParseInt (c :: r)
  = match ParseUint (c :: r) with
    | Err e => Err e
    | Ok un => if (2 ^ 63 <=? un)%Z then Err ErrRange else Ok un
    end.
Proof.
  destruct c as [b0 b1 b2 b3 b4 b5 b6 b7].
  destruct b0, b1, b2, b3, b4, b5, b6, b7; intros H; try discriminate H;
    reflexivity.
Qed.

Lemma ParseInt_formatInt (z : Z) :
  (- 2 ^ 63 <= z < 2 ^ 63)%Z -> ParseInt (formatInt z) = Ok z.
Proof.
  intros B. unfold formatInt.
  assert (U : ParseUint (formatUint (Z.abs_N z)) = Ok (Z.abs z)).
  { rewrite ParseUint_formatUint.
    - now rewrite N2Z.inj_abs_N.
    - change (2 ^ 64)%N with 18446744073709551616%N.
      change (2 ^ 63)%Z with 9223372036854775808%Z in B. lia. }
  destruct (formatUint_spec (Z.abs_N z)) as (D & _ & NE).
  destruct (Z.ltb_spec z 0) as [L|L].
  - destruct (formatUint (Z.abs_N z)) as [|c r] eqn:E; [congruence|].
    change (ParseInt ("-" :: c :: r))
      with (match ParseUint (c :: r) with
            | Err e => Err e
            | Ok un =>
                if negb true && (2 ^ 63 <=? un)%Z then Err ErrRange
                else if true && (2 ^ 63 <? un)%Z then Err ErrRange
                else Ok (- un)%Z
            end).
    rewrite U. cbn [negb andb].
    destruct (Z.ltb_spec (2 ^ 63) (Z.abs z)) as [L2|L2]; [lia|]. f_equal. lia.
  - destruct (formatUint (Z.abs_N z)) as [|c r] eqn:E; [congruence|].
    cbn [forallb] in D. apply andb_true_iff in D. destruct D as [Dc _].
    rewrite (ParseInt_sign_digit c r Dc), U.
    destruct (Z.leb_spec (2 ^ 63) (Z.abs z)) as [L2|L2]; [lia|]. f_equal. lia.
Qed.

Section TableCells.

Variable sprintV : Val -> bytes.
Variable IsPrint : N -> bool.

(** An integer written into a table cell is read back exactly, over the
    whole range of its kind: cells are parsed with [ParseInt] and
    [ParseUint], not through a float as the fields of a record are. *)
Theorem table_cell_integer_is_read_back_exactly :
  (forall k n old,
      fitsInt k n ->
      setFieldFromString (VInt k old) (encodeTableCell sprintV IsPrint [] (VInt k n))
      = Ok (VInt k n))
  /\ (forall k n old,
        fitsUint k n ->
        setFieldFromString (VUint k old) (encodeTableCell sprintV IsPrint [] (VUint k n))
        = Ok (VUint k n)).
Proof.
  split; intros k n old F; cbn [encodeTableCell app];
    destruct (formatInt_token n) as [_ NE]; unfold setFieldFromString;
    destruct (formatInt n) as [|c r] eqn:E; try congruence; rewrite <- E.
  - rewrite ParseInt_formatInt.
    + unfold SetInt. now rewrite (wrapInt_fits k n F).
    + pose proof (fitsInt_64 k n F) as F6. exact F6.
  - assert (P0 : (0 <= n)%Z) by (unfold fitsUint in F; lia).
    unfold formatInt. destruct (Z.ltb_spec n 0) as [L|_]; [lia|].
    pose proof (fitsUint_64 k n F) as F6.
    change (2 ^ 64)%Z with 18446744073709551616%Z in F6.
    rewrite ParseUint_formatUint
      by (change (2 ^ 64)%N with 18446744073709551616%N; lia).
    rewrite N2Z.inj_abs_N, Z.abs_eq by exact P0.
    unfold SetUint. now rewrite (wrapUint_fits k n F).
Qed.

End TableCells.

(** A document naming only the owner leaves the unexported pin of the
    destination as it was. *)
Lemma decodeStruct_keeps_unexported_fields_witness :
  exists vals',
    VStruct account [VString (bs "Bob"); VInt Int 1234] = VStruct account vals'
    /\ length vals' = 2
    /\ forall i, (forall f, nth_error account i = Some f -> IsExported f = false) ->
                 nth i vals' VOther = nth i [VString (bs "Ann"); VInt Int 1234] VOther.
Proof.
  exact (decodeStruct_keeps_unexported_fields 8
           (mkParser (bs "{owner=Bob;pin=7}") 0) account
           [VString (bs "Ann"); VInt Int 1234]
           (VStruct account [VString (bs "Bob"); VInt Int 1234])
           (mkParser (bs "{owner=Bob;pin=7}") 17) eq_refl).
Defined.

Lemma marshal_text_is_braced_witness :
  exists body, bs "{5}" = "{" :: body ++ ["}"].
Proof.
  exact (marshal_text_is_braced (fun _ => []) (fun _ => false)
           (VInt Int 5) true (bs "{5}") eq_refl).
Defined.

Lemma unmarshal_map_spins_on_stray_delimiter_witness :
  Unmarshal 1000 (bs "{=1}") (VPtrTo (VMapNil (TInt Int))) = OutOfFuel.
Proof.
  exact (unmarshal_map_spins_on_stray_delimiter 1000 "=" (bs "1}")
           (VMapNil (TInt Int)) eq_refl I).
Defined.

Lemma decodeSlice_of_strings_spins_on_stray_delimiter_witness :
  decodeValue 1000 (mkParser (bs "[;]") 0) (VSliceNil TString) = OutOfFuel.
Proof.
  exact (decodeSlice_of_strings_spins_on_stray_delimiter 1000
           (mkParser (bs "[;]") 0) ";" (bs "]") (VSliceNil TString)
           eq_refl eq_refl (or_introl eq_refl)).
Defined.

(** ** Which strings are read back from their quoted form *)

Lemma quoteAscii_shape (c : byte) :
  isAscii c = true ->
  (quoteAscii c = [c] /\ plainByte c = true /\ safeByte c = true)
  \/ (exists e tl,
        quoteAscii c = BSL :: e :: tl /\ forallb plainByte tl = true
        /\ ((unescape e = c /\ tl = [] /\ (safeByte c || beq c LF) = true)
            \/ (beq (unescape e) c = false /\ (safeByte c || beq c LF) = false))).
Proof.
  destruct c as [b0 b1 b2 b3 b4 b5 b6 b7].
  destruct b0, b1, b2, b3, b4, b5, b6, b7; intros H; try discriminate H;
    first [ left; repeat split; reflexivity
          | right; eexists; eexists; split; [reflexivity|]; split; [reflexivity|];
            first [ left; repeat split; reflexivity | right; split; reflexivity ] ].
Qed.

Lemma quote_loop_ascii7 (IsPrint : N -> bool) (s : list ascii) :
  forall fuel, length s <= fuel ->
    forallb isAscii s = true ->
    quote_loop IsPrint fuel s = concat (map quoteAscii s).
Proof.
  induction s as [|c s IH]; intros fuel L H.
  - now destruct fuel.
  - destruct fuel as [|f]; [simpl in L; lia|].
    cbn [forallb] in H. apply andb_true_iff in H. destruct H as [Hc Hs].
    cbn [quote_loop map concat]. unfold isAscii in Hc. rewrite Hc.
    rewrite IH; [reflexivity | simpl in L; lia | exact Hs].
Qed.

Lemma readsAs_same (s : list ascii) :
  forallb isAscii s = true ->
  (concat (map readsAs s) = s <-> forallb (fun c => safeByte c || beq c LF) s = true).
Proof.
  induction s as [|c s IH]; intros H; [now split|].
  cbn [forallb] in H. apply andb_true_iff in H. destruct H as [Hc Hs].
  specialize (IH Hs). cbn [map concat forallb]. unfold readsAs.
  destruct (quoteAscii_shape c Hc)
    as [(Q & P & S0) | (e & tl & Q & P & [(U & -> & S0) | (U & S0)])]; rewrite Q.
  - rewrite S0. cbn [orb andb].
    cbn [app]. split.
    + intros E. injection E as E. now apply IH.
    + intros E. f_equal. now apply IH.
  - rewrite S0, U. cbn [andb app]. split.
    + intros E. injection E as E. now apply IH.
    + intros E. f_equal. now apply IH.
  - rewrite S0. cbn [andb app]. split; [|discriminate].
    intros E. injection E as E _. rewrite E, beq_refl in U. discriminate U.
Qed.

Lemma parseString_loop_quoted_ascii (s : list ascii) :
  forall fuel p buf Y,
    forallb isAscii s = true ->
    rest p = concat (map quoteAscii s) ++ DQ :: Y ->
    length (rest p) <= fuel ->
    parseString_loop fuel p buf
    = (Ok (buf ++ concat (map readsAs s)),
       setPos p (pos p + (length (concat (map quoteAscii s)) + 1))).
Proof.
  induction s as [|c s IH]; intros fuel p buf Y H R F.
  - cbn [map concat app] in R. destruct fuel as [|f]; [rewrite R in F; simpl in F; lia|].
    rewrite (parseString_loop_close f p buf Y R). now rewrite app_nil_r.
  - cbn [forallb] in H. apply andb_true_iff in H. destruct H as [Hc Hs].
    cbn [map concat] in *. rewrite <- app_assoc in R. unfold readsAs at 1.
    destruct (quoteAscii_shape c Hc) as [(Q & Pl & _) | (e & tl & Q & Pl & _)];
      rewrite Q in *.
    + assert (R1 : rest (setPos p (pos p + 1)) = concat (map quoteAscii s) ++ DQ :: Y)
        by (apply (rest_after p [c]); exact R).
      rewrite (parseString_loop_plain [c] fuel p buf _) by
        (try exact F; try exact R; cbn [forallb]; now rewrite Pl).
      cbn [length].
      rewrite (IH _ (setPos p (pos p + 1)) (buf ++ [c]) Y Hs R1).
      * rewrite <- app_assoc, setPos_setPos. cbn [pos setPos app length].
        do 2 f_equal. lia.
      * rewrite R1. rewrite R in F. cbn [app length] in F. lia.
    + destruct fuel as [|f]; [rewrite R in F; simpl in F; lia|].
      cbn [app] in R.
      assert (R1 : rest (setPos p (pos p + 2))
                   = tl ++ concat (map quoteAscii s) ++ DQ :: Y)
        by (apply (rest_after p [BSL; e]); exact R).
      assert (R2 : rest (setPos p (pos p + 2 + length tl))
                   = concat (map quoteAscii s) ++ DQ :: Y).
      { pose proof (rest_after _ tl _ R1) as T. rewrite setPos_setPos in T. exact T. }
      assert (F1 : length (rest (setPos p (pos p + 2))) <= f)
        by (rewrite R1; rewrite R in F; cbn [length] in F; lia).
      rewrite (parseString_loop_escape f p buf e _ R).
      rewrite (parseString_loop_plain tl f _ (buf ++ [unescape e]) _ Pl R1 F1).
      rewrite setPos_setPos. cbn [pos setPos].
      rewrite (IH _ (setPos p (pos p + 2 + length tl)) _ Y Hs R2).
      * rewrite <- !app_assoc, setPos_setPos. cbn [pos setPos app length].
        rewrite !length_app. do 2 f_equal. lia.
      * rewrite R2. rewrite R1 in F1. rewrite length_app in F1. lia.
Qed.

(** A string of ASCII bytes without a line feed, written by
    [encodeString] and followed by a delimiter, is read by [decodeValue]
    as the concatenation of what each byte reads as; that is the string
    itself exactly when every byte is printable, a tab or a carriage
    return.  The other control bytes and DEL come back as letters and
    digits. *)
Theorem quoted_string_reads_back_iff_safe :
  forall (IsPrint : N -> bool) fuel p s old d Y,
    forallb isAscii s = true ->
    existsb (beq LF) s = false ->
    rest p = encodeString IsPrint [] s ++ d :: Y ->
    isDelim d = true ->
    decodeValue (S fuel) p (VString old)
    = Done (VString (concat (map readsAs s)),
            setPos p (pos p + length (encodeString IsPrint [] s)))
    /\ (concat (map readsAs s) = s <-> forallb safeByte s = true).
Proof.
  intros IsPrint fuel p s old d Y A NL R Dd. split.
  - unfold encodeString, containsNewline in *. rewrite NL in *. cbn [app] in *.
    unfold Quote in *. rewrite (quote_loop_ascii7 IsPrint s _ (le_n _) A) in *.
    set (q := concat (map quoteAscii s)) in *.
    cbn [app] in R. rewrite <- app_assoc in R. cbn [app] in R.
    destruct (at_cons p DQ _ R) as (P0 & E0 & A0 & R1).
    cbn [decodeValue].
    rewrite (skipSpaces_not_blank p DQ _ R eq_refl).
    unfold parseStringValue. rewrite P0. rewrite beq_refl.
    assert (NT : bytes_eqb (peekAhead 3 p) tripleQuote = false).
    { rewrite peekAhead_rest, R. unfold q, tripleQuote.
      destruct s as [|c s].
      - cbn [map concat app firstn bytes_eqb]. rewrite !beq_refl. cbn [andb].
        destruct (beq d DQ) eqn:E; [|reflexivity].
        apply beq_true in E. subst d. discriminate Dd.
      - cbn [forallb] in A. apply andb_true_iff in A. destruct A as [Hc _].
        cbn [map concat].
        destruct (quoteAscii_shape c Hc) as [(Q & Pl & _) | (e & tl & Q & _)];
          rewrite Q.
        + cbn [app firstn bytes_eqb]. rewrite !beq_refl. cbn [andb].
          unfold plainByte in Pl. apply andb_true_iff in Pl. destruct Pl as [_ Pl].
          apply negb_true_iff in Pl. now rewrite Pl.
        + reflexivity. }
    rewrite NT. unfold parseString. rewrite next_rest, R. rewrite beq_refl. cbn [negb].
    rewrite (parseString_loop_quoted_ascii s _ (setPos p (pos p + 1)) [] (d :: Y) A R1)
      by (now rewrite remaining_rest).
    rewrite setPos_setPos. cbn [app pos setPos length].
    rewrite length_app. cbn [length]. unfold q. do 3 f_equal. lia.
  - rewrite (readsAs_same s A). split; intros H.
    + apply forallb_forall. intros c Hc. rewrite forallb_forall in H.
      specialize (H c Hc). apply orb_true_iff in H. destruct H as [H | H]; [exact H|].
      exfalso. assert (X : existsb (beq LF) s = true).
      { apply existsb_exists. exists c. split; [exact Hc | now rewrite beq_sym]. }
      rewrite NL in X. discriminate X.
    + apply forallb_forall. intros c Hc. rewrite forallb_forall in H.
      now rewrite (H c Hc).
Qed.

Lemma quoted_string_reads_back_iff_safe_witness :
  decodeValue 1 (mkParser (DQ :: BSL :: bs "a" ++ [DQ; ";"]) 0) (VString [])
  = Done (VString (bs "a"), mkParser (DQ :: BSL :: bs "a" ++ [DQ; ";"]) 4).
Proof.
  exact (proj1 (quoted_string_reads_back_iff_safe (fun _ => false) 0
                  (mkParser (DQ :: BSL :: bs "a" ++ [DQ; ";"]) 0) ["007"] [] ";" []
                  eq_refl eq_refl eq_refl eq_refl)).
Defined.

(** C7.  An unknown key is not always skipped.  [skipValue] counts the
    braces of the value byte by byte, also inside quoted strings: in the
    document [braceInStringDoc] it stops behind the brace that stands
    inside the string, one byte short of the end of the value of x.  The
    loop of [decodeStruct] then reads the rest of that value as the next
    key and fails, where the value should have been skipped and the name
    read. *)
Theorem decodeStruct_unknown_key_with_brace_in_string_fails :
  forall fuel,
    snd (skipValue (mkParser braceInStringDoc 3)) = mkParser braceInStringDoc 8
    /\ nth 8 braceInStringDoc NUL = DQ
    /\ Unmarshal (4 + fuel) braceInStringDoc (VPtrTo (zero (TStruct Person)))
       = Fail ErrStructEq.
Proof.
  intros fuel. split; [reflexivity|]. split; [reflexivity|].
  vm_compute. reflexivity.
Qed.

(** ** The two modes of the encoder *)

Lemma stripBlanks_app (a b : bytes) :
  stripBlanks (a ++ b) = stripBlanks a ++ stripBlanks b.
Proof. apply filter_app. Qed.

Lemma normOnto_app (R a b : bytes) :
  normOnto R (a ++ b) = normOnto (normOnto R b) a.
Proof. unfold normOnto. now rewrite stripBlanks_app, fold_right_app. Qed.

Lemma stripBlanks_indent (level : Z) : stripBlanks (indent level) = [].
Proof.
  unfold indent. destruct (level <=? 0)%Z; [reflexivity|].
  induction (Z.to_nat level) as [|n IH]; [reflexivity|].
  cbn [repeat concat]. rewrite stripBlanks_app, IH. reflexivity.
Qed.

Lemma normOnto_indent (R : bytes) (level : Z) : normOnto R (indent level) = R.
Proof. unfold normOnto. now rewrite stripBlanks_indent. Qed.

Lemma layoutEq_refl (a : bytes) : layoutEq a a.
Proof. intros R. reflexivity. Qed.

Lemma layoutEq_app (a a' b b' : bytes) :
  layoutEq a a' -> layoutEq b b' -> layoutEq (a ++ b) (a' ++ b').
Proof. intros Ha Hb R. now rewrite !normOnto_app, Hb, Ha. Qed.

Lemma layoutEqR_prepend (b b' : bytes) (x y : res bytes) :
  layoutEq b b' -> layoutEqR x y -> layoutEqR (prepend b x) (prepend b' y).
Proof.
  intros Hb H. destruct x, y; cbn [prepend layoutEqR] in *; try assumption.
  now apply layoutEq_app.
Qed.

Lemma entriesInv_close (first : bool) (b b' : bytes) :
  entriesInv first b b' -> layoutEq (b ++ ["}"]) (b' ++ ["}"]).
Proof.
  destruct first; cbn [entriesInv]; intros H.
  - apply layoutEq_app; [exact H | apply layoutEq_refl].
  - intros R. rewrite (normOnto_app R b'), <- H, !normOnto_app. reflexivity.
Qed.

Lemma entriesInv_entry (first : bool) (b b' key x y : bytes) (level : Z) :
  entriesInv first b b' -> layoutEq x y ->
  entriesInv false
    (((if first then b else b ++ [";"]) ++ key ++ ["="]) ++ x)
    ((((b' ++ indent level) ++ key ++ ["="]) ++ y) ++ [";"; LF]).
Proof.
  intros H Hv R. cbn [entriesInv] in *.
  rewrite !normOnto_app, normOnto_indent.
  change (normOnto R [";"; LF]) with (normOnto R [";"]).
  rewrite Hv. destruct first; cbn [entriesInv] in H.
  - now rewrite H.
  - rewrite <- H, normOnto_app. reflexivity.
Qed.

Section ModeLoops.

Variable enc : bytes -> Val -> Z -> bool -> res bytes.
Hypothesis enc_prepend :
  forall v b l c, enc b v l c = prepend b (enc [] v l c).

Lemma encodeStruct_loop_modes (vals : list Val) :
  Forall (fun v => forall l, layoutEqR (enc [] v l true) (enc [] v l false)) vals ->
  forall fs b b' level first,
    entriesInv first b b' ->
    closeEq (encodeStruct_loop enc b fs vals level true first)
            (encodeStruct_loop enc b' fs vals level false first).
Proof.
  induction 1 as [|v vals Hv _ IH]; intros fs b b' level first Hb.
  - destruct fs; cbn [encodeStruct_loop closeEq]; exact (entriesInv_close _ _ _ Hb).
  - destruct fs as [|f fr];
      [cbn [encodeStruct_loop closeEq]; exact (entriesInv_close _ _ _ Hb)|].
    cbn [encodeStruct_loop].
    destruct (negb (IsExported f)); [now apply IH|].
    cbn [negb andb]. rewrite andb_false_r, andb_true_r.
    destruct (isZeroValue v).
    + apply IH.
      pose proof (entriesInv_entry first b b' (fieldName f) [] [] level Hb
                    (layoutEq_refl [])) as E.
      rewrite !app_nil_r in E. destruct first; exact E.
    + rewrite (enc_prepend v (_ ++ _)).
      rewrite (enc_prepend v ((b' ++ _) ++ _)).
      specialize (Hv (level + 1)%Z).
      destruct (enc [] v (level + 1)%Z true) as [x|e],
               (enc [] v (level + 1)%Z false) as [y|e']; cbn [layoutEqR] in Hv;
        try contradiction; cbn [prepend]; [|exact Hv].
      apply IH.
      pose proof (entriesInv_entry first b b' (fieldName f) x y level Hb Hv) as E.
      destruct first; exact E.
Qed.

Lemma encodeMap_loop_modes (vals : list Val) :
  Forall (fun v => forall l, layoutEqR (enc [] v l true) (enc [] v l false)) vals ->
  forall keys b b' level first,
    entriesInv first b b' ->
    closeEq (encodeMap_loop enc b keys vals level true first)
            (encodeMap_loop enc b' keys vals level false first).
Proof.
  induction 1 as [|v vals Hv _ IH]; intros keys b b' level first Hb.
  - destruct keys; cbn [encodeMap_loop closeEq]; exact (entriesInv_close _ _ _ Hb).
  - destruct keys as [|k kr];
      [cbn [encodeMap_loop closeEq]; exact (entriesInv_close _ _ _ Hb)|].
    cbn [encodeMap_loop]. cbn [negb andb]. rewrite andb_false_r, andb_true_r.
    destruct (isZeroValue v || isNilInterface v).
    + apply IH.
      pose proof (entriesInv_entry first b b' k [] [] level Hb (layoutEq_refl [])) as E.
      rewrite !app_nil_r in E. destruct first; exact E.
    + rewrite (enc_prepend v (_ ++ _)).
      rewrite (enc_prepend v ((b' ++ _) ++ _)).
      specialize (Hv (level + 1)%Z).
      destruct (enc [] v (level + 1)%Z true) as [x|e],
               (enc [] v (level + 1)%Z false) as [y|e']; cbn [layoutEqR] in Hv;
        try contradiction; cbn [prepend]; [|exact Hv].
      apply IH.
      pose proof (entriesInv_entry first b b' k x y level Hb Hv) as E.
      destruct first; exact E.
Qed.

Lemma encodeSlice_loop_modes (l : list Val) :
  Forall (fun v => forall l, layoutEqR (enc [] v l true) (enc [] v l false)) l ->
  forall b b' i level,
    layoutEq b b' ->
    layoutEqR (encodeSlice_loop enc b l i level true)
              (encodeSlice_loop enc b' l i level false).
Proof.
  induction 1 as [|v vals Hv _ IH]; intros b b' i level Hb.
  - exact Hb.
  - cbn [encodeSlice_loop].
    rewrite (enc_prepend v (if 0 <? i then b ++ _ else _)).
    rewrite (enc_prepend v (if 0 <? i then b' ++ _ else _)).
    specialize (Hv level).
    destruct (enc [] v level true) as [x|e], (enc [] v level false) as [y|e'];
      cbn [layoutEqR] in Hv; try contradiction; cbn [prepend]; [|exact Hv].
    apply IH. destruct (0 <? i); repeat apply layoutEq_app;
      try assumption; apply layoutEq_refl.
Qed.

End ModeLoops.

Section Modes.

Variable sprintV : Val -> bytes.
Variable IsPrint : N -> bool.

Local Abbreviation encV := (encodeValue sprintV IsPrint).

Ltac same_text := first [reflexivity | intro; reflexivity].

Lemma layoutEq_open : layoutEq ([] ++ ["{"]) (([] ++ ["{"]) ++ [LF]).
Proof. intros R. reflexivity. Qed.

Lemma closeEq_closed (x y : res bytes) (level : Z) :
  closeEq x y ->
  layoutEqR
    (match x with Err e => Err e | Ok b => Ok (b ++ ["}"]) end)
    (match y with Err e => Err e | Ok b => Ok ((b ++ indent (level - 1)) ++ ["}"]) end).
Proof.
  destruct x as [a|e], y as [b|e']; cbn [closeEq layoutEqR]; try trivial.
  intros H R. rewrite H, !normOnto_app, normOnto_indent. reflexivity.
Qed.

Lemma encodeSlice_modes (t : Ty) (l : list Val) (level : Z) :
  Forall (fun v => forall l, layoutEqR (encV [] v l true) (encV [] v l false)) l ->
  layoutEqR (encodeSlice sprintV IsPrint encV [] t l level true)
            (encodeSlice sprintV IsPrint encV [] t l level false).
Proof.
  intros IHl.
  pose proof (fun v b l c => encodeValue_prepend sprintV IsPrint v b l c) as Pre.
  unfold encodeSlice. destruct l as [|y r]; [same_text|].
  destruct (isStructType t); [same_text|].
  pose proof (encodeSlice_loop_modes encV Pre (y :: r) IHl ([] ++ ["["]) ([] ++ ["["])
                0 level (layoutEq_refl _)) as H.
  destruct (encodeSlice_loop encV ([] ++ ["["]) (y :: r) 0 level true),
           (encodeSlice_loop encV ([] ++ ["["]) (y :: r) 0 level false);
    cbn [layoutEqR] in *; try contradiction; [|exact H].
  apply layoutEq_app; [exact H | apply layoutEq_refl].
Qed.

Lemma encodeMap_modes (keys : list bytes) (vals : list Val) (level : Z) :
  Forall (fun v => forall l, layoutEqR (encV [] v l true) (encV [] v l false)) vals ->
  layoutEqR (encodeMap encV [] keys vals level true)
            (encodeMap encV [] keys vals level false).
Proof.
  intros IHl.
  pose proof (fun v b l c => encodeValue_prepend sprintV IsPrint v b l c) as Pre.
  unfold encodeMap. cbn [negb].
  exact (closeEq_closed _ _ level
           (encodeMap_loop_modes encV Pre vals IHl keys ([] ++ ["{"])
              (([] ++ ["{"]) ++ [LF]) level true layoutEq_open)).
Qed.

Lemma encodeStruct_modes (fs : list Field) (vals : list Val) (level : Z) :
  Forall (fun v => forall l, layoutEqR (encV [] v l true) (encV [] v l false)) vals ->
  layoutEqR (encodeStruct encV [] fs vals level true)
            (encodeStruct encV [] fs vals level false).
Proof.
  intros IHl.
  pose proof (fun v b l c => encodeValue_prepend sprintV IsPrint v b l c) as Pre.
  unfold encodeStruct. cbn [negb].
  exact (closeEq_closed _ _ level
           (encodeStruct_loop_modes encV Pre vals IHl fs ([] ++ ["{"])
              (([] ++ ["{"]) ++ [LF]) level true layoutEq_open)).
Qed.

Lemma encodeValue_modes (v : Val) :
  forall level, layoutEqR (encV [] v level true) (encV [] v level false).
Proof.
  induction v as [ | | | | s | | x IHx | | t l IHl | t l IHl | | t keys vals IHl
                 | fs vals IHl | | x IHx | ] using Val_nested_ind;
    intros level; try same_text.
  - destruct x; try same_text; apply (IHx level).
  - rewrite !(encodeValue_slice sprintV IsPrint). now apply encodeSlice_modes.
  - rewrite !(encodeValue_array sprintV IsPrint). now apply encodeSlice_modes.
  - apply (encodeMap_modes [] [] level). constructor.
  - rewrite !(encodeValue_map sprintV IsPrint). now apply encodeMap_modes.
  - rewrite !(encodeValue_struct sprintV IsPrint). now apply encodeStruct_modes.
  - apply (IHx level).
Qed.

(** C4 as amended.  For every value, [Marshal] and [MarshalBeautify]
    either fail with the same error or produce texts with the same
    normal form: they are equal, byte for byte and in order, once the
    blanks are deleted and, with them, the semicolons that stand
    directly before a closing brace.  The semicolons between the entries
    of an object are in both texts. *)
Theorem marshal_modes_equal_up_to_blanks_and_closing_semicolons :
  forall v : Val,
    sameUpToLayout (Marshal sprintV IsPrint v) (MarshalBeautify sprintV IsPrint v).
Proof.
  intros v.
  assert (H : layoutEqR (Marshal sprintV IsPrint v) (MarshalBeautify sprintV IsPrint v)).
  { unfold Marshal, MarshalBeautify, marshalWithCompact.
    set (rv := match v with VPtrTo x => x | _ => v end).
    destruct (isMapOrStruct rv); [apply encodeValue_modes|].
    cbn [negb].
    rewrite (encodeValue_prepend sprintV IsPrint rv ([] ++ ["{"])).
    rewrite (encodeValue_prepend sprintV IsPrint rv (([] ++ ["{"]) ++ _)).
    pose proof (encodeValue_modes rv 1) as H.
    destruct (encV [] rv 1 true), (encV [] rv 1 false); cbn [layoutEqR] in H;
      try contradiction; [|exact H].
    cbn [prepend layoutEqR]. intros R.
    rewrite !normOnto_app, H. reflexivity. }
  destruct (Marshal sprintV IsPrint v), (MarshalBeautify sprintV IsPrint v);
    cbn [layoutEqR sameUpToLayout] in *; try assumption.
  apply H.
Qed.

End Modes.

(** The normal forms of the two texts of the person of the tests. *)
Lemma marshal_modes_normal_form_example :
  layoutNormal (textOf (MarshalBeautify (fun _ => []) (fun _ => false)
                          (person "John" 12 "NY")))
  = textOf (Marshal (fun _ => []) (fun _ => false) (person "John" 12 "NY"))
  /\ layoutNormal (bs "{a=1;b=2;}") = bs "{a=1;b=2}"
  /\ bytes_eqb (layoutNormal (bs "{a=1b=2}")) (layoutNormal (bs "{a=1;b=2;}")) = false.
Proof. repeat split. Qed.

(** ** Grounding of zero values *)

Section ZeroFields.

Variable sprintV : Val -> bytes.
Variable IsPrint : N -> bool.

Local Abbreviation encV := (encodeValue sprintV IsPrint).

(** The zero value of a record type or of an array type of positive
    length is not written as an empty text. *)
Lemma zero_text_not_empty (t : Ty) (level : Z) (compact : bool) (x : bytes) :
  groundsToEmpty t = false ->
  encV [] (zero t) level compact = Ok x -> x <> [].
Proof.
  intros G H. destruct t; try discriminate G.
  - destruct len as [|n]; [discriminate G|].
    cbn [zero repeat] in H. rewrite (encodeValue_array sprintV IsPrint) in H.
    unfold encodeSlice in H. destruct (isStructType t).
    + injection H as <-. unfold encodeStructSliceAsTable.
      apply not_eq_sym, app_cons_not_nil.
    + destruct (encodeSlice_loop _ _ _ _ _ _); [|discriminate H].
      injection H as <-. apply not_eq_sym, app_cons_not_nil.
  - rewrite zero_struct, (encodeValue_struct sprintV IsPrint) in H.
    destruct (encodeStruct_braces sprintV IsPrint _ _ _ _ _ H) as [body ->].
    discriminate.
  - discriminate H.
Qed.

Lemma grounded_fresh (fs : list Field) (key : bytes) :
  grounded fs key (zeroFields fs) = zeroFields fs.
Proof.
  unfold grounded. destruct (buildFieldMap fs 0 emptyFieldMap key);
    [apply setNth_zeroFields | reflexivity].
Qed.

(** A record document with the one pair [key=], closed at once or after
    a semicolon. *)
Lemma Unmarshal_empty_pair (fuel : nat) (fs : list Field) (vals : list Val)
  (key : bytes) (t : bytes) :
  goodKey key = true ->
  t = ["}"] \/ t = [";"; "}"] ->
  Unmarshal (4 + fuel) ("{" :: key ++ "=" :: t) (VPtrTo (VStruct fs vals))
  = Done (VStruct fs (grounded fs key vals)).
Proof.
  intros GK Ht. destruct (goodKey_parts key GK) as [TK NE].
  destruct key as [|c key]; [congruence|].
  assert (Bc : isBlank c = false).
  { apply tokenByte_not_blank. simpl in TK. now apply andb_true_iff in TK. }
  set (doc := "{" :: (c :: key) ++ "=" :: t).
  rewrite (Unmarshal_record _ doc fs _ "{" _ eq_refl eq_refl).
  cbn [Nat.add]. rewrite decodeValue_struct.
  set (p0 := mkParser doc 0).
  assert (R0 : rest p0 = "{" :: c :: key ++ "=" :: t) by reflexivity.
  rewrite (skipSpaces_not_blank p0 "{" _ R0 eq_refl).
  rewrite (decodeStruct_open _ p0 fs _ c _ R0 Bc).
  destruct (at_cons p0 "{" _ R0) as (_ & _ & _ & R1).
  set (p1 := setPos p0 (pos p0 + 1)) in *.
  assert (E : exists d X q,
             t = d :: X /\ (d = ";" \/ d = "}")
             /\ q = skipSpaces (setPos p1 (pos p1 + length (c :: key) + 1
                                          + (if beq d ";" then 1 else 0)))
             /\ rest q = ["}"]).
  { destruct Ht as [-> | ->].
    - exists "}", [], (skipSpaces (setPos p1 (pos p1 + length (c :: key) + 1 + 0))).
      repeat split; [now right|].
      rewrite Nat.add_0_r.
      pose proof (rest_after_key p1 (c :: key) "=" ["}"] R1) as R2.
      now rewrite (skipSpaces_not_blank _ "}" [] R2 eq_refl).
    - exists ";", ["}"], (skipSpaces (setPos p1 (pos p1 + length (c :: key) + 1 + 1))).
      repeat split; [now left|].
      pose proof (rest_after_key p1 (c :: key) "=" [";"; "}"] R1) as R2.
      pose proof (rest_after _ [";"] ["}"] R2) as R3.
      rewrite setPos_setPos in R3. cbn [pos setPos] in R3.
      change (length [";"]) with 1 in R3.
      now rewrite (skipSpaces_not_blank _ "}" [] R3 eq_refl). }
  destruct E as (d & X & q & -> & Hd & Hq & Rq).
  rewrite (decodeStruct_loop_empty_rhs _ p1 fs _ vals (c :: key) d X GK Hd R1).
  rewrite <- Hq. fold (grounded fs (c :: key) vals).
  rewrite (decodeStruct_loop_close fuel q fs _ _ [] Rq).
  destruct (at_cons q "}" _ Rq) as (P0 & _). now rewrite P0.
Qed.

(** C3 as amended.  Encoding: for an exported field whose type is a
    string, boolean, integer, float, pointer, slice, map or interface
    type (or an array type of length zero), the zero value is written as
    the key, the equals sign and nothing else before the separator; for a
    field of record type or of an array type of positive length the zero
    value is not written empty, but as a nested object, list or table.
    Decoding: a key with an empty right-hand side sets the field it
    resolves to to the zero value of the field's type, whatever the
    destination held, and leaves the other fields alone, where an absent
    key leaves every field as it was; into a fresh destination both give
    the all-zero record. *)
Theorem zero_field_has_empty_rhs_and_decodes_like_absent_key :
  (forall fs1 f fs2 vs1 vs2 b b1 level compact first,
      length fs1 = length vs1 ->
      IsExported f = true ->
      groundsToEmpty (Type_ f) = true ->
      encodeStruct_loop encV b fs1 vs1 level compact first = Ok b1 ->
      encodeStruct_loop encV b (fs1 ++ f :: fs2) (vs1 ++ zero (Type_ f) :: vs2)
        level compact first
      = encodeStruct_loop encV
          (if compact
           then (if first && noneExported fs1 then b1 else b1 ++ [";"])
                ++ fieldName f ++ ["="]
           else ((b1 ++ indent level) ++ fieldName f ++ ["="]) ++ [";"; LF])
          fs2 vs2 level compact false)
  /\ (forall f,
        IsExported f = true ->
        groundsToEmpty (Type_ f) = true ->
        Marshal sprintV IsPrint (VStruct [f] [zero (Type_ f)])
        = Ok (bs "{" ++ fieldName f ++ bs "=}")
        /\ MarshalBeautify sprintV IsPrint (VStruct [f] [zero (Type_ f)])
           = Ok (bs "{" ++ [LF] ++ fieldName f ++ bs "=;" ++ [LF] ++ bs "}"))
  /\ (forall f text,
        IsExported f = true ->
        groundsToEmpty (Type_ f) = false ->
        Marshal sprintV IsPrint (VStruct [f] [zero (Type_ f)]) = Ok text ->
        exists x, x <> [] /\ text = bs "{" ++ fieldName f ++ bs "=" ++ x ++ bs "}")
  /\ (forall fuel p fs fm vals key t X,
        goodKey key = true ->
        t = ";" \/ t = "}" ->
        rest p = key ++ "=" :: t :: X ->
        decodeStruct_loop (S fuel) p fs fm vals
        = decodeStruct_loop fuel
            (skipSpaces (setPos p (pos p + length key + 1
                                   + (if beq t ";" then 1 else 0))))
            fs fm
            (match fm key with
             | Some i => setNth i (zero (fieldType fs i)) vals
             | None => vals
             end))
  /\ (forall fuel fs vals key,
        goodKey key = true ->
        Unmarshal (4 + fuel) (bs "{" ++ key ++ bs "=}") (VPtrTo (VStruct fs vals))
        = Done (VStruct fs (grounded fs key vals))
        /\ Unmarshal (4 + fuel) (bs "{" ++ key ++ bs "=;}") (VPtrTo (VStruct fs vals))
           = Done (VStruct fs (grounded fs key vals))
        /\ Unmarshal (4 + fuel) (bs "{}") (VPtrTo (VStruct fs vals))
           = Done (VStruct fs vals))
  /\ (forall fs vals key i,
        buildFieldMap fs 0 emptyFieldMap key = Some i ->
        (i < length vals -> nth i (grounded fs key vals) VOther = zero (fieldType fs i))
        /\ (forall j, j <> i -> nth j (grounded fs key vals) VOther = nth j vals VOther))
  /\ (forall fs key, grounded fs key (zeroFields fs) = zeroFields fs).
Proof.
  split; [|split; [|split; [|split; [|split; [|split]]]]].
  - intros fs1 f fs2 vs1 vs2 b b1 level compact first L E G H.
    rewrite (encodeStruct_loop_app encV _ _ level compact fs1 vs1 b first L), H.
    cbn [encodeStruct_loop]. rewrite E. cbn [negb].
    rewrite (isZeroValue_zero (Type_ f)), G.
    destruct compact, (first && noneExported fs1); reflexivity.
  - intros f E G. unfold Marshal, MarshalBeautify, marshalWithCompact.
    cbn [isMapOrStruct]. rewrite !(encodeValue_struct sprintV IsPrint).
    unfold encodeStruct.
    cbn [encodeStruct_loop]. rewrite E. cbn [negb andb].
    rewrite (isZeroValue_zero (Type_ f)), G.
    split; simpl; rewrite <- ?app_assoc; reflexivity.
  - intros f text E G H. unfold Marshal, marshalWithCompact in H.
    cbn [isMapOrStruct] in H. rewrite (encodeValue_struct sprintV IsPrint) in H.
    unfold encodeStruct in H. cbn [encodeStruct_loop] in H. rewrite E in H.
    cbn [negb andb app] in H. rewrite (isZeroValue_zero (Type_ f)), G in H.
    rewrite (encodeValue_prepend sprintV IsPrint) in H.
    destruct (encV [] (zero (Type_ f)) (0 + 1)%Z true) as [x|e] eqn:EV; [|discriminate H].
    cbn [prepend] in H. injection H as <-.
    exists x. split; [exact (zero_text_not_empty _ _ _ _ G EV)|].
    cbn [bs list_ascii_of_string app]. now rewrite <- !app_assoc.
  - intros fuel p fs fm vals key t X GK Ht R.
    exact (decodeStruct_loop_empty_rhs fuel p fs fm vals key t X GK Ht R).
  - intros fuel fs vals key GK. split; [|split].
    + exact (Unmarshal_empty_pair fuel fs vals key ["}"] GK (or_introl eq_refl)).
    + exact (Unmarshal_empty_pair fuel fs vals key [";"; "}"] GK (or_intror eq_refl)).
    + reflexivity.
  - intros fs vals key i FM. unfold grounded. rewrite FM. split.
    + intros Hi. now apply nth_setNth_eq.
    + intros j Hj. apply nth_setNth_neq. congruence.
  - apply grounded_fresh.
Qed.

End ZeroFields.

(** ** Rows of a table *)

Lemma setCell_empty (headers : list bytes) (fm : FieldMap) (sv : list Val) (idx : nat) :
  setCell headers fm sv idx [] = Ok sv.
Proof.
  unfold setCell. destruct (nth_error headers idx) as [h|]; [|reflexivity].
  destruct (fm h) as [j|]; [|reflexivity].
  cbn [setFieldFromString]. now rewrite setNth_same.
Qed.

(** Storing the cells one after the other under a running index is
    pairing them with the headers by position. *)
Lemma applyCells_groundRow (headers : list bytes) (fm : FieldMap) (cells : list bytes) :
  forall sv idx,
    applyCells headers fm sv idx cells
    = groundRow fm (combine (skipn idx headers) cells) sv.
Proof.
  induction cells as [|c r IH]; intros sv idx.
  - now rewrite combine_nil.
  - destruct (nth_error headers idx) as [h|] eqn:N.
    + assert (S0 : skipn idx headers = h :: skipn (S idx) headers).
      { clear - N. revert idx N. induction headers as [|x l IHl]; intros [|i] N;
          try discriminate N.
        - now injection N as <-.
        - cbn [nth_error] in N. rewrite (skipn_cons i x l), (IHl i N). reflexivity. }
      rewrite S0. cbn [combine groundRow applyCells].
      destruct c as [|c0 c].
      * rewrite setCell_empty. apply IH.
      * unfold setCell. rewrite N. destruct (fm h) as [j|]; [|apply IH].
        destruct (setFieldFromString (nth j sv VOther) (c0 :: c)); [apply IH | reflexivity].
    + assert (L : length headers <= idx) by now apply nth_error_None.
      rewrite (skipn_all2 headers L). cbn [combine groundRow].
      now apply applyCells_beyond.
Qed.

Lemma tableCells_join (fuel : nat) :
  forall p headers fm sv idx cells p',
    scanCells fuel p = Done (cells, p') ->
    tableCells_loop fuel p headers fm sv idx
    = match applyCells headers fm sv idx cells with
      | Ok sv' => Done (sv', p')
      | Err e => Fail e
      end.
Proof.
  induction fuel as [|f IH]; intros p headers fm sv idx cells p' H; [discriminate|].
  cbn [tableCells_loop scanCells] in *.
  destruct (beq (peek (skipSpaces p)) ";"); [now injection H as <- <-|].
  destruct (beq (peek (skipSpaces p)) ")"); [now injection H as <- <-|].
  destruct (readCell (skipSpaces p)) as [[cellStr|e] p1]; [|discriminate].
  destruct (scanCells f _) as [[cs q]| |] eqn:SC; try discriminate.
  injection H as <- <-. cbn [applyCells].
  destruct (setCell headers fm sv idx cellStr) as [sv1|e]; [|reflexivity].
  exact (IH _ headers fm sv1 (S idx) cs q SC).
Qed.

Lemma groundRow_untouched (fm : FieldMap) (hcs : list (bytes * bytes)) (j : nat) :
  forall row row',
    groundRow fm hcs row = Ok row' ->
    (forall h c, In (h, c) hcs -> fm h = Some j -> c = []) ->
    nth j row' VOther = nth j row VOther.
Proof.
  induction hcs as [|[h c] r IH]; intros row row' H E.
  - now injection H as <-.
  - assert (E' : forall h0 c0, In (h0, c0) r -> fm h0 = Some j -> c0 = [])
      by (intros h0 c0 Hi; apply E; now right).
    cbn [groundRow] in H. destruct c as [|c0 c]; [exact (IH _ _ H E')|].
    destruct (fm h) as [i|] eqn:F; [|exact (IH _ _ H E')].
    destruct (setFieldFromString (nth i row VOther) (c0 :: c)) as [v|e];
      [|discriminate H].
    rewrite (IH _ _ H E'). apply nth_setNth_neq. intros ->.
    specialize (E h (c0 :: c) (or_introl eq_refl) F). discriminate E.
Qed.

Lemma tokenByte_not_cell_end (x : byte) :
  tokenByte x = true -> containsByte (bs ",;)") x = false.
Proof.
  intros T. destruct (tokenByte_parts x T) as (D & _ & _).
  unfold containsByte. cbn [bs list_ascii_of_string existsb].
  destruct (beq x ",") eqn:E1; [apply beq_true in E1; subst x; discriminate D|].
  destruct (beq x ";") eqn:E2; [apply beq_true in E2; subst x; discriminate D|].
  destruct (beq x ")") eqn:E3; [apply beq_true in E3; subst x; discriminate D|].
  reflexivity.
Qed.

Lemma bareCell_head (c : bytes) (d : byte) (X : bytes) :
  bareCell c = true -> containsByte (bs ",;)") d = true ->
  exists h t, c ++ d :: X = h :: t /\ isBlank h = false /\ beq h DQ = false
              /\ (c <> [] -> beq h ";" = false /\ beq h ")" = false).
Proof.
  intros B D. destruct c as [|h c].
  - exists d, X. split; [reflexivity|].
    unfold containsByte in D. cbn [bs list_ascii_of_string existsb] in D.
    rewrite orb_false_r in D.
    apply orb_true_iff in D. destruct D as [D | D];
      [|apply orb_true_iff in D; destruct D as [D | D]];
      apply beq_true in D; subst d; repeat split; congruence.
  - exists h, (c ++ d :: X). split; [reflexivity|].
    cbn [bareCell forallb] in B. apply andb_true_iff in B. destruct B as [B _].
    apply andb_true_iff in B. destruct B as [T Q]. apply negb_true_iff in Q.
    destruct (tokenByte_parts h T) as (Dl & _ & _).
    split; [now apply tokenByte_not_blank|]. split; [exact Q|]. intros _.
    split.
    + destruct (beq h ";") eqn:E1; [|reflexivity].
      apply beq_true in E1. subst h. discriminate Dl.
    + destruct (beq h ")") eqn:E1; [|reflexivity].
      apply beq_true in E1. subst h. discriminate Dl.
Qed.

(** A bare cell is the text up to the next comma, semicolon or closing
    parenthesis; it is empty when that byte follows at once. *)
Lemma readCell_bare (p : parser) (c : bytes) (d : byte) (X : bytes) :
  bareCell c = true -> containsByte (bs ",;)") d = true ->
  rest p = c ++ d :: X ->
  readCell p = (Ok c, setPos p (pos p + length c)).
Proof.
  intros B D R.
  destruct (bareCell_head c d X B D) as (h & t & E & _ & Q & _).
  unfold readCell. rewrite peek_rest, R, E. cbn [hd]. rewrite Q.
  rewrite readUntilAny_rest, R.
  assert (T : forallb tokenByte c = true).
  { apply forallb_forall. intros x Hx. unfold bareCell in B.
    rewrite forallb_forall in B. specialize (B x Hx).
    now apply andb_true_iff in B. }
  rewrite (takeWhile_app_stop (fun x => negb (containsByte (bs ",;)") x)) c d X).
  - now rewrite (TrimSpace_token c T).
  - apply forallb_forall. intros x Hx. rewrite forallb_forall in T.
    now rewrite (tokenByte_not_cell_end x (T x Hx)).
  - now rewrite D.
Qed.

Lemma scanCells_rowText (cells : list bytes) :
  forall fuel p X,
    forallb bareCell cells = true ->
    rest p = rowText cells ++ X ->
    length cells < fuel ->
    scanCells fuel p = Done (cells, setPos p (pos p + length (rowText cells))).
Proof.
  induction cells as [|c r IH]; intros fuel p X B R F;
    (destruct fuel as [|f]; [inversion F|]).
  - cbn [rowText app] in R. cbn [scanCells].
    rewrite (skipSpaces_not_blank p ";" X R eq_refl).
    destruct (at_cons p ";" X R) as (P0 & _ & A0 & _).
    now rewrite P0, A0.
  - cbn [forallb] in B. apply andb_true_iff in B. destruct B as [Bc Br].
    cbn [rowText] in R |- *. rewrite <- app_assoc in R. cbn [app] in R.
    destruct (bareCell_head c "," (rowText r ++ X) Bc eq_refl)
      as (h & t & E & Bh & _ & NE).
    cbn [scanCells]. rewrite (skipSpaces_not_blank p h t (eq_trans R E) Bh).
    assert (P0 : beq (peek p) ";" = false /\ beq (peek p) ")" = false).
    { rewrite peek_rest, R. destruct c as [|c0 c]; [now split|].
      cbn [app hd]. injection E as <- _. apply NE. discriminate. }
    destruct P0 as [P1 P2]. rewrite P1, P2.
    rewrite (readCell_bare p c "," _ Bc eq_refl R).
    pose proof (rest_after p c _ R) as R1.
    rewrite (skipSpaces_not_blank _ "," _ R1 eq_refl).
    destruct (at_cons _ "," _ R1) as (Q0 & _ & A0 & R2).
    rewrite Q0, A0. cbn [beq Ascii.eqb Bool.eqb andb].
    rewrite (IH f _ X Br R2) by (cbn [length] in F; lia).
    rewrite !setPos_setPos. cbn [pos setPos]. rewrite length_app. cbn [length].
    do 3 f_equal. lia.
Qed.

Lemma In_combine_nth {A B : Type} (l : list A) :
  forall (l' : list B) a b,
    In (a, b) (combine l l') ->
    exists i, nth_error l i = Some a /\ nth_error l' i = Some b.
Proof.
  induction l as [|x l IH]; intros [|y l'] a b H; try contradiction.
  destruct H as [H | H].
  - injection H as <- <-. now exists 0.
  - destruct (IH l' a b H) as (i & Ha & Hb). now exists (S i).
Qed.

(** C6.  Every row of a table is decoded by reading its cells and then
    pairing them with the headers by position on the zero record of the
    element type ([groundRow]): an empty cell and a header that resolves
    to no field change nothing and raise nothing, any other cell is
    parsed into the field of its header, the error of a cell that does
    not parse is the error of the row.  The cells read are those of the
    text: a row of bare cells, each followed by a comma, is read cell by
    cell, the empty ones included.  Cells past the header length do not
    alter the outcome.  A field that no header position with a non-empty
    cell resolves to is left as it was, that is, at the zero value of its
    type.  The three documents decode to the single records shown. *)
Theorem table_rows_ground_missing_and_drop_excess_cells :
  (forall fuel p headers fm sv cells p',
      scanCells fuel p = Done (cells, p') ->
      tableCells_loop fuel p headers fm sv 0
      = match groundRow fm (combine headers cells) sv with
        | Ok sv' => Done (sv', p')
        | Err e => Fail e
        end)
  /\ (forall fuel p headers fm sv sv' p',
        tableCells_loop fuel p headers fm sv 0 = Done (sv', p') ->
        exists cells, scanCells fuel p = Done (cells, p'))
  /\ (forall f p fs headers fm slice cells p1,
        beq (peek (skipSpaces p)) ")" = false ->
        scanCells f (skipSpaces p) = Done (cells, p1) ->
        tableRows_loop (S f) p fs headers fm slice
        = match groundRow fm (combine headers cells) (zeroFields fs) with
          | Ok sv => tableRows_loop f p1 fs headers fm (slice ++ [VStruct fs sv])
          | Err e => Fail e
          end)
  /\ (forall cells fuel p X,
        forallb bareCell cells = true ->
        rest p = rowText cells ++ X ->
        length cells < fuel ->
        scanCells fuel p = Done (cells, setPos p (pos p + length (rowText cells))))
  /\ (forall fm headers cells row,
        groundRow fm (combine headers cells) row
        = groundRow fm (combine headers (firstn (length headers) cells)) row)
  /\ (forall fm headers cells row row' j,
        groundRow fm (combine headers cells) row = Ok row' ->
        (forall i h, nth_error headers i = Some h -> fm h = Some j ->
                     nth i cells [] = []) ->
        nth j row' VOther = nth j row VOther)
  /\ Unmarshal 12 johnDoc (VPtrTo (VSliceNil (TStruct Person)))
     = Done (VSlice (TStruct Person) [person "John" 12 ""])
  /\ Unmarshal 12 johnExtraDoc (VPtrTo (VSliceNil (TStruct Person)))
     = Done (VSlice (TStruct Person) [person "John" 12 ""])
  /\ Unmarshal 12 johnGapDoc (VPtrTo (VSliceNil (TStruct Person)))
     = Done (VSlice (TStruct Person) [person "John" 0 "NY"]).
Proof.
  split; [|split; [|split; [|split; [|split; [|split]]]]].
  - intros fuel p headers fm sv cells p' H.
    rewrite (tableCells_join fuel p headers fm sv 0 cells p' H).
    now rewrite applyCells_groundRow.
  - intros fuel p headers fm sv sv' p' H.
    destruct (tableCells_split fuel p headers fm sv 0 sv' p' H) as (cells & S0 & _).
    now exists cells.
  - intros f p fs headers fm slice cells p1 C S0.
    cbn [tableRows_loop]. rewrite C.
    rewrite (tableCells_join f _ headers fm (zeroFields fs) 0 cells p1 S0).
    rewrite applyCells_groundRow. cbn [skipn].
    now destruct (groundRow fm (combine headers cells) (zeroFields fs)).
  - exact scanCells_rowText.
  - intros fm headers cells row. now rewrite <- combine_firstn_l.
  - intros fm headers cells row row' j H E.
    apply (groundRow_untouched fm _ j _ _ H).
    intros h c Hi F.
    destruct (In_combine_nth headers cells h c Hi) as (i & Hh & Hc).
    rewrite <- (E i h Hh F). symmetry. now apply nth_error_nth.
  - repeat split.
Qed.

(** ** Triple-quoted strings *)

Lemma parseTripleString_loop_spec (body : bytes) :
  forall fuel start p,
    rest p = body -> length body <= fuel ->
    parseTripleString_loop fuel start p
    = match findTriple body with
      | Some k => (Ok (slice (src p) start (pos p + k)), setPos p (pos p + k + 3))
      | None => (Err ErrUnterminatedTriple, setPos p (pos p + length body))
      end.
Proof.
  induction body as [|c r IH]; intros fuel start p R F.
  - cbn [findTriple length]. rewrite Nat.add_0_r, setPos_self.
    destruct fuel; cbn [parseTripleString_loop]; [reflexivity|].
    now rewrite eof_rest, R.
  - destruct fuel as [|f]; [simpl in F; lia|].
    cbn [parseTripleString_loop findTriple]. rewrite eof_rest, peekAhead_rest, R.
    destruct (bytes_eqb (firstn 3 (c :: r)) tripleQuote).
    + now rewrite Nat.add_0_r.
    + destruct (at_cons p c r R) as (_ & _ & _ & R1).
      rewrite Nat.add_1_r in R1.
      rewrite (IH f start (setPos p (S (pos p))) R1) by (simpl in F; lia).
      destruct (findTriple r) as [k|]; cbn [option_map src setPos pos length];
        rewrite ?setPos_setPos.
      * replace (pos p + S k) with (S (pos p) + k) by lia. reflexivity.
      * replace (pos p + S (length r)) with (S (pos p) + length r) by lia.
        reflexivity.
Qed.

(** [parseTripleString] at three double quotes returns, unchanged and
    with no escape processed, the bytes up to the next three double
    quotes in a row and leaves the cursor behind them; when there are no
    such three quotes it fails at the end of the input. *)
Theorem parseTripleString_reads_to_next_triple :
  forall p body,
    rest p = tripleQuote ++ body ->
    parseTripleString p
    = match findTriple body with
      | Some k => (Ok (firstn k body), setPos p (pos p + 3 + k + 3))
      | None => (Err ErrUnterminatedTriple, setPos p (pos p + 3 + length body))
      end.
Proof.
  intros p body R. unfold parseTripleString.
  rewrite peekAhead_rest, R. cbn [tripleQuote app firstn bytes_eqb].
  rewrite !beq_refl. cbn [andb negb].
  pose proof (rest_after p tripleQuote body R) as R1. cbn [tripleQuote length] in R1.
  rewrite (parseTripleString_loop_spec body _ _ _ R1)
    by (rewrite remaining_rest, R1; apply le_n).
  destruct (findTriple body) as [k|]; rewrite ?setPos_setPos; cbn [pos setPos src].
  - f_equal. f_equal. rewrite <- R1. apply (slice_rest (setPos p (pos p + 3)) k).
  - reflexivity.
Qed.

Lemma parseTripleString_reads_to_next_triple_witness :
  parseTripleString (mkParser (tripleQuote ++ bs "a\nb" ++ tripleQuote ++ bs ";") 0)
  = (Ok (bs "a\nb"), mkParser (tripleQuote ++ bs "a\nb" ++ tripleQuote ++ bs ";") 10).
Proof.
  exact (parseTripleString_reads_to_next_triple
           (mkParser (tripleQuote ++ bs "a\nb" ++ tripleQuote ++ bs ";") 0)
           (bs "a\nb" ++ tripleQuote ++ bs ";") eq_refl).
Defined.

Lemma findTriple_no_quote (s Y : bytes) :
  existsb (beq DQ) s = false ->
  findTriple (s ++ tripleQuote ++ Y) = Some (length s).
Proof.
  induction s as [|c s IH]; intros H.
  - cbn [app tripleQuote findTriple firstn bytes_eqb]. now rewrite !beq_refl.
  - cbn [existsb] in H. apply orb_false_iff in H. destruct H as [Hc Hs].
    cbn [app findTriple]. rewrite (IH Hs).
    assert (N : bytes_eqb (firstn 3 (c :: s ++ tripleQuote ++ Y)) tripleQuote = false).
    { cbn [firstn bytes_eqb tripleQuote]. rewrite beq_sym, Hc. reflexivity. }
    rewrite N. reflexivity.
Qed.

(** A string with a line feed and no double quote is written between
    triple quotes as it stands and read back unchanged, whatever other
    bytes it holds. *)
Theorem multiline_string_reads_back :
  forall (IsPrint : N -> bool) fuel p s old Y,
    existsb (beq LF) s = true ->
    existsb (beq DQ) s = false ->
    rest p = encodeString IsPrint [] s ++ Y ->
    decodeValue (S fuel) p (VString old)
    = Done (VString s, setPos p (pos p + length (encodeString IsPrint [] s))).
Proof.
  intros IsPrint fuel p s old Y NL NQ R.
  unfold encodeString, containsNewline in *. rewrite NL in *.
  cbn [app] in *. rewrite <- !app_assoc in R.
  assert (R0 : rest p = DQ :: DQ :: DQ :: s ++ tripleQuote ++ Y) by exact R.
  destruct (at_cons p DQ _ R0) as (P0 & _ & _ & _).
  cbn [decodeValue]. rewrite (skipSpaces_not_blank p DQ _ R0 eq_refl).
  unfold parseStringValue. rewrite P0, beq_refl.
  assert (T : bytes_eqb (peekAhead 3 p) tripleQuote = true)
    by (rewrite peekAhead_rest, R0; reflexivity).
  rewrite T. unfold parseTripleString. rewrite T. cbn [negb].
  pose proof (rest_after p tripleQuote _ R0) as R1. cbn [tripleQuote length] in R1.
  rewrite (parseTripleString_loop_spec _ _ _ _ R1)
    by (rewrite remaining_rest, R1; apply le_n).
  rewrite (findTriple_no_quote s Y NQ).
  rewrite (slice_rest (setPos p (pos p + 3)) (length s)), R1.
  rewrite setPos_setPos. cbn [pos setPos src].
  rewrite firstn_app, Nat.sub_diag, firstn_all, app_nil_r.
  rewrite !length_app. cbn [tripleQuote length]. do 3 f_equal. lia.
Qed.

Lemma multiline_string_reads_back_witness :
  decodeValue 1 (mkParser (tripleQuote ++ bs "a" ++ [LF] ++ bs "b" ++ tripleQuote) 0)
    (VString [])
  = Done (VString (bs "a" ++ [LF] ++ bs "b"),
          mkParser (tripleQuote ++ bs "a" ++ [LF] ++ bs "b" ++ tripleQuote) 9).
Proof.
  exact (multiline_string_reads_back (fun _ => false) 0
           (mkParser (tripleQuote ++ bs "a" ++ [LF] ++ bs "b" ++ tripleQuote) 0)
           (bs "a" ++ [LF] ++ bs "b") [] [] eq_refl eq_refl eq_refl).
Defined.
